(** * Chord node (src/app/ChordNode.ts): a shallow embedding

    The node's methods are embedded as functions in a small state and
    exception monad.  JavaScript values are modelled as follows:
    - an identifier ([number | null]) is an [option Z], [None] being [null];
      the arithmetic of the embedding is exact, where that of the source is
      on doubles: the two agree as long as every value stays within 2^53 in
      size ([double], [safe_integer]), which holds for identifiers of a ring
      of at most 47 bits ([small_ring], [on_ring]); the statements that
      depend on the arithmetic carry these conditions;
    - a value that may be [undefined] (an array slot past the end, the
      [successor] field after [updateSuccessorTable] copied an empty slot into
      it) is an [option], [None] being [undefined]; reading a property of
      [undefined] throws;
    - an [await]ed remote call is a transition of an abstract network
      [World] that either replies or is rejected;
    - [process.exit] is an outcome of its own, which no [catch] intercepts.

    The module utils is not among the sources.  Its constant
    [HASH_BIT_LENGTH], its predicate [isInModuloRange] and its hash
    [computeHostPortHash] are parameters of the methods; [NULL_NODE] and
    [connect] are modelled from the spec; [handleGRPCErrors] only logs, and
    debug logging ([DEBUGGING_LOCAL]) is off: neither is modelled, except
    that in module [Async] the arguments of [handleGRPCErrors] are evaluated
    where they read the successor of finger 0.

    The methods of section [Chord] model one invocation on its own: nothing
    else touches the node while it awaits.  Module [Async] embeds the
    maintenance methods a second time, as tasks that stop at each remote
    call, so that several invocations on one node can be interleaved, as the
    timer of [joinCluster] interleaves the runs of [stabilize].  A task that
    runs alone is the method of section [Chord] ([run_updateSuccessorTable],
    [run_stabilize]). *)

From Stdlib Require Import ZArith QArith Qround String Lia.
From stdpp Require Import base list strings.

Local Open Scope Z_scope.

(** ** Data model *)

(** [number | null]. *)
Definition ident : Type := option Z.

Module Node.
Record t : Type := mk { id : ident; host : option string; port : option Z }.
End Node.
Abbreviation Node := Node.t.

(** Modelled from the spec: [NULL_NODE] of utils, the sentinel
    "(id=null, host=null, port=null)" that denotes an unknown or unreachable
    peer. *)
Definition NULL_NODE : Node := Node.mk None None None.

Record FingerTableEntry : Type := mkFinger {
  start : ident;
  successor : option Node
}.

Module ChordNode.
Record t : Type := mk {
  id : ident;
  host : option string;
  port : option Z;
  knownId : ident;
  knownHost : option string;
  knownPort : option Z;
  fingerTable : list FingerTableEntry;
  successorTable : list (option Node);
  predecessor : Node
}.
End ChordNode.
Abbreviation ChordNode := ChordNode.t.

Definition set_id (v : ident) (n : ChordNode) : ChordNode :=
  ChordNode.mk v (ChordNode.host n) (ChordNode.port n) (ChordNode.knownId n)
    (ChordNode.knownHost n) (ChordNode.knownPort n) (ChordNode.fingerTable n)
    (ChordNode.successorTable n) (ChordNode.predecessor n).

Definition set_knownId (v : ident) (n : ChordNode) : ChordNode :=
  ChordNode.mk (ChordNode.id n) (ChordNode.host n) (ChordNode.port n) v
    (ChordNode.knownHost n) (ChordNode.knownPort n) (ChordNode.fingerTable n)
    (ChordNode.successorTable n) (ChordNode.predecessor n).

Definition set_fingerTable (v : list FingerTableEntry) (n : ChordNode) : ChordNode :=
  ChordNode.mk (ChordNode.id n) (ChordNode.host n) (ChordNode.port n)
    (ChordNode.knownId n) (ChordNode.knownHost n) (ChordNode.knownPort n) v
    (ChordNode.successorTable n) (ChordNode.predecessor n).

Definition set_successorTable (v : list (option Node)) (n : ChordNode) : ChordNode :=
  ChordNode.mk (ChordNode.id n) (ChordNode.host n) (ChordNode.port n)
    (ChordNode.knownId n) (ChordNode.knownHost n) (ChordNode.knownPort n)
    (ChordNode.fingerTable n) v (ChordNode.predecessor n).

Definition set_predecessor (v : Node) (n : ChordNode) : ChordNode :=
  ChordNode.mk (ChordNode.id n) (ChordNode.host n) (ChordNode.port n)
    (ChordNode.knownId n) (ChordNode.knownHost n) (ChordNode.knownPort n)
    (ChordNode.fingerTable n) (ChordNode.successorTable n) v.

(** [==] and [===] on identifiers (numbers or [null]; the two agree there). *)
Definition ident_eqb (a b : ident) : bool :=
  match a, b with
  | Some x, Some y => x =? y
  | None, None => true
  | _, _ => false
  end.

(** Truthiness of an identifier: [null] and [0] are falsy. *)
Definition truthy (a : ident) : bool :=
  match a with
  | Some x => negb (x =? 0)
  | None => false
  end.

(** [ToNumber]: [null] is read as [0] in arithmetic. *)
Definition toNumber (a : ident) : Z := default 0 a.

Definition encapsulateSelf (this : ChordNode) : Node :=
  Node.mk (ChordNode.id this) (ChordNode.host this) (ChordNode.port this).

(** ** Computations: state, exceptions, process exit *)

Inductive outcome (A : Type) : Type :=
| Ok (a : A)
| Throw
| Exit (code : Z).
Arguments Ok {A} a.
Arguments Throw {A}.
Arguments Exit {A} code.

Definition M (St A : Type) : Type := St -> outcome A * St.

Definition ret {St A} (a : A) : M St A := fun s => (Ok a, s).

Definition bind {St A B} (c : M St A) (k : A -> M St B) : M St B :=
  fun s =>
    match c s with
    | (Ok a, s') => k a s'
    | (Throw, s') => (Throw, s')
    | (Exit code, s') => (Exit code, s')
    end.

Definition throw {St A} : M St A := fun s => (Throw, s).

Definition process_exit {St A} (code : Z) : M St A := fun s => (Exit code, s).

(** [try { c } catch (err) { h }]. *)
Definition try_catch {St A} (c h : M St A) : M St A :=
  fun s =>
    match c s with
    | (Throw, s') => h s'
    | r => r
    end.

(** Property access on a value that may be [undefined]. *)
Definition deref {St A} (v : option A) : M St A :=
  match v with
  | Some a => ret a
  | None => throw
  end.

Declare Scope chord_scope.
Delimit Scope chord_scope with chord.
Notation "'let*' x ':=' c 'in' k" := (bind c (fun x => k))
  (at level 10, x pattern, c at level 100, k at level 200) : chord_scope.
Notation "c ';;' k" := (bind c (fun _ => k))
  (at level 100, k at level 200, right associativity) : chord_scope.
Local Open Scope chord_scope.

(** ** The network *)

Inductive reply (A : Type) : Type :=
| Reply (a : A)
| Rejected.
Arguments Reply {A} a.
Arguments Rejected {A}.

(** The gRPC client stubs [connect(peer).X(request)]: the first argument is
    the peer the stub was created for, the others are the request. *)
Class Network (World : Type) : Type := {
  rpc_findSuccessorRemoteHelper : Node -> ident -> Node -> World -> reply Node * World;
  rpc_getSuccessorRemoteHelper : Node -> Node -> World -> reply Node * World;
  rpc_closestPrecedingFingerRemoteHelper : Node -> ident -> Node -> World -> reply Node * World;
  rpc_getPredecessor : Node -> World -> reply Node * World;
  rpc_setPredecessor : Node -> Node -> World -> reply unit * World;
  rpc_updateFingerTable : Node -> Node -> nat -> World -> reply unit * World;
  rpc_notify : Node -> Node -> World -> reply unit * World
}.

(** Awaiting a remote call: a rejected promise throws. *)
Definition await {World A} (r : World -> reply A * World) : M World A :=
  fun w =>
    match r w with
    | (Reply a, w') => (Ok a, w')
    | (Rejected, w') => (Throw, w')
    end.

(** Modelled from the spec: [connect] of utils is the RPC client factory that
    "resolves a peer address to a stub"; it destructures its argument (so an
    [undefined] peer throws) and failures of the peer surface at the call. *)
Definition connect {St} (peer : option Node) : M St Node := deref peer.

Section Chord.

Context {World : Type} `{!Network World}.

(** The imports of utils that the methods use. *)
Variable HASH_BIT_LENGTH : nat.
Variable isInModuloRange : ident -> ident -> bool -> ident -> bool -> bool.
Variable computeHostPortHash : option string -> option Z -> ident.

(** *** getSuccessor *)

Definition getSuccessor (this : ChordNode) (nodeQueried : option Node)
  : M World (option Node) :=
  let* nq := deref nodeQueried in
  if ident_eqb (ChordNode.id this) (Node.id nq) then
    let* entry := deref (ChordNode.fingerTable this !! 0%nat) in
    ret (successor entry)
  else
    let* client := connect (Some nq) in
    try_catch
      (let* n := await (rpc_getSuccessorRemoteHelper client nq) in ret (Some n))
      (ret (Some (Node.mk None None None))).

(** *** getSuccessorRemoteHelper (RPC handler): the value passed to the
    callback. *)
Definition getSuccessorRemoteHelper (this : ChordNode) : M World (option Node) :=
  let* entry := deref (ChordNode.fingerTable this !! 0%nat) in
  ret (successor entry).

(** *** closestPrecedingFinger *)

(** The local scan [for (i = HASH_BIT_LENGTH - 1; i >= 0; i--)]; [k] is
    [i + 1]. *)
Fixpoint closestPrecedingFinger_scan (this : ChordNode) (id : ident)
    (nodeQueried : Node) (k : nat) : M World Node :=
  match k with
  | O => ret nodeQueried
  | S i =>
      let* entry := deref (ChordNode.fingerTable this !! i) in
      let* s := deref (successor entry) in
      if isInModuloRange (Node.id s) (Node.id nodeQueried) false id false
      then ret s
      else closestPrecedingFinger_scan this id nodeQueried i
  end.

Definition closestPrecedingFinger (this : ChordNode) (id : ident)
    (nodeQueried : Node) : M World Node :=
  if ident_eqb (ChordNode.id this) (Node.id nodeQueried) then
    closestPrecedingFinger_scan this id nodeQueried HASH_BIT_LENGTH
  else
    let* client := connect (Some nodeQueried) in
    try_catch
      (await (rpc_closestPrecedingFingerRemoteHelper client id nodeQueried))
      (ret NULL_NODE).

(** *** closestPrecedingFingerRemoteHelper (RPC handler) *)
Definition closestPrecedingFingerRemoteHelper (this : ChordNode) (id : ident)
    (nodeQueried : Node) : M World Node :=
  try_catch (closestPrecedingFinger this id nodeQueried) (ret NULL_NODE).

(** *** findPredecessor *)

(** [2 ** HASH_BIT_LENGTH * HASH_BIT_LENGTH] *)
Definition iterationCap : Z := 2 ^ Z.of_nat HASH_BIT_LENGTH * Z.of_nat HASH_BIT_LENGTH.

(** The guard of the [while] loop. *)
Definition findPredecessor_guard (id : ident) (nPrime nPrimeSuccessor : Node)
    (iterationCounter : Z) : bool :=
  negb (isInModuloRange id (Node.id nPrime) false (Node.id nPrimeSuccessor) true)
  && negb (ident_eqb (Node.id nPrime) (Node.id nPrimeSuccessor))
  && (0 <=? iterationCounter).

(** The [while] loop.  The result pairs the node that is returned with the
    number of times the body ran (a ghost count, not in the source).
    [fuel] only makes the recursion structural: the loop is run with
    [iterationCounter + 1] units, which the guard never outlasts. *)
Fixpoint findPredecessor_while (fuel : nat) (this : ChordNode) (id : ident)
    (iterationCounter : Z) (nPrime : Node) (nPrimeSuccessor : option Node)
    : M World (Node * nat) :=
  let* s := deref nPrimeSuccessor in
  if findPredecessor_guard id nPrime s iterationCounter then
    match fuel with
    | O => ret (nPrime, O)
    | S fuel' =>
        let iterationCounter := iterationCounter - 1 in
        let* nPrime :=
          try_catch (closestPrecedingFinger this id nPrime) (ret NULL_NODE) in
        let* nPrimeSuccessor :=
          try_catch (getSuccessor this (Some nPrime)) (ret (Some NULL_NODE)) in
        let* r := findPredecessor_while fuel' this id iterationCounter
                    nPrime nPrimeSuccessor in
        ret (fst r, S (snd r))
    end
  else ret (nPrime, O).

Definition findPredecessor_hops (this : ChordNode) (id : ident)
    : M World (Node * nat) :=
  let nPrime := encapsulateSelf this in
  let* nPrimeSuccessor :=
    try_catch (getSuccessor this (Some nPrime)) (ret (Some NULL_NODE)) in
  let iterationCounter := iterationCap in
  findPredecessor_while (Z.to_nat (iterationCounter + 1)) this id
    iterationCounter nPrime nPrimeSuccessor.

Definition findPredecessor (this : ChordNode) (id : ident) : M World Node :=
  let* r := findPredecessor_hops this id in ret (fst r).

(** *** findSuccessor

    The parameter is untyped in the source, and the handler below passes the
    [node] field of a request, which may be missing: [nodeQueried] is a node
    or [undefined].  The test
    [this.id != undefined && this.id == nodeQueried.id] stands outside every
    [try]; it reads [nodeQueried.id] only when [this.id] is set. *)

Definition findSuccessor (this : ChordNode) (id : ident) (nodeQueried : option Node)
  : M World (option Node) :=
  let* local :=
    if bool_decide (is_Some (ChordNode.id this)) then
      let* nq := deref nodeQueried in
      ret (ident_eqb (ChordNode.id this) (Node.id nq))
    else ret false in
  if local then
    let* nPrime := try_catch (findPredecessor this id) (ret NULL_NODE) in
    try_catch (getSuccessor this (Some nPrime)) (ret (Some NULL_NODE))
  else
    let* nodeQueriedClient := connect nodeQueried in
    try_catch
      (let* n := await (rpc_findSuccessorRemoteHelper nodeQueriedClient id
                          nodeQueriedClient) in
       ret (Some n))
      (ret (Some NULL_NODE)).

(** *** findSuccessorRemoteHelper (RPC handler): the value passed to the
    callback.  [nodeQueried] is [idAndNodeQueried.request.node]. *)
Definition findSuccessorRemoteHelper (this : ChordNode) (id : ident)
    (nodeQueried : option Node) : M World (option Node) :=
  try_catch (findSuccessor this id nodeQueried) (ret (Some NULL_NODE)).

(** ** Methods that update the node

    Their state pairs the node ([this]) with the network. *)

Definition getThis {W} : M (ChordNode * W) ChordNode := fun s => (Ok (fst s), s).

Definition modify {W} (f : ChordNode -> ChordNode) : M (ChordNode * W) unit :=
  fun s => (Ok tt, (f (fst s), snd s)).

(** Running a method that only reads the node. *)
Definition liftW {W A} (c : M W A) : M (ChordNode * W) A :=
  fun s =>
    match c (snd s) with
    | (r, w') => (r, (fst s, w'))
    end.

(** [a[i]] for an array of nodes: a slot past the end reads [undefined]. *)
Definition slot (a : list (option Node)) (i : nat) : option Node :=
  match a !! i with
  | Some v => v
  | None => None
  end.

(** [a[0] = x]: writes the head, and creates it in an empty array. *)
Definition assign0 {A} (x : A) (a : list A) : list A :=
  match a with
  | [] => [x]
  | _ :: t => x :: t
  end.

(** [a.shift()] and [a.pop()] (the removed element is not used). *)
Definition shift {A} (a : list A) : list A := drop 1 a.
Definition pop {A} (a : list A) : list A := take (Nat.pred (length a)) a.

(** [a.splice(start, deleteCount, item)] *)
Definition splice {A} (start deleteCount : nat) (item : A) (a : list A) : list A :=
  take start a ++ item :: drop (start + deleteCount) a.

(** [a[i]] for a number [i]. *)
Definition index_Z {A} (a : list A) (i : Z) : option A :=
  if i <? 0 then None else a !! Z.to_nat i.

(** [this.fingerTable[i].successor = v] *)
Definition setFingerSuccessor {W} (i : nat) (v : option Node)
  : M (ChordNode * W) unit :=
  let* this := getThis in
  let* entry := deref (ChordNode.fingerTable this !! i) in
  modify (set_fingerTable (<[i := mkFinger (start entry) v]> (ChordNode.fingerTable this))).

(** [this.successorTable[0] = this.fingerTable[0].successor] *)
Definition mirrorSuccessor {W} : M (ChordNode * W) unit :=
  let* this := getThis in
  let* entry := deref (ChordNode.fingerTable this !! 0%nat) in
  modify (set_successorTable (assign0 (successor entry) (ChordNode.successorTable this))).

(** *** The RPC handlers getPredecessor, setPredecessor, notify

    They do not await; [setPredecessor] and [notify] reply [{}]. *)

Definition getPredecessor (this : ChordNode) : Node := ChordNode.predecessor this.

Definition setPredecessor (this : ChordNode) (message : Node) : ChordNode :=
  set_predecessor message this.

Definition notify_test (this : ChordNode) (nPrime : Node) : bool :=
  ident_eqb (Node.id (ChordNode.predecessor this)) None
  || isInModuloRange (Node.id nPrime) (Node.id (ChordNode.predecessor this)) false
       (ChordNode.id this) false.

Definition notify (this : ChordNode) (message : Node) : ChordNode :=
  let nPrime := message in
  if notify_test this nPrime then set_predecessor nPrime this else this.

(** *** checkSuccessor *)

Definition checkSuccessor (this : ChordNode) : M World bool :=
  let* entry := deref (ChordNode.fingerTable this !! 0%nat) in
  let* s := deref (successor entry) in
  if ident_eqb (Node.id s) None then ret false
  else if ident_eqb (Node.id s) (ChordNode.id this) then ret true
  else
    try_catch
      (let* nSuccessor := getSuccessor this (successor entry) in
       let* n := deref nSuccessor in
       ret (negb (ident_eqb (Node.id n) None)))
      (ret false).

(** *** updateSuccessorTable *)

(** The loop that prunes dead successors from the head,
    [while (!successorSeemsOK && this.successorTable.length > 0)].  Every
    turn that does not end the loop shifts the table, so the table's length
    is enough [fuel]. *)
Fixpoint pruneHead (fuel : nat) (successorSeemsOK : bool)
  : M (ChordNode * World) bool :=
  let* this := getThis in
  if negb successorSeemsOK && (0 <? length (ChordNode.successorTable this))%nat then
    match fuel with
    | O => ret successorSeemsOK
    | S fuel' =>
        let* successorSeemsOK :=
          try_catch (liftW (checkSuccessor this)) (ret false) in
        (if successorSeemsOK then mirrorSuccessor
         else
           modify (fun n => set_successorTable (shift (ChordNode.successorTable n)) n);;
           let* this := getThis in
           setFingerSuccessor 0 (slot (ChordNode.successorTable this) 0));;
        pruneHead fuel' successorSeemsOK
    end
  else ret successorSeemsOK.

(** The test of one slot of the extension loop:
    [successorSuccessor && successorSuccessor.id !== null &&
     !isInModuloRange(successorSuccessor.id, this.id, true,
                      this.successorTable[i].id, true)] *)
Definition extend_test (this : ChordNode) (i : nat)
    (successorSuccessor : option Node) : M (ChordNode * World) bool :=
  match successorSuccessor with
  | None => ret false
  | Some ss =>
      if negb (ident_eqb (Node.id ss) None) then
        let* si := deref (slot (ChordNode.successorTable this) i) in
        ret (negb (isInModuloRange (Node.id ss) (ChordNode.id this) true
                     (Node.id si) true))
      else ret false
  end.

(** The body of the extension loop at slot [i]. *)
Definition extend_slot (i : nat) : M (ChordNode * World) unit :=
  let* this := getThis in
  let* successorSuccessor :=
    try_catch (liftW (getSuccessor this (slot (ChordNode.successorTable this) i)))
      (ret (Some (Node.mk None None None))) in
  let* qualifies := extend_test this i successorSuccessor in
  if qualifies then
    modify (fun n =>
      set_successorTable
        (splice (i + 1) 1 successorSuccessor (ChordNode.successorTable n)) n)
  else ret tt.

(** [for (let i = 0; i < this.successorTable.length && i <= HASH_BIT_LENGTH; i++)]:
    at most [HASH_BIT_LENGTH + 1] turns, which is the [fuel] it is run with.
    (The body's [successorSeemsOK = true] is overwritten before it is read.) *)
Fixpoint extend_loop (fuel : nat) (i : nat) : M (ChordNode * World) unit :=
  let* this := getThis in
  if (i <? length (ChordNode.successorTable this))%nat && (i <=? HASH_BIT_LENGTH)%nat then
    match fuel with
    | O => ret tt
    | S fuel' => extend_slot i;; extend_loop fuel' (S i)
    end
  else ret tt.

(** The loop that prunes from the tail,
    [while ((!successorSeemsOK || length > HASH_BIT_LENGTH) && i > 0)];
    [i] decreases by one each turn and the recursion is on [i]. *)
Fixpoint pruneTail (i : nat) (successorSeemsOK : bool)
  : M (ChordNode * World) bool :=
  match i with
  | O => ret successorSeemsOK
  | S i' =>
      let* this := getThis in
      if negb successorSeemsOK
         || (HASH_BIT_LENGTH <? length (ChordNode.successorTable this))%nat then
        let* successorSeemsOK :=
          try_catch
            (let* successorSuccessor :=
               liftW (getSuccessor this (slot (ChordNode.successorTable this) i)) in
             let* ss := deref successorSuccessor in
             ret (if negb (ident_eqb (Node.id ss) None) then true else successorSeemsOK))
            (ret false) in
        (if negb successorSeemsOK || (HASH_BIT_LENGTH <=? i)%nat then
           modify (fun n => set_successorTable (pop (ChordNode.successorTable n)) n)
         else ret tt);;
        pruneTail i' successorSeemsOK
      else ret successorSeemsOK
  end.

(** The method, phase by phase.  [successorSeemsOK] is not read between the
    phases: the last one resets it before its loop. *)

(** Check the successor; mirror it into slot 0, or prune the dead head. *)
Definition updateSuccessorTable_head : M (ChordNode * World) bool :=
  let* this := getThis in
  let* successorSeemsOK := try_catch (liftW (checkSuccessor this)) (ret false) in
  if successorSeemsOK then mirrorSuccessor;; ret successorSeemsOK
  else pruneHead (length (ChordNode.successorTable this)) successorSeemsOK.

(** [if (this.successorTable.length < 1) this.successorTable.push(self)] *)
Definition updateSuccessorTable_isolated : M (ChordNode * World) unit :=
  let* this := getThis in
  if (length (ChordNode.successorTable this) <? 1)%nat then
    modify (fun n =>
      set_successorTable
        (ChordNode.successorTable n ++ [Some (encapsulateSelf n)]) n)
  else ret tt.

(** "try to bulk up the table" *)
Definition updateSuccessorTable_extend : M (ChordNode * World) unit :=
  let* this := getThis in
  let* short :=
    if (length (ChordNode.successorTable this) <? HASH_BIT_LENGTH)%nat then
      let* entry := deref (ChordNode.fingerTable this !! 0%nat) in
      let* s := deref (successor entry) in
      ret (negb (ident_eqb (ChordNode.id this) (Node.id s)))
    else ret false in
  if short then extend_loop (S HASH_BIT_LENGTH) 0 else ret tt.

(** "prune from the bottom" *)
Definition updateSuccessorTable_tail : M (ChordNode * World) bool :=
  let* this := getThis in
  pruneTail (Nat.pred (length (ChordNode.successorTable this))) false.

Definition updateSuccessorTable : M (ChordNode * World) bool :=
  updateSuccessorTable_head;;
  updateSuccessorTable_isolated;;
  updateSuccessorTable_extend;;
  updateSuccessorTable_tail.

(** *** fixFingers

    [r] is the value of [Math.random()], a number in [0, 1). *)

Definition randomId (r : Q) : Z :=
  Qceiling (r * inject_Z (Z.of_nat HASH_BIT_LENGTH - 1)).

Definition fixFingers (r : Q) : M (ChordNode * World) unit :=
  let randomId := randomId r in
  try_catch
    (let* this := getThis in
     let* entry := deref (index_Z (ChordNode.fingerTable this) randomId) in
     let* nSuccessor :=
       liftW (findSuccessor this (start entry) (Some (encapsulateSelf this))) in
     let* n := deref nSuccessor in
     if negb (ident_eqb (Node.id n) None)
     then setFingerSuccessor (Z.to_nat randomId) nSuccessor
     else ret tt)
    (ret tt).

(** *** checkPredecessor *)

Definition iAmMyOwnPredecessor (this : ChordNode) : bool :=
  ident_eqb (ChordNode.id this) (Node.id (ChordNode.predecessor this)).

Definition checkPredecessor : M (ChordNode * World) bool :=
  let* this := getThis in
  if negb (ident_eqb (Node.id (ChordNode.predecessor this)) None)
     && negb (iAmMyOwnPredecessor this) then
    let* predecessorClient := connect (Some (ChordNode.predecessor this)) in
    try_catch
      (liftW (await (rpc_getPredecessor predecessorClient));; ret true)
      (modify (set_predecessor (Node.mk None None None));; ret false)
  else ret true.

(** *** stabilizeSelf *)

Definition stabilizeSelf : M (ChordNode * World) bool :=
  let* this := getThis in
  if ident_eqb (Node.id (ChordNode.predecessor this)) None then ret false
  else if negb (iAmMyOwnPredecessor this) then
    let* predecessorSeemsOK := try_catch checkPredecessor (ret false) in
    (if predecessorSeemsOK then
       let* this := getThis in
       setFingerSuccessor 0 (Some (ChordNode.predecessor this));;
       mirrorSuccessor
     else ret tt);;
    ret predecessorSeemsOK
  else ret true.

(** *** stabilize *)

Definition stabilize : M (ChordNode * World) bool :=
  let* connected :=
    try_catch
      (let* this := getThis in
       let* entry := deref (ChordNode.fingerTable this !! 0%nat) in
       (match successor entry with
        | None => process_exit (-9)
        | Some _ => ret tt
        end);;
       let* successorClient := connect (successor entry) in
       ret (Some successorClient))
      (ret None) in
  match connected with
  | None => ret false
  | Some successorClient =>
      let* this := getThis in
      let* entry := deref (ChordNode.fingerTable this !! 0%nat) in
      let* s := deref (successor entry) in
      let* x :=
        if ident_eqb (Node.id s) (ChordNode.id this) then
          stabilizeSelf;; ret (encapsulateSelf this)
        else
          try_catch (liftW (await (rpc_getPredecessor successorClient)))
            (ret (encapsulateSelf this)) in
      let* this := getThis in
      let* entry := deref (ChordNode.fingerTable this !! 0%nat) in
      let* s := deref (successor entry) in
      (if isInModuloRange (Node.id x) (ChordNode.id this) false (Node.id s) false
       then setFingerSuccessor 0 (Some x)
       else ret tt);;
      let* this := getThis in
      let* entry := deref (ChordNode.fingerTable this !! 0%nat) in
      let* s := deref (successor entry) in
      (if negb (ident_eqb (ChordNode.id this) (Node.id s)) then
         let* successorClient := connect (successor entry) in
         try_catch
           (liftW (await (rpc_notify successorClient (encapsulateSelf this))))
           (ret tt)
       else ret tt);;
      try_catch (updateSuccessorTable;; ret tt) (ret tt);;
      ret true
  end.

(** *** updateFingerTable (RPC handler) *)

Definition updateFingerTable (sNode : Node) (fingerIndex : nat)
  : M (ChordNode * World) unit :=
  let* this := getThis in
  let* entry := deref (ChordNode.fingerTable this !! fingerIndex) in
  let* s := deref (successor entry) in
  if isInModuloRange (Node.id sNode) (ChordNode.id this) true (Node.id s) false then
    setFingerSuccessor fingerIndex (Some sNode);;
    let* pClient := connect (Some (ChordNode.predecessor this)) in
    try_catch (liftW (await (rpc_updateFingerTable pClient sNode fingerIndex)))
      (ret tt)
  else ret tt.

(** *** The constructor

    [process.exit(-9)] when [host] or [port] is missing; the known peer
    defaults to the node's own address. *)

Definition truthy_string (a : option string) : bool :=
  match a with
  | Some x => negb (String.eqb x EmptyString)
  | None => false
  end.

Definition ChordNode_constructor (id : ident) (host : option string)
    (port : option Z) (knownId : ident) (knownHost : option string)
    (knownPort : option Z) : outcome ChordNode :=
  if negb (truthy_string host) || negb (truthy port) then Exit (-9)
  else
    let known :=
      if negb (truthy_string knownHost) || negb (truthy knownPort)
      then (host, port) else (knownHost, knownPort) in
    Ok (ChordNode.mk id host port knownId (fst known) (snd known)
          [mkFinger None (Some NULL_NODE)] [Some NULL_NODE] NULL_NODE).

(** *** initFingerTable *)

(** [for (let i = 0; i < HASH_BIT_LENGTH - 1; i++)]; [k] counts the turns
    left. *)
Fixpoint initFingerTable_loop (k : nat) (i : nat) (nPrime : Node)
  : M (ChordNode * World) unit :=
  match k with
  | O => ret tt
  | S k' =>
      let* this := getThis in
      let* next := deref (ChordNode.fingerTable this !! (i + 1)%nat) in
      let* entry := deref (ChordNode.fingerTable this !! i) in
      let* s := deref (successor entry) in
      (if isInModuloRange (start next) (ChordNode.id this) true (Node.id s) false
       then setFingerSuccessor (i + 1) (successor entry)
       else
         try_catch
           (let* n := liftW (findSuccessor this (start next) (Some nPrime)) in
            setFingerSuccessor (i + 1) n)
           (setFingerSuccessor (i + 1) (Some NULL_NODE)));;
      initFingerTable_loop k' (S i) nPrime
  end.

Definition initFingerTable (nPrime : Node) : M (ChordNode * World) unit :=
  let* nPrimeSuccessor :=
    try_catch
      (let* this := getThis in
       let* entry := deref (ChordNode.fingerTable this !! 0%nat) in
       liftW (findSuccessor this (start entry) (Some nPrime)))
      (ret (Some NULL_NODE)) in
  setFingerSuccessor 0 nPrimeSuccessor;;
  let* this := getThis in
  let* entry := deref (ChordNode.fingerTable this !! 0%nat) in
  let* successorClient := connect (successor entry) in
  try_catch
    (let* p := liftW (await (rpc_getPredecessor successorClient)) in
     modify (set_predecessor p))
    (modify (set_predecessor NULL_NODE));;
  try_catch
    (liftW (await (rpc_setPredecessor successorClient (encapsulateSelf this))))
    (ret tt);;
  initFingerTable_loop (HASH_BIT_LENGTH - 1) 0 nPrime.

(** *** updateOthers *)

(** [for (let i = 0; i < HASH_BIT_LENGTH; i++)]; [k] counts the turns left. *)
Fixpoint updateOthers_loop (k : nat) (i : nat) : M (ChordNode * World) unit :=
  match k with
  | O => ret tt
  | S k' =>
      let* this := getThis in
      let pNodeSearchID :=
        Z.rem (toNumber (ChordNode.id this) - 2 ^ Z.of_nat i
               + 2 ^ Z.of_nat HASH_BIT_LENGTH)
          (2 ^ Z.of_nat HASH_BIT_LENGTH) in
      let* pNode :=
        try_catch (liftW (findPredecessor this (Some pNodeSearchID)))
          (ret NULL_NODE) in
      (if negb (ident_eqb (ChordNode.id this) (Node.id pNode)) then
         let* pNodeClient := connect (Some pNode) in
         try_catch
           (liftW (await (rpc_updateFingerTable pNodeClient (encapsulateSelf this) i)))
           (ret tt)
       else ret tt);;
      updateOthers_loop k' (S i)
  end.

Definition updateOthers : M (ChordNode * World) unit :=
  updateOthers_loop HASH_BIT_LENGTH 0.

(** *** migrateKeysAfterJoin: the placeholder throws. *)
Definition migrateKeysAfterJoin : M (ChordNode * World) unit := throw.

(** *** joinCluster *)

(** The finger entries pushed by
    [for (let i = 0; i < HASH_BIT_LENGTH; i++) this.fingerTable.push(...)]. *)
Definition initialFingers (this : ChordNode) : list FingerTableEntry :=
  map (fun i : nat =>
         mkFinger
           (Some (Z.rem (toNumber (ChordNode.id this) + 2 ^ Z.of_nat i)
                    (2 ^ Z.of_nat HASH_BIT_LENGTH)))
           (Some (encapsulateSelf this)))
      (seq 0 HASH_BIT_LENGTH).

(** The test that chooses between joining through the known peer and
    starting as the first node: [this.knownId && !(this.id == this.knownId)]. *)
Definition joinsKnownPeer (this : ChordNode) : bool :=
  truthy (ChordNode.knownId this)
  && negb (ident_eqb (ChordNode.id this) (ChordNode.knownId this)).

(** The three [setInterval] calls at the end only schedule the periodic
    tasks and are not modelled. *)
Definition joinCluster : M (ChordNode * World) unit :=
  let* this := getThis in
  (if negb (truthy (ChordNode.id this)) then
     modify (set_id (computeHostPortHash (ChordNode.host this) (ChordNode.port this)))
   else ret tt);;
  let* this := getThis in
  (if negb (truthy (ChordNode.knownId this)) then
     modify (set_knownId
               (computeHostPortHash (ChordNode.knownHost this) (ChordNode.knownPort this)))
   else ret tt);;
  let* this := getThis in
  (if (bool_decide (ChordNode.host this <> ChordNode.knownHost this)
       || bool_decide (ChordNode.port this <> ChordNode.knownPort this))
      && ident_eqb (ChordNode.id this) (ChordNode.knownId this)
   then process_exit (-9)
   else ret tt);;
  modify (fun n => set_fingerTable (pop (ChordNode.fingerTable n)) n);;
  modify (fun n => set_fingerTable (ChordNode.fingerTable n ++ initialFingers n) n);;
  let* this := getThis in
  (if joinsKnownPeer this then
     initFingerTable
       (Node.mk (ChordNode.knownId this) (ChordNode.knownHost this)
          (ChordNode.knownPort this));;
     updateOthers
   else modify (fun n => set_predecessor (encapsulateSelf n) n));;
  try_catch migrateKeysAfterJoin (ret tt);;
  mirrorSuccessor.

End Chord.

(** ** Methods as tasks

    An [async] method runs on the single thread of the node until it awaits
    a remote call; the rest of it runs when the reply arrives.  In between,
    the other callbacks of the node run: the timers that [joinCluster] sets
    start a run of [stabilize] every second, whether or not the earlier runs
    have returned.  A task is a method cut at its remote calls: it reads and
    updates the node, and at a remote call it waits for the reply.  The
    methods are embedded a second time in this form, with every read of
    [this] at the place the source has it, before or after an [await].

    An [await] of a local result (a promise that is already resolved) is not
    a cut: it lets only continuations that are ready run, neither a timer
    nor a reply.  The schedules of this model, one reply per turn of the
    event loop, are therefore among those of the program; replies that
    arrive in one turn could interleave two tasks more finely. *)

Module Async.

Section Tasks.

Context {World : Type}.

Inductive task (A : Type) : Type :=
| Return (a : A)
| Raise
| Halt (code : Z)
| Cut
| Read (k : ChordNode -> task A)
| Update (f : ChordNode -> ChordNode) (k : task A)
| Call {R : Type} (rpc : World -> reply R * World) (k : reply R -> task A).
Arguments Return {A} a.
Arguments Raise {A}.
Arguments Halt {A} code.
Arguments Cut {A}.
Arguments Read {A} k.
Arguments Update {A} f k.
Arguments Call {A R} rpc k.

Definition ret {A} (a : A) : task A := Return a.

Fixpoint bind {A B} (c : task A) (k : A -> task B) : task B :=
  match c with
  | Return a => k a
  | Raise => Raise
  | Halt code => Halt code
  | Cut => Cut
  | Read f => Read (fun n => bind (f n) k)
  | Update f c' => Update f (bind c' k)
  | Call rpc f => Call rpc (fun r => bind (f r) k)
  end.

(** [try { c } catch (err) { h }]: neither [process.exit] nor the end of the
    model's fuel is caught. *)
Fixpoint try_catch {A} (c h : task A) : task A :=
  match c with
  | Return a => Return a
  | Raise => h
  | Halt code => Halt code
  | Cut => Cut
  | Read f => Read (fun n => try_catch (f n) h)
  | Update f c' => Update f (try_catch c' h)
  | Call rpc f => Call rpc (fun r => try_catch (f r) h)
  end.

Definition deref {A} (v : option A) : task A :=
  match v with
  | Some a => Return a
  | None => Raise
  end.

Definition connect (peer : option Node) : task Node := deref peer.

(** Awaiting a remote call: the task waits; a rejected promise throws. *)
Definition await {R} (rpc : World -> reply R * World) : task R :=
  Call rpc (fun r => match r with Reply a => Return a | Rejected => Raise end).

Definition getThis : task ChordNode := Read Return.

Definition modify (f : ChordNode -> ChordNode) : task unit := Update f (Return tt).

(** *** A task that runs alone

    Nothing else runs while the task waits: every call is answered at once.
    [None] when the model runs out of fuel ([Cut]). *)
Fixpoint run {A} (t : task A) (s : ChordNode * World)
  : option (outcome A * (ChordNode * World)) :=
  match t with
  | Return a => Some (Ok a, s)
  | Raise => Some (Throw, s)
  | Halt code => Some (Exit code, s)
  | Cut => None
  | Read k => run (k (fst s)) s
  | Update f k => run k (f (fst s), snd s)
  | Call rpc k => let (r, w') := rpc (snd s) in run (k r) (fst s, w')
  end.

(** *** Tasks that overlap

    [advance] runs a task up to its next remote call, or to its end. *)
Fixpoint advance {A} (t : task A) (n : ChordNode) : task A * ChordNode :=
  match t with
  | Read k => advance (k n) n
  | Update f k => advance k (f n)
  | _ => (t, n)
  end.

(** The reply that a waiting task awaits arrives: the task runs on, up to its
    next remote call or to its end.  The transition of the network that the
    call stands for is taken at this moment. *)
Definition resume {A} (t : task A) (s : ChordNode * World)
  : task A * (ChordNode * World) :=
  match t with
  | Call rpc k =>
      let (r, w') := rpc (snd s) in
      let (t', n') := advance (k r) (fst s) in
      (t', (n', w'))
  | _ => (t, s)
  end.

(** What happens on the node's thread: a callback starts a new task (a
    timer fires), or the reply that task [i] awaits arrives. *)
Inductive event (A : Type) : Type :=
| Start (t : task A)
| Resume (i : nat).
Arguments Start {A} t.
Arguments Resume {A} i.

(** The tasks are kept in the order they started; a task that has ended
    stays in the pool as [Return], [Raise] or [Halt]. *)
Fixpoint interleave {A} (events : list (event A)) (pool : list (task A))
    (s : ChordNode * World) : list (task A) * (ChordNode * World) :=
  match events with
  | [] => (pool, s)
  | Start t :: rest =>
      let (t', n') := advance t (fst s) in
      interleave rest (pool ++ [t']) (n', snd s)
  | Resume i :: rest =>
      match pool !! i with
      | Some t =>
          let (t', s') := resume t s in
          interleave rest (<[i := t']> pool) s'
      | None => interleave rest pool s
      end
  end.

(** The outcome of a task that has ended. *)
Definition ended {A} (t : task A) : option (outcome A) :=
  match t with
  | Return a => Some (Ok a)
  | Raise => Some Throw
  | Halt code => Some (Exit code)
  | _ => None
  end.

End Tasks.

Arguments Return {World A} a.
Arguments Raise {World A}.
Arguments Halt {World A} code.
Arguments Cut {World A}.
Arguments Read {World A} k.
Arguments Update {World A} f k.
Arguments Call {World A R} rpc k.
Arguments Start {World A} t.
Arguments Resume {World A} i.

Declare Scope task_scope.
Delimit Scope task_scope with task.
Notation "'let*' x ':=' c 'in' k" := (bind c (fun x => k))
  (at level 10, x pattern, c at level 100, k at level 200) : task_scope.
Notation "c ';;' k" := (bind c (fun _ => k))
  (at level 100, k at level 200, right associativity) : task_scope.

Section Methods.

Context {World : Type} `{!Network World}.
Variable HASH_BIT_LENGTH : nat.
Variable isInModuloRange : ident -> ident -> bool -> ident -> bool -> bool.

Local Open Scope task_scope.

(** [this.fingerTable[i].successor = v] *)
Definition setFingerSuccessor (i : nat) (v : option Node) : task (World:=World) unit :=
  let* this := getThis in
  let* entry := deref (ChordNode.fingerTable this !! i) in
  modify (set_fingerTable (<[i := mkFinger (start entry) v]> (ChordNode.fingerTable this))).

(** [this.successorTable[0] = this.fingerTable[0].successor] *)
Definition mirrorSuccessor : task (World:=World) unit :=
  let* this := getThis in
  let* entry := deref (ChordNode.fingerTable this !! 0%nat) in
  modify (set_successorTable (assign0 (successor entry) (ChordNode.successorTable this))).

(** *** getSuccessor: the node is read before the call. *)
Definition getSuccessor (nodeQueried : option Node) : task (option Node) :=
  let* this := getThis in
  let* nq := deref nodeQueried in
  if ident_eqb (ChordNode.id this) (Node.id nq) then
    let* entry := deref (ChordNode.fingerTable this !! 0%nat) in
    ret (successor entry)
  else
    let* client := connect (Some nq) in
    try_catch
      (let* n := await (rpc_getSuccessorRemoteHelper client nq) in ret (Some n))
      (ret (Some (Node.mk None None None))).

(** *** checkSuccessor: the node is read before the call. *)
Definition checkSuccessor : task bool :=
  let* this := getThis in
  let* entry := deref (ChordNode.fingerTable this !! 0%nat) in
  let* s := deref (successor entry) in
  if ident_eqb (Node.id s) None then ret false
  else if ident_eqb (Node.id s) (ChordNode.id this) then ret true
  else
    try_catch
      (let* nSuccessor := getSuccessor (successor entry) in
       let* n := deref nSuccessor in
       ret (negb (ident_eqb (Node.id n) None)))
      (ret false).

(** *** updateSuccessorTable

    The loop that prunes dead successors from the head re-reads the table at
    every turn.  Alone, a run makes at most as many turns as the table has
    entries; while it waits, another task may add entries, and the turns
    beyond [fuel] are not modelled ([Cut]). *)
Fixpoint pruneHead (fuel : nat) (successorSeemsOK : bool) : task bool :=
  let* this := getThis in
  if negb successorSeemsOK && (0 <? length (ChordNode.successorTable this))%nat then
    match fuel with
    | O => Cut
    | S fuel' =>
        let* successorSeemsOK := try_catch checkSuccessor (ret false) in
        (if successorSeemsOK then mirrorSuccessor
         else
           modify (fun n => set_successorTable (shift (ChordNode.successorTable n)) n);;
           let* this := getThis in
           setFingerSuccessor 0 (slot (ChordNode.successorTable this) 0));;
        pruneHead fuel' successorSeemsOK
    end
  else ret successorSeemsOK.

(** The test of one slot of the extension loop, after the reply:
    [this.id] and [this.successorTable[i].id] are read then. *)
Definition extend_test (i : nat) (successorSuccessor : option Node)
  : task (World:=World) bool :=
  match successorSuccessor with
  | None => ret false
  | Some ss =>
      if negb (ident_eqb (Node.id ss) None) then
        let* this := getThis in
        let* si := deref (slot (ChordNode.successorTable this) i) in
        ret (negb (isInModuloRange (Node.id ss) (ChordNode.id this) true
                     (Node.id si) true))
      else ret false
  end.

Definition extend_slot (i : nat) : task unit :=
  let* this := getThis in
  let* successorSuccessor :=
    try_catch (getSuccessor (slot (ChordNode.successorTable this) i))
      (ret (Some (Node.mk None None None))) in
  let* qualifies := extend_test i successorSuccessor in
  if qualifies then
    modify (fun n =>
      set_successorTable
        (splice (i + 1) 1 successorSuccessor (ChordNode.successorTable n)) n)
  else ret tt.

(** At most [HASH_BIT_LENGTH + 1] turns, whatever else runs: the guard holds
    only while [i <= HASH_BIT_LENGTH]. *)
Fixpoint extend_loop (fuel : nat) (i : nat) : task unit :=
  let* this := getThis in
  if (i <? length (ChordNode.successorTable this))%nat && (i <=? HASH_BIT_LENGTH)%nat then
    match fuel with
    | O => Cut
    | S fuel' => extend_slot i;; extend_loop fuel' (S i)
    end
  else ret tt.

(** The loop that prunes from the tail: [i] is a local variable, set once
    from the length of the table and decreased by one each turn; the length
    in the guard and the slot [i] are read at every turn, and the table is
    popped after the reply. *)
Fixpoint pruneTail (i : nat) (successorSeemsOK : bool) : task bool :=
  match i with
  | O => ret successorSeemsOK
  | S i' =>
      let* this := getThis in
      if negb successorSeemsOK
         || (HASH_BIT_LENGTH <? length (ChordNode.successorTable this))%nat then
        let* successorSeemsOK :=
          try_catch
            (let* successorSuccessor :=
               getSuccessor (slot (ChordNode.successorTable this) i) in
             let* ss := deref successorSuccessor in
             ret (if negb (ident_eqb (Node.id ss) None) then true else successorSeemsOK))
            (ret false) in
        (if negb successorSeemsOK || (HASH_BIT_LENGTH <=? i)%nat then
           modify (fun n => set_successorTable (pop (ChordNode.successorTable n)) n)
         else ret tt);;
        pruneTail i' successorSeemsOK
      else ret successorSeemsOK
  end.

Definition updateSuccessorTable_head : task bool :=
  let* successorSeemsOK := try_catch checkSuccessor (ret false) in
  if successorSeemsOK then mirrorSuccessor;; ret successorSeemsOK
  else
    let* this := getThis in
    pruneHead (length (ChordNode.successorTable this)) successorSeemsOK.

Definition updateSuccessorTable_isolated : task (World:=World) unit :=
  let* this := getThis in
  if (length (ChordNode.successorTable this) <? 1)%nat then
    modify (fun n =>
      set_successorTable
        (ChordNode.successorTable n ++ [Some (encapsulateSelf n)]) n)
  else ret tt.

Definition updateSuccessorTable_extend : task unit :=
  let* this := getThis in
  let* short :=
    if (length (ChordNode.successorTable this) <? HASH_BIT_LENGTH)%nat then
      let* entry := deref (ChordNode.fingerTable this !! 0%nat) in
      let* s := deref (successor entry) in
      ret (negb (ident_eqb (ChordNode.id this) (Node.id s)))
    else ret false in
  if short then extend_loop (S HASH_BIT_LENGTH) 0 else ret tt.

Definition updateSuccessorTable_tail : task bool :=
  let* this := getThis in
  pruneTail (Nat.pred (length (ChordNode.successorTable this))) false.

Definition updateSuccessorTable : task bool :=
  updateSuccessorTable_head;;
  updateSuccessorTable_isolated;;
  updateSuccessorTable_extend;;
  updateSuccessorTable_tail.

(** *** checkPredecessor: in the [catch], [handleGRPCErrors] is given the
    host and the port of the predecessor, which is always an object. *)
Definition checkPredecessor : task bool :=
  let* this := getThis in
  if negb (ident_eqb (Node.id (ChordNode.predecessor this)) None)
     && negb (iAmMyOwnPredecessor this) then
    let* predecessorClient := connect (Some (ChordNode.predecessor this)) in
    try_catch
      (await (rpc_getPredecessor predecessorClient);; ret true)
      (modify (set_predecessor (Node.mk None None None));; ret false)
  else ret true.

(** *** stabilizeSelf *)
Definition stabilizeSelf : task bool :=
  let* this := getThis in
  if ident_eqb (Node.id (ChordNode.predecessor this)) None then ret false
  else if negb (iAmMyOwnPredecessor this) then
    let* predecessorSeemsOK := try_catch checkPredecessor (ret false) in
    (if predecessorSeemsOK then
       let* this := getThis in
       setFingerSuccessor 0 (Some (ChordNode.predecessor this));;
       mirrorSuccessor
     else ret tt);;
    ret predecessorSeemsOK
  else ret true.

(** [handleGRPCErrors(..., this.fingerTable[0].successor.host,
    this.fingerTable[0].successor.port, err)] in a [catch] of [stabilize]:
    the arguments are read after the call was rejected, and reading them
    throws when the successor is [undefined] by then. *)
Definition successorAddress : task (World:=World) unit :=
  let* this := getThis in
  let* entry := deref (ChordNode.fingerTable this !! 0%nat) in
  let* s := deref (successor entry) in
  ret tt.

(** *** stabilize: [this.fingerTable[0].successor] is read again after each
    [await]. *)
Definition stabilize : task bool :=
  let* connected :=
    try_catch
      (let* this := getThis in
       let* entry := deref (ChordNode.fingerTable this !! 0%nat) in
       (match successor entry with
        | None => Halt (-9)
        | Some _ => ret tt
        end);;
       let* successorClient := connect (successor entry) in
       ret (Some successorClient))
      (ret None) in
  match connected with
  | None => ret false
  | Some successorClient =>
      let* this := getThis in
      let* entry := deref (ChordNode.fingerTable this !! 0%nat) in
      let* s := deref (successor entry) in
      let* x :=
        if ident_eqb (Node.id s) (ChordNode.id this) then
          stabilizeSelf;;
          let* this := getThis in
          ret (encapsulateSelf this)
        else
          try_catch (await (rpc_getPredecessor successorClient))
            (let* this := getThis in
             successorAddress;;
             ret (encapsulateSelf this)) in
      let* this := getThis in
      let* entry := deref (ChordNode.fingerTable this !! 0%nat) in
      let* s := deref (successor entry) in
      (if isInModuloRange (Node.id x) (ChordNode.id this) false (Node.id s) false
       then setFingerSuccessor 0 (Some x)
       else ret tt);;
      let* this := getThis in
      let* entry := deref (ChordNode.fingerTable this !! 0%nat) in
      let* s := deref (successor entry) in
      (if negb (ident_eqb (ChordNode.id this) (Node.id s)) then
         let* successorClient := connect (successor entry) in
         try_catch
           (await (rpc_notify successorClient (encapsulateSelf this)))
           successorAddress
       else ret tt);;
      try_catch (updateSuccessorTable;; ret tt) (ret tt);;
      ret true
  end.

End Methods.

End Async.

(** ** The modular range predicate *)

(** Modelled from the spec: [isInModuloRange] of utils, which is not among
    the sources.  "Tests whether value lies on the clockwise arc from low to
    high on a 2^m ring.  When low == high, the arc is the entire ring (returns
    true for any value if at least one endpoint is inclusive, else false).
    When low < high it is a standard interval; when low > high the arc wraps
    through 0.  Endpoint inclusivity is orthogonal on each side." *)
Definition inModuloRange (value low : Z) (lowInclusive : bool) (high : Z)
    (highInclusive : bool) : bool :=
  if low =? high then lowInclusive || highInclusive
  else
    let above := if lowInclusive then low <=? value else low <? value in
    let below := if highInclusive then value <=? high else value <? high in
    if low <? high then above && below else above || below.

(** The spec defines the predicate on identifiers of the ring only; a [null]
    operand is read as [0] here, as JavaScript's comparisons do. *)
Definition isInModuloRange_spec (value low : ident) (lowInclusive : bool)
    (high : ident) (highInclusive : bool) : bool :=
  inModuloRange (toNumber value) (toNumber low) lowInclusive (toNumber high)
    highInclusive.

(** ** A scripted network, for running the methods on concrete rings *)

Inductive request : Type :=
| FindSuccessorRemoteHelper (peer : Node) (id : ident) (node : Node)
| GetSuccessorRemoteHelper (peer : Node) (node : Node)
| ClosestPrecedingFingerRemoteHelper (peer : Node) (id : ident) (node : Node)
| GetPredecessor (peer : Node)
| SetPredecessor (peer : Node) (node : Node)
| UpdateFingerTable (peer : Node) (node : Node) (index : nat)
| Notify (peer : Node) (node : Node).

(** The world is the log of the requests sent so far (latest first); a
    request is answered by [answer], and the handlers that reply [{}] succeed
    when [answer] replies at all. *)
Definition scripted_call (answer : request -> reply Node) (q : request)
  : list request -> reply Node * list request :=
  fun log => (answer q, q :: log).

Definition scripted_ack (answer : request -> reply Node) (q : request)
  : list request -> reply unit * list request :=
  fun log =>
    (match answer q with Reply _ => Reply tt | Rejected => Rejected end, q :: log).

Definition scripted (answer : request -> reply Node) : Network (list request) := {|
  rpc_findSuccessorRemoteHelper peer id node :=
    scripted_call answer (FindSuccessorRemoteHelper peer id node);
  rpc_getSuccessorRemoteHelper peer node :=
    scripted_call answer (GetSuccessorRemoteHelper peer node);
  rpc_closestPrecedingFingerRemoteHelper peer id node :=
    scripted_call answer (ClosestPrecedingFingerRemoteHelper peer id node);
  rpc_getPredecessor peer := scripted_call answer (GetPredecessor peer);
  rpc_setPredecessor peer node := scripted_ack answer (SetPredecessor peer node);
  rpc_updateFingerTable peer node index :=
    scripted_ack answer (UpdateFingerTable peer node index);
  rpc_notify peer node := scripted_ack answer (Notify peer node)
|}.

(** No peer answers. *)
Definition unreachable : request -> reply Node := fun _ => Rejected.

(** ** Concrete nodes (m = 3, identifiers in [0, 8)) *)

Definition peer (id : Z) : Node :=
  Node.mk (Some id) (Some "localhost"%string) (Some (8440 + id)).

(** A joined node [id] whose three fingers point to [s0], [s1], [s2]. *)
Definition joined (id : Z) (s0 s1 s2 : option Node) (successors : list (option Node))
    (predecessor : Node) : ChordNode :=
  ChordNode.mk (Some id) (Some "localhost"%string) (Some (8440 + id))
    (Some id) (Some "localhost"%string) (Some (8440 + id))
    [mkFinger (Some ((id + 1) mod 8)) s0;
     mkFinger (Some ((id + 2) mod 8)) s1;
     mkFinger (Some ((id + 4) mod 8)) s2]
    successors predecessor.

(** ** A cluster of nodes as the network

    The world is the list of the nodes' states; a request is served by
    running the handler of the node at the peer's address, whose own remote
    calls are served by the cluster one level down ([depth] bounds the
    nesting of calls; beyond it a call is rejected). *)

Definition at_address (peer : Node) (n : ChordNode) : bool :=
  bool_decide (ChordNode.host n = Node.host peer)
  && bool_decide (ChordNode.port n = Node.port peer).

Definition node_at (peer : Node) (w : list ChordNode) : option ChordNode :=
  List.find (at_address peer) w.

Definition put_node (peer : Node) (n : ChordNode) (w : list ChordNode)
  : list ChordNode :=
  map (fun old => if at_address peer old then n else old) w.

(** A handler that replies with a node and leaves its own node as it was. *)
Definition serve_lookup (handler : ChordNode -> M (list ChordNode) (option Node))
    (peer : Node) : list ChordNode -> reply Node * list ChordNode :=
  fun w =>
    match node_at peer w with
    | None => (Rejected, w)
    | Some target =>
        match handler target w with
        | (Ok (Some n), w') => (Reply n, w')
        | (_, w') => (Rejected, w')
        end
    end.

(** A handler that updates its node and replies [{}]. *)
Definition serve_update (handler : M (ChordNode * list ChordNode) unit)
    (peer : Node) : list ChordNode -> reply unit * list ChordNode :=
  fun w =>
    match node_at peer w with
    | None => (Rejected, w)
    | Some target =>
        match handler (target, w) with
        | (Ok _, (target', w')) => (Reply tt, put_node peer target' w')
        | (_, (target', w')) => (Rejected, put_node peer target' w')
        end
    end.

Fixpoint cluster (HASH_BIT_LENGTH : nat)
    (isInModuloRange : ident -> ident -> bool -> ident -> bool -> bool)
    (depth : nat) : Network (list ChordNode) :=
  match depth with
  | O => {|
      rpc_findSuccessorRemoteHelper _ _ _ := fun w => (Rejected, w);
      rpc_getSuccessorRemoteHelper _ _ := fun w => (Rejected, w);
      rpc_closestPrecedingFingerRemoteHelper _ _ _ := fun w => (Rejected, w);
      rpc_getPredecessor _ := fun w => (Rejected, w);
      rpc_setPredecessor _ _ := fun w => (Rejected, w);
      rpc_updateFingerTable _ _ _ := fun w => (Rejected, w);
      rpc_notify _ _ := fun w => (Rejected, w)
    |}
  | S depth' =>
      let below := cluster HASH_BIT_LENGTH isInModuloRange depth' in
      {|
        rpc_findSuccessorRemoteHelper peer id node :=
          serve_lookup
            (fun target =>
               findSuccessorRemoteHelper (Network0 := below) HASH_BIT_LENGTH
                 isInModuloRange target id (Some node)) peer;
        rpc_getSuccessorRemoteHelper peer _ :=
          serve_lookup
            (fun target => getSuccessorRemoteHelper (World := list ChordNode) target)
            peer;
        rpc_closestPrecedingFingerRemoteHelper peer id node :=
          serve_lookup
            (fun target =>
               let* n := closestPrecedingFingerRemoteHelper (Network0 := below)
                           HASH_BIT_LENGTH isInModuloRange target id node in
               ret (Some n)) peer;
        rpc_getPredecessor peer :=
          serve_lookup (fun target => ret (Some (getPredecessor target))) peer;
        rpc_setPredecessor peer node :=
          serve_update (modify (fun target => setPredecessor target node)) peer;
        rpc_updateFingerTable peer node index :=
          serve_update
            (updateFingerTable (Network0 := below) isInModuloRange node index) peer;
        rpc_notify peer node :=
          serve_update (modify (fun target => notify isInModuloRange target node)) peer
      |}
  end.

(** The ring {1, 3, 5} of the spec, converged. *)
Definition ring_135 : list ChordNode :=
  [joined 1 (Some (peer 3)) (Some (peer 3)) (Some (peer 5))
     [Some (peer 3); Some (peer 5)] (peer 5);
   joined 3 (Some (peer 5)) (Some (peer 5)) (Some (peer 1))
     [Some (peer 5); Some (peer 1)] (peer 1);
   joined 5 (Some (peer 1)) (Some (peer 1)) (Some (peer 1))
     [Some (peer 1); Some (peer 3)] (peer 3)].

(** The ring {2, 6} of the spec, converged. *)
Definition ring_26 : list ChordNode :=
  [joined 2 (Some (peer 6)) (Some (peer 6)) (Some (peer 6)) [Some (peer 6)] (peer 6);
   joined 6 (Some (peer 2)) (Some (peer 2)) (Some (peer 2)) [Some (peer 2)] (peer 2)].

(** The successor of key [k], asked of the node at position [from] of the
    ring [w]. *)
Definition lookup_in (w : list ChordNode) (from : nat) (k : Z)
  : option (outcome (option Node)) :=
  match w !! from with
  | Some this =>
      Some (fst (findSuccessor (Network0 := cluster 3 isInModuloRange_spec 8) 3
                   isInModuloRange_spec this (Some k) (Some (encapsulateSelf this)) w))
  | None => None
  end.

(** ** Predicates used in the statements *)

(** A computation that never ends the process. *)
Definition noexit {St A} (c : M St A) : Prop :=
  forall s code, fst (c s) <> Exit code.

(** A computation that always returns normally. *)
Definition returns {St A} (c : M St A) : Prop :=
  forall s, exists a s', c s = (Ok a, s').

(** A computation on the node and the network that leaves the node as it
    was, whatever its outcome. *)
Definition readonly {W A} (c : M (ChordNode * W) A) : Prop :=
  forall s, fst (snd (c s)) = fst s.

(** A computation that keeps a property of the state, whatever its outcome. *)
Definition keeps {St A} (P : St -> Prop) (c : M St A) : Prop :=
  forall s, P s -> P (snd (c s)).

(** The successor table is not empty. *)
Definition nonempty_successorTable {W} (s : ChordNode * W) : Prop :=
  (1 <= length (ChordNode.successorTable (fst s)))%nat.

(** The finger table is not empty. *)
Definition has_fingers {W} (s : ChordNode * W) : Prop :=
  ChordNode.fingerTable (fst s) <> [].

Section Reachable.

Context {World : Type} `{!Network World}.
Variable HASH_BIT_LENGTH : nat.
Variable isInModuloRange : ident -> ident -> bool -> ident -> bool -> bool.
Variable computeHostPortHash : option string -> option Z -> ident.

(** The states of a node and its network: the node is constructed, and then
    any method or handler of the class runs (to its end, whatever its
    outcome), or the network moves on. *)
Inductive reachable : ChordNode * World -> Prop :=
| reach_constructor id host port knownId knownHost knownPort this w :
    ChordNode_constructor id host port knownId knownHost knownPort = Ok this ->
    reachable (this, w)
| reach_network this w w' :
    reachable (this, w) -> reachable (this, w')
| reach_joinCluster s :
    reachable s ->
    reachable (snd (joinCluster HASH_BIT_LENGTH isInModuloRange computeHostPortHash s))
| reach_stabilize s :
    reachable s -> reachable (snd (stabilize HASH_BIT_LENGTH isInModuloRange s))
| reach_fixFingers r s :
    reachable s -> reachable (snd (fixFingers HASH_BIT_LENGTH isInModuloRange r s))
| reach_checkPredecessor s :
    reachable s -> reachable (snd (checkPredecessor s))
| reach_updateFingerTable sNode fingerIndex s :
    reachable s ->
    reachable (snd (updateFingerTable isInModuloRange sNode fingerIndex s))
| reach_setPredecessor message this w :
    reachable (this, w) -> reachable (setPredecessor this message, w)
| reach_notify message this w :
    reachable (this, w) -> reachable (notify isInModuloRange this message, w).

End Reachable.

(** Finger [i] of [this] has the successor [r]. *)
Definition finger_successor (this : ChordNode) (i : nat) (r : Node) : Prop :=
  exists entry, ChordNode.fingerTable this !! i = Some entry /\ successor entry = Some r.

(** The successor of finger [i] lies strictly inside the arc
    [(nodeQueried.id, id)]. *)
Definition finger_precedes
    (isInModuloRange : ident -> ident -> bool -> ident -> bool -> bool)
    (this : ChordNode) (id : ident) (nodeQueried : Node) (i : nat) : Prop :=
  exists r, finger_successor this i r /\
    isInModuloRange (Node.id r) (Node.id nodeQueried) false id false = true.

Section Failures.

Context {World : Type} `{!Network World}.
Variable HASH_BIT_LENGTH : nat.
Variable isInModuloRange : ident -> ident -> bool -> ident -> bool -> bool.

(** The test of [findSuccessor] for a local lookup:
    [this.id != undefined && this.id == nodeQueried.id]. *)
Definition findSuccessor_local (this : ChordNode) (nodeQueried : Node) : bool :=
  bool_decide (is_Some (ChordNode.id this))
  && ident_eqb (ChordNode.id this) (Node.id nodeQueried).

(** One of the calls that [findSuccessor] makes fails: the remote
    [findSuccessorRemoteHelper], the local [findPredecessor], or
    [getSuccessor] (by throwing, or by its own remote call being rejected). *)
Inductive underlying_call_fails (this : ChordNode) (id : ident)
    (nodeQueried : Node) (w : World) : Prop :=
| fails_findSuccessorRemoteHelper :
    findSuccessor_local this nodeQueried = false ->
    fst (rpc_findSuccessorRemoteHelper nodeQueried id nodeQueried w) = Rejected ->
    underlying_call_fails this id nodeQueried w
| fails_findPredecessor :
    findSuccessor_local this nodeQueried = true ->
    fst (findPredecessor HASH_BIT_LENGTH isInModuloRange this id w) = Throw ->
    underlying_call_fails this id nodeQueried w
| fails_getSuccessor (nPrime : Node) (w1 : World) :
    findSuccessor_local this nodeQueried = true ->
    try_catch (findPredecessor HASH_BIT_LENGTH isInModuloRange this id)
      (ret NULL_NODE) w = (Ok nPrime, w1) ->
    fst (getSuccessor this (Some nPrime) w1) = Throw ->
    underlying_call_fails this id nodeQueried w
| fails_getSuccessorRemoteHelper (nPrime : Node) (w1 : World) :
    findSuccessor_local this nodeQueried = true ->
    try_catch (findPredecessor HASH_BIT_LENGTH isInModuloRange this id)
      (ret NULL_NODE) w = (Ok nPrime, w1) ->
    ident_eqb (ChordNode.id this) (Node.id nPrime) = false ->
    fst (rpc_getSuccessorRemoteHelper nPrime nPrime w1) = Rejected ->
    underlying_call_fails this id nodeQueried w.

End Failures.

(** A node whose finger 0 lost its successor: [updateSuccessorTable] found
    every entry of the successor table dead and copied the empty slot. *)
Definition orphaned (id : Z) : ChordNode :=
  joined id None (Some (peer id)) (Some (peer id)) [Some (peer id)] NULL_NODE.

(** Node 1 with every finger on node 5: its successor is node 5. *)
Definition node1_before_5 : ChordNode :=
  joined 1 (Some (peer 5)) (Some (peer 5)) (Some (peer 5)) [Some (peer 5)] (peer 5).

(** Node 1 of the ring {1, 3, 5}, with the successor list [3; 5]. *)
Definition node1_of_135 : ChordNode :=
  joined 1 (Some (peer 3)) (Some (peer 3)) (Some (peer 5))
    [Some (peer 3); Some (peer 5)] (peer 5).

(** A network in which node 6 has joined between 5 and 1: nodes 3 and 5
    report 6 as their successor, and node 6 reports 1. *)
Definition ring_with_6 (q : request) : reply Node :=
  match q with
  | GetSuccessorRemoteHelper p _ =>
      match Node.id p with
      | Some 3 => Reply (peer 6)
      | Some 5 => Reply (peer 6)
      | Some 6 => Reply (peer 1)
      | _ => Rejected
      end
  | _ => Rejected
  end.

(** A hash of [(host, port)] into [0, 8), for running [joinCluster]. *)
Definition portHash (host : option string) (port : option Z) : ident :=
  Some (toNumber port mod 8).

(** [new ChordNode({id: 1, host: "localhost", port: 8441,
                   knownHost: "localhost", knownPort: 8440})]:
    the known peer's address hashes to 0. *)
Definition joining_through_0 : outcome ChordNode :=
  ChordNode_constructor (Some 1) (Some "localhost"%string) (Some 8441)
    None (Some "localhost"%string) (Some 8440).

(** [new ChordNode({id: 1, host: "localhost", port: 8441})]: no known peer
    (the node's own address hashes to 1). *)
Definition alone : outcome ChordNode :=
  ChordNode_constructor (Some 1) (Some "localhost"%string) (Some 8441)
    None None None.

(** The lone node 1 after it joined. *)
Definition node1_alone : ChordNode :=
  ChordNode.mk (Some 1) (Some "localhost"%string) (Some 8441)
    (Some 1) (Some "localhost"%string) (Some 8441)
    [mkFinger (Some 2) (Some (peer 1));
     mkFinger (Some 3) (Some (peer 1));
     mkFinger (Some 5) (Some (peer 1))]
    [Some (peer 1)] (peer 1).

(** Running a method on the node an [outcome] holds. *)
Definition on_node {W A} (o : outcome ChordNode) (c : M (ChordNode * W) A) (w : W)
  : outcome A * option (ChordNode * W) :=
  match o with
  | Ok n => let r := c (n, w) in (fst r, Some (snd r))
  | Throw => (Throw, None)
  | Exit code => (Exit code, None)
  end.

(** ** Predicates on nodes used in the further properties *)

(** The starts of the fingers, in order. *)
Definition starts (this : ChordNode) : list ident :=
  map start (ChordNode.fingerTable this).


(** Every finger points to the node [n]. *)
Definition fingers_all (n : Node) (this : ChordNode) : Prop :=
  Forall (fun entry => successor entry = Some n) (ChordNode.fingerTable this).

(** No peer answers a request for its successor. *)
Definition successors_unreachable {World} `{!Network World} : Prop :=
  forall (peer node : Node) (w : World),
    fst (rpc_getSuccessorRemoteHelper peer node w) = Rejected.

(** What the periodic tasks and the handlers only read: the identity of the
    node, the address of its known peer, and the starts of its fingers. *)
Definition fixed_part (this : ChordNode)
  : ident * option string * option Z * (ident * option string * option Z)
    * list ident :=
  (ChordNode.id this, ChordNode.host this, ChordNode.port this,
   (ChordNode.knownId this, ChordNode.knownHost this, ChordNode.knownPort this),
   starts this).

(** The part [F] of the node has the value [v]. *)
Definition unchanged {W T} (F : ChordNode -> T) (v : T) (s : ChordNode * W) : Prop :=
  F (fst s) = v.

(** Slot 0 of the successor table holds [v]. *)
Definition first_successor {W} (v : option Node) (s : ChordNode * W) : Prop :=
  ChordNode.successorTable (fst s) !! 0%nat = Some v.

(** Finger 0 exists and has a successor. *)
Definition successor_known (this : ChordNode) : Prop :=
  exists entry n,
    ChordNode.fingerTable this !! 0%nat = Some entry /\ successor entry = Some n.

(** The value [v] (a slot of a table) is not the node with identifier [id]. *)
Definition not_self (id : ident) (v : option Node) : Prop :=
  forall n, v = Some n -> ident_eqb (Node.id n) id = false.

(** A node that is alone in its ring: it has an identifier, it is its own
    predecessor, and all its fingers and its successor table hold itself. *)
Definition lone (this : ChordNode) : Prop :=
  is_Some (ChordNode.id this)
  /\ ChordNode.predecessor this = encapsulateSelf this
  /\ ChordNode.successorTable this = [Some (encapsulateSelf this)]
  /\ ChordNode.fingerTable this <> []
  /\ fingers_all (encapsulateSelf this) this.

(** Slot 0 of the successor table is the successor of finger 0. *)
Definition successor_mirrored {W} (s : ChordNode * W) : Prop :=
  exists entry,
    ChordNode.fingerTable (fst s) !! 0%nat = Some entry
    /\ ChordNode.successorTable (fst s) !! 0%nat = Some (successor entry).

(** The successor table is empty and finger 0 holds no successor. *)
Definition successors_exhausted {W} (s : ChordNode * W) : Prop :=
  ChordNode.successorTable (fst s) = []
  /\ exists entry,
       ChordNode.fingerTable (fst s) !! 0%nat = Some entry /\ successor entry = None.

Section Maintenance.

Context {World : Type} `{!Network World}.
Variable HASH_BIT_LENGTH : nat.
Variable isInModuloRange : ident -> ident -> bool -> ident -> bool -> bool.

(** The states a joined node goes through from [s0]: the periodic tasks and
    the handlers run (each to its end, whatever its outcome), and the network
    moves on. *)
Inductive maintained (s0 : ChordNode * World) : ChordNode * World -> Prop :=
| maintained_start : maintained s0 s0
| maintained_network this w w' :
    maintained s0 (this, w) -> maintained s0 (this, w')
| maintained_stabilize s :
    maintained s0 s -> maintained s0 (snd (stabilize HASH_BIT_LENGTH isInModuloRange s))
| maintained_fixFingers r s :
    maintained s0 s -> maintained s0 (snd (fixFingers HASH_BIT_LENGTH isInModuloRange r s))
| maintained_checkPredecessor s :
    maintained s0 s -> maintained s0 (snd (checkPredecessor s))
| maintained_updateFingerTable sNode fingerIndex s :
    maintained s0 s ->
    maintained s0 (snd (updateFingerTable isInModuloRange sNode fingerIndex s))
| maintained_setPredecessor message this w :
    maintained s0 (this, w) -> maintained s0 (setPredecessor this message, w)
| maintained_notify message this w :
    maintained s0 (this, w) -> maintained s0 (notify isInModuloRange this message, w).

End Maintenance.

(** On the scripted network: the request [q] was sent from the log [w], and
    the log has only grown since. *)
Definition sent_after (w : list request) (q : request) (log : list request) : Prop :=
  exists later, log = later ++ q :: w.


(** ** Where the integers of the embedding are the numbers of the source

    The source computes with IEEE 754 doubles; the embedding computes with
    integers.  [double z] is the double nearest to the integer [z] (ties go
    to the even significand; [z] is below 2^1024 in magnitude): it is what a
    sum, a difference or a product whose exact value is [z] evaluates to. *)
Definition double (z : Z) : Z :=
  let e := Z.log2 (Z.abs z) - 52 in
  if e <=? 0 then z
  else
    let ulp := 2 ^ e in
    let q := z / ulp in
    let r := z mod ulp in
    let half := ulp / 2 in
    if r <? half then q * ulp
    else if half <? r then (q + 1) * ulp
    else if Z.even q then q * ulp else (q + 1) * ulp.

(** The integers up to 2^53 in magnitude are doubles, each of them. *)
Definition safe_integer (z : Z) : Prop := Z.abs z <= 2 ^ 53.

(** A ring of at most 47 bits: the iteration counter of [findPredecessor],
    which starts at [2^m * m], and the sums of an identifier and a power of
    two below [2^m] are then safe integers (see [counter_exact],
    [start_exact] and [searchID_exact] below).  The statements that depend on
    these values are made for such rings. *)
Definition small_ring (m : nat) : Prop := (m <= 47)%nat.

(** The identifier is a point of the ring of [m] bits ([null] counts as 0,
    as it does in the arithmetic of the source). *)
Definition on_ring (m : nat) (id : ident) : Prop :=
  0 <= toNumber id < 2 ^ Z.of_nat m.

(** ** More concrete nodes

    [new ChordNode({id: 1, host: "localhost", port: 8441})], as the
    constructor returns it. *)
Definition node1_new : ChordNode :=
  ChordNode.mk (Some 1) (Some "localhost"%string) (Some 8441)
    None (Some "localhost"%string) (Some 8441)
    [mkFinger None (Some NULL_NODE)] [Some NULL_NODE] NULL_NODE.

(** The same node given the known peer at port 8443, whose address hashes
    to 3. *)
Definition node1_through_3 : ChordNode :=
  ChordNode.mk (Some 1) (Some "localhost"%string) (Some 8441)
    None (Some "localhost"%string) (Some 8443)
    [mkFinger None (Some NULL_NODE)] [Some NULL_NODE] NULL_NODE.

(** The same node given the known peer at port 8443 under the identifier 1,
    which is its own. *)
Definition node1_colliding : ChordNode :=
  ChordNode.mk (Some 1) (Some "localhost"%string) (Some 8441)
    (Some 1) (Some "localhost"%string) (Some 8443)
    [mkFinger None (Some NULL_NODE)] [Some NULL_NODE] NULL_NODE.

(** Node 1 whose successor is node 7, with nodes 3 and 5 next in its
    successor table. *)
Definition node1_before_7 : ChordNode :=
  joined 1 (Some (peer 7)) (Some (peer 3)) (Some (peer 5))
    [Some (peer 7); Some (peer 3); Some (peer 5)] (peer 5).

(** [new ChordNode({id: 1, host: "localhost", port: 8442})]: the node's own
    address hashes to 2. *)
Definition node1_at_8442 : ChordNode :=
  ChordNode.mk (Some 1) (Some "localhost"%string) (Some 8442)
    None (Some "localhost"%string) (Some 8442)
    [mkFinger None (Some NULL_NODE)] [Some NULL_NODE] NULL_NODE.


(** Node 1 of the ring {1, 3, 5, 7}: its successor is node 3, and its
    successor table, [3; 5; 7], is full (m = 3). *)
Definition node1_of_1357 : ChordNode :=
  joined 1 (Some (peer 3)) (Some (peer 3)) (Some (peer 5))
    [Some (peer 3); Some (peer 5); Some (peer 7)] (peer 7).

(** Nodes 5 and 7 are gone.  Only node 3 answers: its predecessor is node 1,
    it still reports node 5 as its successor, and it acknowledges a
    [notify]. *)
Definition only_3_answers (q : request) : reply Node :=
  match q with
  | GetSuccessorRemoteHelper p _ =>
      match Node.id p with
      | Some 3 => Reply (peer 5)
      | _ => Rejected
      end
  | GetPredecessor p =>
      match Node.id p with
      | Some 3 => Reply (peer 1)
      | _ => Rejected
      end
  | Notify p _ =>
      match Node.id p with
      | Some 3 => Reply (peer 3)
      | _ => Rejected
      end
  | _ => Rejected
  end.

(** Two runs of [stabilize] that overlap: the timer starts the second run
    while the first waits for node 7, which does not answer.  A run asks
    node 3 for its predecessor, notifies it, checks it
    ([updateSuccessorTable] begins), and then asks the entries of the
    successor table for their successors, from the last one down. *)
Definition two_runs : list (Async.event (World:=list request) bool) :=
  let run := Async.stabilize (Network0 := scripted only_3_answers) 3 isInModuloRange_spec in
  [Async.Start run;   (* the timer fires: the first run asks node 3 *)
   Async.Resume 0; Async.Resume 0; Async.Resume 0;
                      (* node 3 answers three times; the first run now asks
                         node 7, slot 2 of the table *)
   Async.Start run;   (* the timer fires again *)
   Async.Resume 1; Async.Resume 1; Async.Resume 1;
                      (* the second run also asks node 7, slot 2 *)
   Async.Resume 0;    (* no answer: the first run pops node 7, and asks node 5,
                         slot 1 *)
   Async.Resume 1;    (* no answer: the second run pops node 5; its slot 1 is
                         now empty, and it pops node 3; it returns *)
   Async.Resume 0].   (* no answer: the first run pops the empty table, and
                         returns *)

(** The same with two calls of [updateSuccessorTable] alone. *)
Definition two_calls : list (Async.event (World:=list request) bool) :=
  let call :=
    Async.updateSuccessorTable (Network0 := scripted only_3_answers) 3
      isInModuloRange_spec in
  [Async.Start call; Async.Resume 0;
   Async.Start call; Async.Resume 1;
   Async.Resume 0; Async.Resume 1; Async.Resume 0].

(** * Properties *)

(** ** Identifiers and the monad *)

Lemma ident_eqb_eq (a b : ident) : ident_eqb a b = true <-> a = b.
Proof.
  destruct a as [x|], b as [y|]; simpl; split; intros H; try congruence.
  - apply Z.eqb_eq in H. congruence.
  - injection H as ->. apply Z.eqb_refl.
Qed.

Lemma ident_eqb_refl (a : ident) : ident_eqb a a = true.
Proof. now apply ident_eqb_eq. Qed.

Lemma ident_eqb_null (a : ident) : ident_eqb a None = true <-> a = None.
Proof. apply ident_eqb_eq. Qed.

Section Monad.

Context {St : Type}.

Lemma bind_ext {A B} (c : M St A) (k1 k2 : A -> M St B) (s : St) :
  (forall a s', k1 a s' = k2 a s') -> bind c k1 s = bind c k2 s.
Proof. intros H. unfold bind. destruct (c s) as [[a| |code] s']; auto. Qed.

Lemma bind_ok {A B} (c : M St A) (k : A -> M St B) (s s' : St) (a : A) :
  c s = (Ok a, s') -> bind c k s = k a s'.
Proof. intros H. unfold bind. now rewrite H. Qed.

Lemma noexit_ret {A} (a : A) : noexit (@ret St A a).
Proof. intros s code. discriminate. Qed.

Lemma noexit_throw {A} : noexit (@throw St A).
Proof. intros s code. discriminate. Qed.

Lemma noexit_deref {A} (v : option A) : noexit (@deref St A v).
Proof. destruct v; [apply noexit_ret | apply noexit_throw]. Qed.

Lemma noexit_bind {A B} (c : M St A) (k : A -> M St B) :
  noexit c -> (forall a, noexit (k a)) -> noexit (bind c k).
Proof.
  intros Hc Hk s code. unfold bind.
  destruct (c s) as [[a| |code'] s'] eqn:E.
  - apply Hk.
  - discriminate.
  - specialize (Hc s code'). rewrite E in Hc. now contradict Hc.
Qed.

Lemma noexit_try_catch {A} (c h : M St A) :
  noexit c -> noexit h -> noexit (try_catch c h).
Proof.
  intros Hc Hh s code. unfold try_catch.
  destruct (c s) as [[a| |code'] s'] eqn:E.
  - discriminate.
  - apply Hh.
  - specialize (Hc s code'). rewrite E in Hc. now contradict Hc.
Qed.

Lemma noexit_await {A} (r : St -> reply A * St) : noexit (await r).
Proof. intros w code. unfold await. now destruct (r w) as [[a|] w']. Qed.

Lemma noexit_liftW {A} (c : M St A) : noexit c -> noexit (liftW c).
Proof.
  intros Hc s code. unfold liftW. specialize (Hc (snd s) code).
  now destruct (c (snd s)) as [r w'].
Qed.

(** [try { x = c } catch { x = a }] always yields a value when [c] cannot end
    the process. *)
Lemma try_catch_returns {A} (c : M St A) (a : A) :
  noexit c -> returns (try_catch c (ret a)).
Proof.
  intros Hc s. unfold try_catch.
  destruct (c s) as [[x| |code] s'] eqn:E.
  - now exists x, s'.
  - now exists a, s'.
  - specialize (Hc s code). rewrite E in Hc. now contradict Hc.
Qed.

Lemma keeps_ret {A} (P : St -> Prop) (a : A) : keeps P (ret a).
Proof. now intros s. Qed.

Lemma keeps_bind {A B} (P : St -> Prop) (c : M St A) (k : A -> M St B) :
  keeps P c -> (forall a, keeps P (k a)) -> keeps P (bind c k).
Proof.
  intros Hc Hk s Hs. unfold bind. specialize (Hc s Hs).
  destruct (c s) as [[a| |code] s']; simpl in *; [| exact Hc | exact Hc].
  now apply Hk.
Qed.

Lemma keeps_if {A} (P : St -> Prop) (b : bool) (c1 c2 : M St A) :
  keeps P c1 -> keeps P c2 -> keeps P (if b then c1 else c2).
Proof. now destruct b. Qed.

Lemma readonly_ret {A} (a : A) : readonly (@ret (ChordNode * St) A a).
Proof. now intros s. Qed.

Lemma readonly_throw {A} : readonly (@throw (ChordNode * St) A).
Proof. now intros s. Qed.

Lemma readonly_deref {A} (v : option A) : readonly (@deref (ChordNode * St) A v).
Proof. destruct v; [apply readonly_ret | apply readonly_throw]. Qed.

Lemma readonly_getThis : readonly (@getThis St).
Proof. now intros s. Qed.

Lemma readonly_liftW {A} (c : M St A) : readonly (liftW c).
Proof. intros s. unfold liftW. now destruct (c (snd s)). Qed.

Lemma readonly_bind {A B} (c : M (ChordNode * St) A)
    (k : A -> M (ChordNode * St) B) :
  readonly c -> (forall a, readonly (k a)) -> readonly (bind c k).
Proof.
  intros Hc Hk s. unfold bind. specialize (Hc s).
  destruct (c s) as [[a| |code] s']; simpl in *; [| exact Hc | exact Hc].
  now rewrite Hk.
Qed.

Lemma readonly_try_catch {A} (c h : M (ChordNode * St) A) :
  readonly c -> readonly h -> readonly (try_catch c h).
Proof.
  intros Hc Hh s. unfold try_catch. specialize (Hc s).
  destruct (c s) as [[a| |code] s']; simpl in *; [exact Hc | | exact Hc].
  now rewrite Hh.
Qed.

Lemma readonly_nonempty {A} (c : M (ChordNode * St) A) :
  readonly c -> keeps nonempty_successorTable c.
Proof. intros Hc s Hs. unfold nonempty_successorTable. now rewrite Hc. Qed.

Lemma keeps_try_catch {A} (P : St -> Prop) (c h : M St A) :
  keeps P c -> keeps P h -> keeps P (try_catch c h).
Proof.
  intros Hc Hh s Hs. unfold try_catch. specialize (Hc s Hs).
  destruct (c s) as [[a| |code] s']; simpl in *; [exact Hc | | exact Hc].
  now apply Hh.
Qed.

End Monad.

Section NodeState.

Context {St : Type}.

Lemma readonly_process_exit {A} (code : Z) :
  readonly (@process_exit (ChordNode * St) A code).
Proof. now intros s. Qed.

Lemma readonly_fingers {A} (c : M (ChordNode * St) A) :
  readonly c -> keeps has_fingers c.
Proof. intros Hc s Hs. unfold has_fingers. now rewrite Hc. Qed.

Lemma keeps_fingers_modify (f : ChordNode -> ChordNode) :
  (forall n, length (ChordNode.fingerTable (f n)) = length (ChordNode.fingerTable n)) ->
  keeps has_fingers (@modify St f).
Proof.
  intros Hf s Hs. unfold has_fingers in *. simpl. specialize (Hf (fst s)).
  destruct (ChordNode.fingerTable (f s.1)); [| done].
  destruct (ChordNode.fingerTable s.1); [done | discriminate].
Qed.

Lemma keeps_fingers_setFingerSuccessor (i : nat) (v : option Node) :
  keeps has_fingers (@setFingerSuccessor St i v).
Proof.
  intros s Hs. unfold setFingerSuccessor, bind, getThis, deref, modify.
  cbn [fst snd]. destruct (ChordNode.fingerTable (fst s) !! i); [| exact Hs].
  unfold has_fingers in *. cbn. intros Hnil. apply (f_equal length) in Hnil.
  rewrite length_insert in Hnil. now destruct (ChordNode.fingerTable (fst s)).
Qed.

Lemma keeps_fingers_mirrorSuccessor : keeps has_fingers (@mirrorSuccessor St).
Proof.
  unfold mirrorSuccessor.
  apply keeps_bind; [apply readonly_fingers, readonly_getThis | intros this].
  apply keeps_bind; [apply readonly_fingers, readonly_deref | intros entry].
  now apply keeps_fingers_modify.
Qed.

End NodeState.

Ltac noexit_step :=
  match goal with
  | |- noexit (bind _ _) => apply noexit_bind; [| intros ?]
  | |- noexit (try_catch _ _) => apply noexit_try_catch
  | |- noexit (ret _) => apply noexit_ret
  | |- noexit (@throw _ _) => apply noexit_throw
  | |- noexit (deref _) => apply noexit_deref
  | |- noexit (connect _) => apply noexit_deref
  | |- noexit (await _) => apply noexit_await
  | |- noexit (liftW _) => apply noexit_liftW
  | |- noexit (if ?b then _ else _) => destruct b
  end.

Ltac readonly_step :=
  match goal with
  | |- readonly (bind _ _) => apply readonly_bind; [| intros ?]
  | |- readonly (try_catch _ _) => apply readonly_try_catch
  | |- readonly (ret _) => apply readonly_ret
  | |- readonly (@throw _ _) => apply readonly_throw
  | |- readonly (deref _) => apply readonly_deref
  | |- readonly (connect _) => apply readonly_deref
  | |- readonly getThis => apply readonly_getThis
  | |- readonly (liftW _) => apply readonly_liftW
  | |- readonly (if ?b then _ else _) => destruct b
  | |- readonly (match ?x with _ => _ end) => destruct x
  end.

Ltac keeps_fingers_step :=
  match goal with
  | |- keeps _ (bind _ _) => apply keeps_bind; [| intros ?]
  | |- keeps _ (try_catch _ _) => apply keeps_try_catch
  | |- keeps _ (ret _) => apply keeps_ret
  | |- keeps has_fingers getThis => apply readonly_fingers, readonly_getThis
  | |- keeps has_fingers (liftW _) => apply readonly_fingers, readonly_liftW
  | |- keeps has_fingers (deref _) => apply readonly_fingers, readonly_deref
  | |- keeps has_fingers (connect _) => apply readonly_fingers, readonly_deref
  | |- keeps has_fingers (process_exit _) => apply readonly_fingers, readonly_process_exit
  | |- keeps has_fingers (@throw _ _) => apply readonly_fingers, readonly_throw
  | |- keeps has_fingers (setFingerSuccessor _ _) => apply keeps_fingers_setFingerSuccessor
  | |- keeps has_fingers mirrorSuccessor => apply keeps_fingers_mirrorSuccessor
  | |- keeps has_fingers (modify _) => apply keeps_fingers_modify; intros ?; reflexivity
  | |- keeps _ (if ?b then _ else _) => destruct b
  | |- keeps _ (match ?x with _ => _ end) => destruct x
  end.

(** ** Arrays *)

Lemma length_assign0 {A} (x : A) (a : list A) : (1 <= length (assign0 x a))%nat.
Proof. destruct a; simpl; lia. Qed.

Lemma length_splice {A} (start deleteCount : nat) (item : A) (a : list A) :
  (1 <= length (splice start deleteCount item a))%nat.
Proof. unfold splice. rewrite length_app. simpl. lia. Qed.

Lemma length_pop {A} (a : list A) : length (pop a) = Nat.pred (length a).
Proof. unfold pop. rewrite length_take. lia. Qed.

Lemma length_shift {A} (a : list A) : length (shift a) = Nat.pred (length a).
Proof. unfold shift. rewrite length_drop. lia. Qed.

(** [splice(i + 1, 1, x)] overwrites slot [i + 1], or appends when that slot
    is past the end. *)
Lemma splice_overwrites {A} (i : nat) (x : A) (a : list A) :
  splice (i + 1) 1 x a
  = if (S i <? length a)%nat then <[S i := x]> a else a ++ [x].
Proof.
  unfold splice. replace (i + 1)%nat with (S i) by lia.
  destruct (S i <? length a)%nat eqn:Hlen.
  - apply Nat.ltb_lt in Hlen. rewrite insert_take_drop by exact Hlen.
    do 2 f_equal. f_equal. lia.
  - apply Nat.ltb_ge in Hlen.
    rewrite take_ge by lia. rewrite drop_ge by lia. reflexivity.
Qed.

Section Facts.

Context {World : Type} `{!Network World}.
Variable HASH_BIT_LENGTH : nat.
Variable isInModuloRange : ident -> ident -> bool -> ident -> bool -> bool.
Variable computeHostPortHash : option string -> option Z -> ident.

(** ** The handlers setPredecessor and notify *)

(** C4. For every incoming node [nPrime], [notify] sets the predecessor to
    [nPrime] exactly when the current predecessor's id is null or [nPrime.id]
    lies strictly inside the arc [(predecessor.id, selfId)]; in all other
    cases the node (its predecessor included) is left as it was. *)
Theorem notify_adopts_exactly_when (this : ChordNode) (nPrime : Node) :
  let adopt :=
    Node.id (ChordNode.predecessor this) = None
    \/ isInModuloRange (Node.id nPrime) (Node.id (ChordNode.predecessor this))
         false (ChordNode.id this) false = true in
  (adopt /\ ChordNode.predecessor (notify isInModuloRange this nPrime) = nPrime)
  \/ (~ adopt /\ notify isInModuloRange this nPrime = this).
Proof.
  cbv zeta. unfold notify, notify_test.
  destruct (ident_eqb (Node.id (ChordNode.predecessor this)) None) eqn:Hnull.
  - left. split; [left; now apply ident_eqb_null | reflexivity].
  - destruct (isInModuloRange _ _ _ _ _) eqn:Harc; simpl.
    + left. split; [now right | reflexivity].
    + right. split; [| reflexivity].
      intros [Hn | Ha]; [| congruence].
      apply ident_eqb_null in Hn. congruence.
Qed.

(** C10. [setPredecessor] and [notify] change nothing but the predecessor:
    the finger table, the successor table, the id, the host and the port of
    the node are the same before and after, whatever the message. *)
Theorem predecessor_handlers_frame (this : ChordNode) (message : Node) :
  let after_set := setPredecessor this message in
  let after_notify := notify isInModuloRange this message in
  (ChordNode.fingerTable after_set = ChordNode.fingerTable this
   /\ ChordNode.successorTable after_set = ChordNode.successorTable this
   /\ ChordNode.id after_set = ChordNode.id this
   /\ ChordNode.host after_set = ChordNode.host this
   /\ ChordNode.port after_set = ChordNode.port this)
  /\ (ChordNode.fingerTable after_notify = ChordNode.fingerTable this
      /\ ChordNode.successorTable after_notify = ChordNode.successorTable this
      /\ ChordNode.id after_notify = ChordNode.id this
      /\ ChordNode.host after_notify = ChordNode.host this
      /\ ChordNode.port after_notify = ChordNode.port this).
Proof.
  cbv zeta. split.
  - unfold setPredecessor. now destruct this.
  - unfold notify. destruct (notify_test _ _ _); now destruct this.
Qed.

(** ** closestPrecedingFinger *)

Lemma closestPrecedingFinger_scan_first (this : ChordNode) (id : ident)
    (nodeQueried : Node) (w : World) (k : nat) :
  (forall i, (i < k)%nat -> exists r, finger_successor this i r) ->
  exists r,
    closestPrecedingFinger_scan isInModuloRange this id nodeQueried k w = (Ok r, w)
    /\ ((exists i, (i < k)%nat /\ finger_successor this i r
          /\ finger_precedes isInModuloRange this id nodeQueried i
          /\ forall j, (i < j < k)%nat ->
               ~ finger_precedes isInModuloRange this id nodeQueried j)
        \/ (r = nodeQueried
            /\ forall i, (i < k)%nat ->
                 ~ finger_precedes isInModuloRange this id nodeQueried i)).
Proof.
  induction k as [|k IH]; intros Hdef.
  - exists nodeQueried. split; [reflexivity |]. right. split; [reflexivity |]. lia.
  - destruct (Hdef k ltac:(lia)) as (s & entry & Hentry & Hs).
    simpl. unfold bind at 1. rewrite Hentry. simpl.
    unfold bind at 1. rewrite Hs. simpl.
    destruct (isInModuloRange (Node.id s) (Node.id nodeQueried) false id false) eqn:Harc.
    + exists s. split; [reflexivity |]. left. exists k.
      split; [lia |]. split; [now exists entry |].
      split; [exists s; split; [now exists entry | exact Harc] |]. lia.
    + destruct IH as (r & Hrun & Hr); [intros i Hi; apply Hdef; lia |].
      exists r. split; [exact Hrun |].
      assert (Hk : ~ finger_precedes isInModuloRange this id nodeQueried k).
      { intros (r' & (entry' & Hentry' & Hs') & Harc'). congruence. }
      destruct Hr as [(i & Hi & Hfs & Hfp & Hlater) | (-> & Hnone)].
      * left. exists i. split; [lia |]. split; [exact Hfs |]. split; [exact Hfp |].
        intros j Hj. destruct (decide (j = k)) as [-> | Hne]; [exact Hk |].
        apply Hlater. lia.
      * right. split; [reflexivity |].
        intros i Hi. destruct (decide (i = k)) as [-> | Hne]; [exact Hk |].
        apply Hnone. lia.
Qed.

(** C3. When [nodeQueried] is the node itself (and the table holds its
    [HASH_BIT_LENGTH] fingers), [closestPrecedingFinger] returns the successor
    of the first finger, scanning from index m-1 down to 0, whose successor's
    id lies strictly inside the arc [(nodeQueried.id, id)]; if no finger
    qualifies it returns [nodeQueried] itself. *)
Theorem closestPrecedingFinger_local (this : ChordNode) (id : ident)
    (nodeQueried : Node) (w : World) :
  ident_eqb (ChordNode.id this) (Node.id nodeQueried) = true ->
  (forall i, (i < HASH_BIT_LENGTH)%nat -> exists r, finger_successor this i r) ->
  exists r,
    closestPrecedingFinger HASH_BIT_LENGTH isInModuloRange this id nodeQueried w
      = (Ok r, w)
    /\ ((exists i, (i < HASH_BIT_LENGTH)%nat /\ finger_successor this i r
          /\ finger_precedes isInModuloRange this id nodeQueried i
          /\ forall j, (i < j < HASH_BIT_LENGTH)%nat ->
               ~ finger_precedes isInModuloRange this id nodeQueried j)
        \/ (r = nodeQueried
            /\ forall i, (i < HASH_BIT_LENGTH)%nat ->
                 ~ finger_precedes isInModuloRange this id nodeQueried i)).
Proof.
  intros Hself Hdef. unfold closestPrecedingFinger. rewrite Hself.
  now apply closestPrecedingFinger_scan_first.
Qed.

(** ** Outcomes of the lookup methods *)

Lemma noexit_getSuccessor (this : ChordNode) (nodeQueried : option Node) :
  noexit (getSuccessor this nodeQueried).
Proof. unfold getSuccessor. repeat noexit_step. Qed.

Lemma noexit_closestPrecedingFinger_scan (this : ChordNode) (id : ident)
    (nodeQueried : Node) (k : nat) :
  noexit (closestPrecedingFinger_scan (World:=World) isInModuloRange this id
            nodeQueried k).
Proof. induction k as [|k IH]; simpl; repeat noexit_step; exact IH. Qed.

Lemma noexit_closestPrecedingFinger (this : ChordNode) (id : ident)
    (nodeQueried : Node) :
  noexit (closestPrecedingFinger HASH_BIT_LENGTH isInModuloRange this id nodeQueried).
Proof.
  unfold closestPrecedingFinger. repeat noexit_step.
  apply noexit_closestPrecedingFinger_scan.
Qed.

Lemma noexit_findPredecessor_while (fuel : nat) (this : ChordNode) (id : ident)
    (iterationCounter : Z) (nPrime : Node) (nPrimeSuccessor : option Node) :
  noexit (findPredecessor_while HASH_BIT_LENGTH isInModuloRange fuel this id
            iterationCounter nPrime nPrimeSuccessor).
Proof.
  revert iterationCounter nPrime nPrimeSuccessor.
  induction fuel as [|fuel IH]; intros; simpl; repeat noexit_step;
    first [apply noexit_closestPrecedingFinger | apply noexit_getSuccessor | apply IH].
Qed.

Lemma noexit_findPredecessor (this : ChordNode) (id : ident) :
  noexit (findPredecessor HASH_BIT_LENGTH isInModuloRange this id).
Proof.
  unfold findPredecessor, findPredecessor_hops. repeat noexit_step;
    first [apply noexit_getSuccessor | apply noexit_findPredecessor_while].
Qed.

Lemma noexit_findSuccessor (this : ChordNode) (id : ident)
    (nodeQueried : option Node) :
  noexit (findSuccessor HASH_BIT_LENGTH isInModuloRange this id nodeQueried).
Proof.
  unfold findSuccessor. repeat noexit_step;
    first [apply noexit_findPredecessor | apply noexit_getSuccessor].
Qed.

(** Queried about a node, [findSuccessor] chooses between the local lookup
    and the remote call by the test
    [this.id != undefined && this.id == nodeQueried.id]. *)
Lemma findSuccessor_node (this : ChordNode) (id : ident) (nodeQueried : Node)
    (w : World) :
  findSuccessor HASH_BIT_LENGTH isInModuloRange this id (Some nodeQueried) w
  = (if bool_decide (is_Some (ChordNode.id this))
        && ident_eqb (ChordNode.id this) (Node.id nodeQueried) then
       let* nPrime :=
         try_catch (findPredecessor HASH_BIT_LENGTH isInModuloRange this id)
           (ret NULL_NODE) in
       try_catch (getSuccessor this (Some nPrime)) (ret (Some NULL_NODE))
     else
       let* client := connect (Some nodeQueried) in
       try_catch
         (let* n := await (rpc_findSuccessorRemoteHelper client id nodeQueried) in
          ret (Some n))
         (ret (Some NULL_NODE))) w.
Proof.
  unfold findSuccessor.
  destruct (bool_decide (is_Some (ChordNode.id this))); cbn [andb];
    [| reflexivity].
  unfold bind at 1 2. cbn [deref]. unfold ret at 1 2.
  now destruct (ident_eqb (ChordNode.id this) (Node.id nodeQueried)).
Qed.

(** Queried about [undefined], [findSuccessor] throws before any call: on
    reading [nodeQueried.id] when the node has an id, and in [connect]
    otherwise. *)
Lemma findSuccessor_undefined (this : ChordNode) (id : ident) (w : World) :
  findSuccessor HASH_BIT_LENGTH isInModuloRange this id None w = (Throw, w).
Proof.
  unfold findSuccessor. now destruct (bool_decide (is_Some (ChordNode.id this))).
Qed.

(** Queried about a node, [findSuccessor] returns: every call it makes is
    inside a [try]. *)
Lemma findSuccessor_returns (this : ChordNode) (id : ident) (nodeQueried : Node) :
  returns (findSuccessor HASH_BIT_LENGTH isInModuloRange this id (Some nodeQueried)).
Proof.
  intros w. rewrite findSuccessor_node.
  destruct (_ && _).
  - unfold bind.
    destruct (try_catch_returns _ NULL_NODE (noexit_findPredecessor this id) w)
      as (nPrime & w1 & ->).
    apply try_catch_returns, noexit_getSuccessor.
  - change (bind (connect (Some nodeQueried)) ?k) with (k nodeQueried).
    apply try_catch_returns. repeat noexit_step.
Qed.

(** ** getSuccessor, findPredecessor and findSuccessor *)

Lemma getSuccessor_local (this : ChordNode) (nodeQueried : Node) (w : World) :
  ident_eqb (ChordNode.id this) (Node.id nodeQueried) = true ->
  getSuccessor this (Some nodeQueried) w =
    (match ChordNode.fingerTable this !! 0%nat with
     | Some entry => Ok (successor entry)
     | None => Throw
     end, w).
Proof.
  intros Hself. unfold getSuccessor, bind, deref, ret. rewrite Hself.
  now destruct (ChordNode.fingerTable this !! 0%nat).
Qed.

Lemma getSuccessor_remote (this : ChordNode) (nodeQueried : Node) (w : World) :
  ident_eqb (ChordNode.id this) (Node.id nodeQueried) = false ->
  getSuccessor this (Some nodeQueried) w =
    match rpc_getSuccessorRemoteHelper nodeQueried nodeQueried w with
    | (Reply n, w') => (Ok (Some n), w')
    | (Rejected, w') => (Ok (Some NULL_NODE), w')
    end.
Proof.
  intros Hother.
  unfold getSuccessor, connect, bind, deref, ret, try_catch, await.
  rewrite Hother.
  now destruct (rpc_getSuccessorRemoteHelper nodeQueried nodeQueried w) as [[n|] w'].
Qed.

Lemma getSuccessor_self (this : ChordNode) (w : World) :
  getSuccessor this (Some (encapsulateSelf this)) w =
    (match ChordNode.fingerTable this !! 0%nat with
     | Some entry => Ok (successor entry)
     | None => Throw
     end, w).
Proof. apply getSuccessor_local, ident_eqb_refl. Qed.

Lemma findPredecessor_while_undefined (fuel : nat) (this : ChordNode)
    (id : ident) (iterationCounter : Z) (nPrime : Node) (w : World) :
  findPredecessor_while HASH_BIT_LENGTH isInModuloRange fuel this id
    iterationCounter nPrime None w = (Throw, w).
Proof. now destruct fuel. Qed.

Lemma findPredecessor_ok_finger0 (this : ChordNode) (id : ident) (w : World)
    (n : Node) (entry : FingerTableEntry) :
  fst (findPredecessor HASH_BIT_LENGTH isInModuloRange this id w) = Ok n ->
  ChordNode.fingerTable this !! 0%nat = Some entry ->
  is_Some (successor entry).
Proof.
  intros Hok Hentry.
  destruct (successor entry) as [s|] eqn:Hs; [now exists s |].
  exfalso. revert Hok.
  unfold findPredecessor, findPredecessor_hops, bind, try_catch.
  rewrite getSuccessor_self, Hentry, Hs, findPredecessor_while_undefined.
  discriminate.
Qed.

(** C5 (amended). Queried about a node (an object, not [undefined] or
    [null]), [findSuccessor] never raises: for every id and every such node
    it returns a node, and that node is [NULL_NODE] whenever one of the calls
    it makes fails (the local [findPredecessor] or [getSuccessor], or the
    remote [findSuccessorRemoteHelper]).  A call addressed to [NULL_NODE],
    which has no host and no port, is taken to be rejected. *)
Theorem findSuccessor_never_raises (this : ChordNode) (id : ident)
    (nodeQueried : Node) (w : World) :
  (forall w0, fst (rpc_getSuccessorRemoteHelper NULL_NODE NULL_NODE w0) = Rejected) ->
  exists n w',
    findSuccessor HASH_BIT_LENGTH isInModuloRange this id (Some nodeQueried) w
      = (Ok (Some n), w')
    /\ (underlying_call_fails HASH_BIT_LENGTH isInModuloRange this id nodeQueried w ->
        n = NULL_NODE).
Proof.
  intros Hnull. rewrite findSuccessor_node. fold (findSuccessor_local this nodeQueried).
  destruct (findSuccessor_local this nodeQueried) eqn:Hlocal.
  - unfold bind at 1.
    destruct (try_catch (findPredecessor HASH_BIT_LENGTH isInModuloRange this id)
                (ret NULL_NODE) w) as [r w1] eqn:Htry.
    pose proof Htry as Htry'. unfold try_catch in Htry.
    destruct (findPredecessor HASH_BIT_LENGTH isInModuloRange this id w)
      as [[nPrime| |code] w0] eqn:Hfp.
    + injection Htry as <- <-. unfold try_catch at 1.
      destruct (ident_eqb (ChordNode.id this) (Node.id nPrime)) eqn:Hself.
      * rewrite getSuccessor_local by exact Hself.
        destruct (ChordNode.fingerTable this !! 0%nat) as [entry|] eqn:Hentry.
        -- destruct (findPredecessor_ok_finger0 this id w nPrime entry) as [s Hs];
             [now rewrite Hfp | exact Hentry |].
           rewrite Hs. exists s, w0. split; [reflexivity |].
           intros [Hl _ | _ Hf | n' w' _ Ht Hg | n' w' _ Ht Hr _].
           ++ congruence.
           ++ rewrite Hfp in Hf. discriminate.
           ++ rewrite Htry' in Ht. injection Ht as <- <-.
              rewrite getSuccessor_local, Hentry in Hg by exact Hself. discriminate.
           ++ rewrite Htry' in Ht. injection Ht as <- <-. congruence.
        -- now exists NULL_NODE, w0.
      * rewrite getSuccessor_remote by exact Hself.
        destruct (rpc_getSuccessorRemoteHelper nPrime nPrime w0) as [[s|] w2] eqn:Hrpc.
        -- exists s, w2. split; [reflexivity |].
           intros [Hl _ | _ Hf | n' w' _ Ht Hg | n' w' _ Ht _ Hr].
           ++ congruence.
           ++ rewrite Hfp in Hf. discriminate.
           ++ rewrite Htry' in Ht. injection Ht as <- <-.
              rewrite getSuccessor_remote, Hrpc in Hg by exact Hself. discriminate.
           ++ rewrite Htry' in Ht. injection Ht as <- <-.
              rewrite Hrpc in Hr. discriminate.
        -- now exists NULL_NODE, w2.
    + injection Htry as <- <-. unfold try_catch at 1.
      assert (Hself : ident_eqb (ChordNode.id this) (Node.id NULL_NODE) = false).
      { unfold findSuccessor_local in Hlocal.
        apply andb_true_iff in Hlocal as [Hsome _].
        apply bool_decide_eq_true in Hsome as [x Hx]. now rewrite Hx. }
      rewrite getSuccessor_remote by exact Hself.
      specialize (Hnull w0).
      destruct (rpc_getSuccessorRemoteHelper NULL_NODE NULL_NODE w0) as [[s|] w2];
        [discriminate |].
      now exists NULL_NODE, w2.
    + exfalso. apply (noexit_findPredecessor this id w code).
      now rewrite Hfp.
  - change (bind (connect (Some nodeQueried)) ?k) with (k nodeQueried).
    unfold try_catch, bind, await, ret.
    destruct (rpc_findSuccessorRemoteHelper nodeQueried id nodeQueried w)
      as [[s|] w2] eqn:Hrpc.
    + exists s, w2. split; [reflexivity |].
      intros [_ Hr | Hl _ | n' w' Hl _ _ | n' w' Hl _ _ _]; try congruence.
      rewrite Hrpc in Hr. discriminate.
    + now exists NULL_NODE, w2.
Qed.

(** C8. The remote wrappers relay the local methods.
    [getSuccessorRemoteHelper] replies with [fingerTable[0].successor], which
    is what the local [getSuccessor] returns when queried about the node
    itself.  [findSuccessorRemoteHelper] replies with the value of the local
    [findSuccessor(id, node)], and with [NULL_NODE] if that call throws: when
    the request carries a node, the call returns and the handler replies with
    its value, the network being left as the call left it; when the request
    carries no node, the call throws before any remote call and the handler
    replies with [NULL_NODE]. *)
Theorem remote_helpers_relay :
  (forall (this : ChordNode) (w : World),
     getSuccessorRemoteHelper this w
       = (match ChordNode.fingerTable this !! 0%nat with
          | Some entry => Ok (successor entry)
          | None => Throw
          end, w)
     /\ getSuccessorRemoteHelper this w
          = getSuccessor this (Some (encapsulateSelf this)) w)
  /\ (forall (this : ChordNode) (id : ident) (nodeQueried : option Node) (w : World),
        findSuccessorRemoteHelper HASH_BIT_LENGTH isInModuloRange this id nodeQueried w
          = match findSuccessor HASH_BIT_LENGTH isInModuloRange this id nodeQueried w with
            | (Ok value, w') => (Ok value, w')
            | (Throw, w') => (Ok (Some NULL_NODE), w')
            | (Exit code, w') => (Exit code, w')
            end)
  /\ (forall (this : ChordNode) (id : ident) (nodeQueried : Node) (w : World),
        exists value w',
          findSuccessor HASH_BIT_LENGTH isInModuloRange this id (Some nodeQueried) w
            = (Ok value, w')
          /\ findSuccessorRemoteHelper HASH_BIT_LENGTH isInModuloRange this id
               (Some nodeQueried) w
             = (Ok value, w'))
  /\ (forall (this : ChordNode) (id : ident) (w : World),
        findSuccessor HASH_BIT_LENGTH isInModuloRange this id None w = (Throw, w)
        /\ findSuccessorRemoteHelper HASH_BIT_LENGTH isInModuloRange this id None w
           = (Ok (Some NULL_NODE), w)).
Proof.
  split; [| split; [| split]].
  - intros this w. rewrite getSuccessor_self.
    unfold getSuccessorRemoteHelper, bind, deref, ret.
    now destruct (ChordNode.fingerTable this !! 0%nat).
  - intros this id nodeQueried w. unfold findSuccessorRemoteHelper, try_catch.
    now destruct (findSuccessor _ _ this id nodeQueried w) as [[value| |code] w'].
  - intros this id nodeQueried w. unfold findSuccessorRemoteHelper, try_catch.
    destruct (findSuccessor_returns this id nodeQueried w) as (value & w' & ->).
    now exists value, w'.
  - intros this id w. unfold findSuccessorRemoteHelper, try_catch.
    now rewrite findSuccessor_undefined.
Qed.

(** ** The iteration cap of findPredecessor *)

Lemma findPredecessor_guard_counter (id : ident) (nPrime s : Node) (c : Z) :
  findPredecessor_guard isInModuloRange id nPrime s c = true -> 0 <= c.
Proof.
  unfold findPredecessor_guard. intros H.
  apply andb_true_iff in H as [_ H]. now apply Z.leb_le.
Qed.

(** The loop body runs at most [iterationCounter + 1] times. *)
Lemma findPredecessor_while_hops (fuel : nat) (this : ChordNode) (id : ident)
    (iterationCounter : Z) (nPrime : Node) (nPrimeSuccessor : option Node)
    (w : World) (n : Node) (hops : nat) :
  fst (findPredecessor_while HASH_BIT_LENGTH isInModuloRange fuel this id
         iterationCounter nPrime nPrimeSuccessor w) = Ok (n, hops) ->
  (hops <= Z.to_nat (iterationCounter + 1))%nat.
Proof.
  revert iterationCounter nPrime nPrimeSuccessor w n hops.
  induction fuel as [|fuel IH]; intros c nPrime nPrimeSuccessor w n hops;
    destruct nPrimeSuccessor as [s|]; simpl; try discriminate;
    unfold bind at 1; simpl;
    destruct (findPredecessor_guard isInModuloRange id nPrime s c) eqn:Hguard;
    simpl; try (intros [= _ <-]; lia).
  apply findPredecessor_guard_counter in Hguard.
  unfold bind at 1.
  destruct (try_catch _ _ w) as [[nPrime'| |code] w1]; simpl; try discriminate.
  unfold bind at 1.
  destruct (try_catch _ _ w1) as [[succ'| |code] w2]; simpl; try discriminate.
  unfold bind at 1.
  destruct (findPredecessor_while _ _ fuel this id (c - 1) nPrime' succ' w2)
    as [[[n' hops']| |code] w3] eqn:Hrec; simpl; try discriminate.
  intros [= _ <-].
  specialize (IH (c - 1) nPrime' succ' w2 n' hops'). rewrite Hrec in IH.
  specialize (IH eq_refl). lia.
Qed.

Lemma findPredecessor_while_unfold (fuel : nat) (this : ChordNode) (id : ident)
    (iterationCounter : Z) (nPrime s : Node) (w : World) :
  findPredecessor_while HASH_BIT_LENGTH isInModuloRange fuel this id
    iterationCounter nPrime (Some s) w
  = if findPredecessor_guard isInModuloRange id nPrime s iterationCounter then
      match fuel with
      | O => (Ok (nPrime, O), w)
      | S fuel' =>
          (let* nPrime :=
             try_catch
               (closestPrecedingFinger HASH_BIT_LENGTH isInModuloRange this id nPrime)
               (ret NULL_NODE) in
           let* nPrimeSuccessor :=
             try_catch (getSuccessor this (Some nPrime)) (ret (Some NULL_NODE)) in
           let* r := findPredecessor_while HASH_BIT_LENGTH isInModuloRange fuel'
                       this id (iterationCounter - 1) nPrime nPrimeSuccessor in
           ret (fst r, S (snd r))) w
      end
    else (Ok (nPrime, O), w).
Proof.
  destruct fuel; simpl; unfold bind at 1; simpl;
    now destruct (findPredecessor_guard _ _ _ _ _).
Qed.

(** The fuel the loop is run with is enough: more fuel changes nothing. *)
Lemma findPredecessor_while_fuel (fuel1 fuel2 : nat) (this : ChordNode)
    (id : ident) (iterationCounter : Z) (nPrime : Node)
    (nPrimeSuccessor : option Node) (w : World) :
  (Z.to_nat (iterationCounter + 1) <= fuel1)%nat ->
  (Z.to_nat (iterationCounter + 1) <= fuel2)%nat ->
  findPredecessor_while HASH_BIT_LENGTH isInModuloRange fuel1 this id
    iterationCounter nPrime nPrimeSuccessor w
  = findPredecessor_while HASH_BIT_LENGTH isInModuloRange fuel2 this id
      iterationCounter nPrime nPrimeSuccessor w.
Proof.
  revert fuel2 iterationCounter nPrime nPrimeSuccessor w.
  induction fuel1 as [|fuel1 IH]; intros fuel2 c nPrime nPrimeSuccessor w H1 H2;
    (destruct nPrimeSuccessor as [s|];
     [| now rewrite !findPredecessor_while_undefined]);
    rewrite !findPredecessor_while_unfold;
    (destruct (findPredecessor_guard isInModuloRange id nPrime s c) eqn:Hguard;
     [| reflexivity]);
    apply findPredecessor_guard_counter in Hguard;
    destruct fuel2 as [|fuel2]; try lia.
  apply bind_ext. intros nPrime' w1.
  apply bind_ext. intros succ' w2.
  unfold bind. rewrite (IH fuel2) by lia. reflexivity.
Qed.

(** [findPredecessor] always ends, and its loop body ran at most
    [iterationCap + 1] times. *)
Lemma findPredecessor_hops_bound (this : ChordNode) (id : ident) (w : World) :
  exists r w',
    findPredecessor_hops HASH_BIT_LENGTH isInModuloRange this id w = (r, w')
    /\ match r with
       | Ok (_, hops) => (Z.of_nat hops <= iterationCap HASH_BIT_LENGTH + 1)
       | Throw => True
       | Exit _ => False
       end.
Proof.
  destruct (findPredecessor_hops HASH_BIT_LENGTH isInModuloRange this id w)
    as [r w'] eqn:Hrun.
  exists r, w'. split; [reflexivity |].
  destruct r as [[n hops]| |code]; [| exact I |].
  - revert Hrun. unfold findPredecessor_hops. unfold bind at 1.
    destruct (try_catch _ _ w) as [[s| |code] w1]; try discriminate.
    intros Hrun.
    pose proof (findPredecessor_while_hops _ this id _ _ s w1 n hops
                  ltac:(now rewrite Hrun)) as Hle.
    assert (0 <= iterationCap HASH_BIT_LENGTH) by (unfold iterationCap; lia).
    lia.
  - assert (Hne : noexit (findPredecessor HASH_BIT_LENGTH isInModuloRange this id))
      by apply noexit_findPredecessor.
    specialize (Hne w code). unfold findPredecessor, bind in Hne.
    rewrite Hrun in Hne. now apply Hne.
Qed.

(** ** updateSuccessorTable *)

Lemma noexit_checkSuccessor (this : ChordNode) : noexit (@checkSuccessor World _ this).
Proof.
  unfold checkSuccessor. repeat noexit_step. apply noexit_getSuccessor.
Qed.

(** A check of the successor yields a verdict and leaves the node alone. *)
Lemma try_checkSuccessor (this : ChordNode) (s : ChordNode * World) :
  exists b w',
    try_catch (liftW (checkSuccessor this)) (ret false) s = (Ok b, (fst s, w')).
Proof.
  unfold try_catch, liftW.
  pose proof (noexit_checkSuccessor this (snd s)) as Hne.
  destruct (checkSuccessor this (snd s)) as [[b| |code] w'].
  - now exists b, w'.
  - now exists false, w'.
  - now destruct (Hne code).
Qed.

Lemma mirrorSuccessor_run (s : ChordNode * World) (entry : FingerTableEntry) :
  ChordNode.fingerTable (fst s) !! 0%nat = Some entry ->
  mirrorSuccessor s
  = (Ok tt,
     (set_successorTable
        (assign0 (successor entry) (ChordNode.successorTable (fst s))) (fst s),
      snd s)).
Proof.
  intros Hentry. unfold mirrorSuccessor, bind, getThis, deref, modify. simpl.
  now rewrite Hentry.
Qed.

Lemma setFingerSuccessor_run (s : ChordNode * World) (i : nat) (v : option Node)
    (entry : FingerTableEntry) :
  ChordNode.fingerTable (fst s) !! i = Some entry ->
  setFingerSuccessor i v s
  = (Ok tt,
     (set_fingerTable
        (<[i := mkFinger (start entry) v]> (ChordNode.fingerTable (fst s))) (fst s),
      snd s)).
Proof.
  intros Hentry. unfold setFingerSuccessor, bind, getThis, deref, modify. simpl.
  now rewrite Hentry.
Qed.

(** With a finger table that is not empty, the loop that prunes the head
    returns, and the finger table is still not empty. *)
Lemma pruneHead_returns (fuel : nat) (ok : bool) (s : ChordNode * World) :
  ChordNode.fingerTable (fst s) <> [] ->
  exists b s',
    pruneHead fuel ok s = (Ok b, s') /\ ChordNode.fingerTable (fst s') <> [].
Proof.
  revert ok s. induction fuel as [|fuel IH]; intros ok s Hft.
  - simpl. unfold bind, getThis. simpl.
    destruct (_ && _); now exists ok, s.
  - simpl. unfold bind at 1. unfold getThis at 1. simpl.
    destruct (_ && _); [| now exists ok, s].
    unfold bind at 1.
    destruct (try_checkSuccessor (fst s) s) as (b & w' & ->).
    destruct (ChordNode.fingerTable (fst s)) as [|entry ft] eqn:Hfingers; [done |].
    unfold bind at 1. destruct b.
    + rewrite (mirrorSuccessor_run _ entry) by (simpl; now rewrite Hfingers).
      apply IH. simpl. now rewrite Hfingers.
    + unfold bind at 1. unfold modify at 1. simpl.
      unfold bind at 1. unfold getThis at 1. simpl.
      rewrite (setFingerSuccessor_run _ _ _ entry) by (simpl; now rewrite Hfingers).
      apply IH. simpl. now rewrite Hfingers.
Qed.

Lemma readonly_extend_test (this : ChordNode) (i : nat) (ss : option Node) :
  readonly (extend_test (World:=World) isInModuloRange this i ss).
Proof. unfold extend_test. repeat readonly_step. Qed.

Lemma keeps_extend_slot (i : nat) :
  keeps nonempty_successorTable (extend_slot isInModuloRange i).
Proof.
  unfold extend_slot.
  apply keeps_bind; [apply readonly_nonempty, readonly_getThis | intros this].
  apply keeps_bind; [apply readonly_nonempty; repeat readonly_step | intros ss].
  apply keeps_bind; [apply readonly_nonempty, readonly_extend_test | intros q].
  apply keeps_if; [| apply keeps_ret].
  intros s _. apply length_splice.
Qed.

Lemma keeps_extend_loop (fuel i : nat) :
  keeps nonempty_successorTable (extend_loop HASH_BIT_LENGTH isInModuloRange fuel i).
Proof.
  revert i. induction fuel as [|fuel IH]; intros i; simpl;
    (apply keeps_bind; [apply readonly_nonempty, readonly_getThis | intros this]);
    (apply keeps_if; [| apply keeps_ret]).
  - apply keeps_ret.
  - apply keeps_bind; [apply keeps_extend_slot | intros _; apply IH].
Qed.

Lemma keeps_updateSuccessorTable_extend :
  keeps nonempty_successorTable
    (updateSuccessorTable_extend HASH_BIT_LENGTH isInModuloRange).
Proof.
  unfold updateSuccessorTable_extend.
  apply keeps_bind; [apply readonly_nonempty, readonly_getThis | intros this].
  apply keeps_bind; [apply readonly_nonempty; repeat readonly_step | intros short].
  apply keeps_if; [apply keeps_extend_loop | apply keeps_ret].
Qed.

(** The loop that prunes the tail stops at index 0: it never removes the
    head. *)
Lemma pruneTail_nonempty (i : nat) (ok : bool) (s : ChordNode * World) :
  (i < length (ChordNode.successorTable (fst s)))%nat ->
  nonempty_successorTable (snd (pruneTail HASH_BIT_LENGTH i ok s)).
Proof.
  revert ok s. induction i as [|i IH]; intros ok s Hi.
  - unfold nonempty_successorTable. simpl. lia.
  - simpl. unfold bind at 1. unfold getThis at 1. simpl.
    destruct (_ || _); [| unfold nonempty_successorTable; simpl; lia].
    unfold bind at 1.
    match goal with |- context [try_catch ?c ?h s] =>
      assert (Hro : readonly (try_catch c h)) by repeat readonly_step;
      specialize (Hro s); destruct (try_catch c h s) as [[b| |code] s1]
    end; simpl in Hro;
      try (unfold nonempty_successorTable; simpl; rewrite Hro; lia).
    unfold bind at 1. destruct (_ || _); simpl.
    + apply IH. simpl. rewrite length_pop, Hro. lia.
    + apply IH. rewrite Hro. lia.
Qed.

Lemma keeps_updateSuccessorTable_tail :
  keeps nonempty_successorTable (updateSuccessorTable_tail HASH_BIT_LENGTH).
Proof.
  intros s Hs. unfold updateSuccessorTable_tail, bind, getThis. simpl.
  apply pruneTail_nonempty. unfold nonempty_successorTable in Hs. lia.
Qed.

(** Reinserting the node itself makes the table non-empty. *)
Lemma updateSuccessorTable_isolated_run (s : ChordNode * World) :
  exists s',
    updateSuccessorTable_isolated s = (Ok tt, s') /\ nonempty_successorTable s'.
Proof.
  unfold updateSuccessorTable_isolated, bind, getThis. simpl.
  destruct (length (ChordNode.successorTable (fst s)) <? 1)%nat eqn:Hlen.
  - eexists. split; [reflexivity |].
    unfold nonempty_successorTable. simpl. rewrite length_app. simpl. lia.
  - exists s. split; [reflexivity |].
    apply Nat.ltb_ge in Hlen. exact Hlen.
Qed.

Lemma updateSuccessorTable_head_returns (s : ChordNode * World) :
  ChordNode.fingerTable (fst s) <> [] ->
  exists b s', updateSuccessorTable_head s = (Ok b, s').
Proof.
  intros Hft. unfold updateSuccessorTable_head.
  unfold bind at 1. unfold getThis at 1. simpl.
  unfold bind at 1.
  destruct (try_checkSuccessor (fst s) s) as (b & w' & ->).
  destruct (ChordNode.fingerTable (fst s)) as [|entry ft] eqn:Hfingers; [done |].
  destruct b.
  - unfold bind.
    rewrite (mirrorSuccessor_run _ entry) by (simpl; now rewrite Hfingers).
    now eexists _, _.
  - destruct (pruneHead_returns (length (ChordNode.successorTable (fst s))) false
                (fst s, w')) as (b & s' & Hrun & _).
    + simpl. now rewrite Hfingers.
    + now exists b, s'.
Qed.

(** A call of [updateSuccessorTable] that runs alone leaves the successor
    table non-empty, whether it returns or throws: started in a state whose
    finger table is not empty (as it is in every state reached by methods
    that run one after the other, see [reachable_has_fingers] below), the
    list holds at least one entry afterwards.  Calls that overlap can empty
    it: see the runs [two_runs] and [two_calls]. *)
Lemma updateSuccessorTable_nonempty (this : ChordNode) (w : World) :
  ChordNode.fingerTable this <> [] ->
  (1 <= length (ChordNode.successorTable
                  (fst (snd (updateSuccessorTable HASH_BIT_LENGTH isInModuloRange
                               (this, w))))))%nat.
Proof.
  intros Hft. unfold updateSuccessorTable.
  unfold bind at 1.
  destruct (updateSuccessorTable_head_returns (this, w) Hft) as (b & s1 & ->).
  unfold bind at 1.
  destruct (updateSuccessorTable_isolated_run s1) as (s2 & -> & Hs2).
  apply (keeps_bind nonempty_successorTable); [| | exact Hs2].
  - apply keeps_updateSuccessorTable_extend.
  - intros _. apply keeps_updateSuccessorTable_tail.
Qed.

Lemma setFingerSuccessor_successorTable (i : nat) (v : option Node) (s : ChordNode * World) :
  ChordNode.successorTable (fst (snd (setFingerSuccessor i v s)))
  = ChordNode.successorTable (fst s).
Proof.
  unfold setFingerSuccessor, bind, getThis, deref, modify. cbn [fst snd].
  now destruct (ChordNode.fingerTable (fst s) !! i).
Qed.

Lemma pruneHead_unfold (fuel : nat) (ok : bool) (s : ChordNode * World) :
  pruneHead fuel ok s
  = if negb ok && (0 <? length (ChordNode.successorTable (fst s)))%nat then
      match fuel with
      | O => (Ok ok, s)
      | S fuel' =>
          (let* successorSeemsOK :=
             try_catch (liftW (checkSuccessor (fst s))) (ret false) in
           (if successorSeemsOK then mirrorSuccessor
            else
              modify (fun n => set_successorTable (shift (ChordNode.successorTable n)) n);;
              let* this := getThis in
              setFingerSuccessor 0 (slot (ChordNode.successorTable this) 0));;
           pruneHead fuel' successorSeemsOK) s
      end
    else (Ok ok, s).
Proof. destruct fuel; simpl; unfold bind at 1; simpl; now destruct (_ && _). Qed.

(** The loop that prunes the head is run with enough fuel: more changes
    nothing. *)
Lemma pruneHead_fuel (fuel1 fuel2 : nat) (ok : bool) (s : ChordNode * World) :
  (length (ChordNode.successorTable (fst s)) <= fuel1)%nat ->
  (length (ChordNode.successorTable (fst s)) <= fuel2)%nat ->
  pruneHead fuel1 ok s = pruneHead fuel2 ok s.
Proof.
  revert fuel2 ok s. induction fuel1 as [|fuel1 IH]; intros fuel2 ok s H1 H2;
    rewrite !pruneHead_unfold;
    (destruct (_ && _) eqn:Hguard; [| reflexivity]);
    apply andb_true_iff in Hguard as [_ Hlen]; apply Nat.ltb_lt in Hlen;
    destruct fuel2 as [|fuel2]; try lia.
  destruct (try_checkSuccessor (fst s) s) as (b & w' & Hcheck).
  rewrite !(bind_ok _ _ _ _ _ Hcheck).
  destruct b.
  - apply bind_ext. intros _ s'. rewrite !pruneHead_unfold. reflexivity.
  - unfold bind at 1 4.
    match goal with |- context [bind ?c ?k (fst s, w')] =>
      assert (Hlen' : ChordNode.successorTable (fst (snd (bind c k (fst s, w'))))
                      = shift (ChordNode.successorTable (fst s)));
      [| destruct (bind c k (fst s, w')) as [[[]| |code] s1]; try reflexivity]
    end.
    + unfold bind at 1. unfold modify at 1. cbn [fst snd].
      unfold bind at 1. unfold getThis at 1. cbn [fst snd].
      rewrite setFingerSuccessor_successorTable. now destruct (fst s).
    + cbn [fst snd] in Hlen'.
      apply IH; rewrite Hlen', length_shift; lia.
Qed.

Lemma extend_loop_unfold (fuel i : nat) (s : ChordNode * World) :
  extend_loop HASH_BIT_LENGTH isInModuloRange fuel i s
  = if (i <? length (ChordNode.successorTable (fst s)))%nat
       && (i <=? HASH_BIT_LENGTH)%nat then
      match fuel with
      | O => (Ok tt, s)
      | S fuel' =>
          (extend_slot isInModuloRange i;;
           extend_loop HASH_BIT_LENGTH isInModuloRange fuel' (S i)) s
      end
    else (Ok tt, s).
Proof. destruct fuel; simpl; unfold bind at 1; simpl; now destruct (_ && _). Qed.

(** The extension loop is run with enough fuel: more changes nothing. *)
Lemma extend_loop_fuel (fuel1 fuel2 i : nat) (s : ChordNode * World) :
  (S HASH_BIT_LENGTH - i <= fuel1)%nat ->
  (S HASH_BIT_LENGTH - i <= fuel2)%nat ->
  extend_loop HASH_BIT_LENGTH isInModuloRange fuel1 i s
  = extend_loop HASH_BIT_LENGTH isInModuloRange fuel2 i s.
Proof.
  revert fuel2 i s. induction fuel1 as [|fuel1 IH]; intros fuel2 i s H1 H2;
    rewrite !extend_loop_unfold;
    (destruct (_ && _) eqn:Hguard; [| reflexivity]);
    apply andb_true_iff in Hguard as [_ Hi]; apply Nat.leb_le in Hi;
    destruct fuel2 as [|fuel2]; try lia.
  apply bind_ext. intros _ s'. apply IH; lia.
Qed.

(** What one turn of the extension loop does, in every state and on every
    network.  At slot [i] the node queries [getSuccessor(successorTable[i])];
    when the returned node has a non-null id lying outside the both-inclusive
    arc [selfId, successorTable[i].id], it is stored at position [i + 1]: it
    overwrites the entry that is there (the list keeps its length), or is
    appended when slot [i] is the last one (the list grows by one).
    Otherwise the list is unchanged. *)
Lemma extend_slot_overwrites (this : ChordNode) (w : World) (i : nat) :
  let table := ChordNode.successorTable this in
  exists (successorSuccessor : option Node) (qualifies : bool) (w' : World),
    try_catch (getSuccessor this (slot table i)) (ret (Some NULL_NODE)) w
      = (Ok successorSuccessor, w')
    /\ (qualifies = true <->
        exists n si,
          successorSuccessor = Some n /\ Node.id n <> None
          /\ slot table i = Some si
          /\ isInModuloRange (Node.id n) (ChordNode.id this) true (Node.id si) true
             = false)
    /\ extend_slot isInModuloRange i (this, w)
       = (Ok tt,
          (if qualifies then
             set_successorTable
               (if (S i <? length table)%nat
                then <[S i := successorSuccessor]> table
                else table ++ [successorSuccessor]) this
           else this, w')).
Proof.
  cbv zeta. unfold extend_slot.
  unfold bind at 1. unfold getThis at 1. cbn [fst snd].
  unfold bind at 1.
  destruct (try_catch_returns _ (Some NULL_NODE)
              (noexit_getSuccessor this (slot (ChordNode.successorTable this) i)) w)
    as (ss & w' & Hget).
  assert (Hlift : try_catch (liftW (getSuccessor this (slot (ChordNode.successorTable this) i)))
            (ret (Some (Node.mk None None None))) (this, w) = (Ok ss, (this, w'))).
  { revert Hget. unfold try_catch, liftW. cbn [fst snd].
    destruct (getSuccessor this _ w) as [[x| |code] w1]; unfold ret;
      now intros [= <- <-]. }
  rewrite Hlift. exists ss.
  assert (Hslot : slot (ChordNode.successorTable this) i = None ->
                  ss = Some NULL_NODE).
  { intros Hnone. revert Hget. rewrite Hnone.
    unfold try_catch, getSuccessor, bind, deref, throw, ret. now intros [= <- _]. }
  unfold bind at 1. unfold extend_test.
  destruct ss as [n|].
  - destruct (ident_eqb (Node.id n) None) eqn:Hnull; cbn [negb].
    + exists false, w'. split; [exact Hget |]. split; [| reflexivity].
      split; [discriminate |].
      intros (n' & si & [= <-] & Hid & _). apply ident_eqb_null in Hnull. congruence.
    + destruct (slot (ChordNode.successorTable this) i) as [si|] eqn:Hsi.
      * unfold bind, deref, ret, modify. cbn [fst snd].
        destruct (isInModuloRange (Node.id n) (ChordNode.id this) true (Node.id si) true)
          eqn:Harc; cbn [negb].
        -- exists false, w'. split; [exact Hget |]. split; [| reflexivity].
           split; [discriminate |].
           intros (n' & si' & [= <-] & _ & [= <-] & Harc'). congruence.
        -- exists true, w'. split; [exact Hget |]. split.
           ++ split; [| reflexivity]. intros _. exists n, si.
              split; [reflexivity |]. split; [| split; [reflexivity | exact Harc]].
              intros Hid. rewrite Hid in Hnull. discriminate.
           ++ now rewrite splice_overwrites.
      * specialize (Hslot eq_refl). injection Hslot as ->. discriminate.
  - exists false, w'. split; [exact Hget |]. split; [| reflexivity].
    split; [discriminate |]. now intros (n & si & [=] & _).
Qed.

(** ** fixFingers *)

Lemma index_Z_lookup {A} (a : list A) (i : Z) (x : A) :
  index_Z a i = Some x -> a !! Z.to_nat i = Some x.
Proof. unfold index_Z. now destruct (i <? 0). Qed.

(** One invocation returns normally and either leaves the node as it was, or
    overwrites the successor of the finger it picked with the node that
    [findSuccessor] returned, whose id is not null. *)
Lemma fixFingers_overwrites_one (r : Q) (this : ChordNode) (w : World) :
  exists this' w',
    fixFingers HASH_BIT_LENGTH isInModuloRange r (this, w) = (Ok tt, (this', w'))
    /\ (this' = this
        \/ exists entry n,
             index_Z (ChordNode.fingerTable this) (randomId HASH_BIT_LENGTH r)
               = Some entry
             /\ findSuccessor HASH_BIT_LENGTH isInModuloRange this (start entry)
                  (Some (encapsulateSelf this)) w = (Ok (Some n), w')
             /\ Node.id n <> None
             /\ this' = set_fingerTable
                          (<[Z.to_nat (randomId HASH_BIT_LENGTH r)
                             := mkFinger (start entry) (Some n)]>
                             (ChordNode.fingerTable this)) this).
Proof.
  unfold fixFingers, try_catch.
  unfold bind at 1. unfold getThis at 1. cbn [fst snd].
  destruct (index_Z (ChordNode.fingerTable this) (randomId HASH_BIT_LENGTH r))
    as [entry|] eqn:Hentry; cbn [deref].
  - unfold bind at 1. unfold ret at 1.
    unfold bind at 1. unfold liftW at 1. cbn [fst snd].
    destruct (findSuccessor_returns this (start entry) (encapsulateSelf this) w) as (found & w' & Hfind).
    rewrite Hfind. destruct found as [n|]; cbn [deref].
    + unfold bind at 1. unfold ret at 1.
      destruct (ident_eqb (Node.id n) None) eqn:Hnull; cbn [negb].
      * exists this, w'. split; [reflexivity | now left].
      * rewrite (setFingerSuccessor_run _ _ _ entry)
          by (apply index_Z_lookup; exact Hentry).
        eexists _, w'. split; [reflexivity |]. right. exists entry, n.
        split; [reflexivity |]. split; [exact Hfind |]. split; [| reflexivity].
        intros Hid. rewrite Hid in Hnull. discriminate.
    + exists this, w'. split; [reflexivity | now left].
  - exists this, w. split; [reflexivity | now left].
Qed.

(** It overwrites only on success: when the lookup returns a node whose id is
    null, the node is left as it was. *)
Lemma fixFingers_null_unchanged (r : Q) (this : ChordNode) (w w' : World)
    (entry : FingerTableEntry) (n : Node) :
  index_Z (ChordNode.fingerTable this) (randomId HASH_BIT_LENGTH r) = Some entry ->
  findSuccessor HASH_BIT_LENGTH isInModuloRange this (start entry)
    (Some (encapsulateSelf this)) w = (Ok (Some n), w') ->
  Node.id n = None ->
  fixFingers HASH_BIT_LENGTH isInModuloRange r (this, w) = (Ok tt, (this, w')).
Proof.
  intros Hentry Hfind Hnull. unfold fixFingers, try_catch.
  unfold bind at 1. unfold getThis at 1. cbn [fst snd].
  rewrite Hentry. cbn [deref]. unfold bind at 1. unfold ret at 1.
  unfold bind at 1. unfold liftW at 1. cbn [fst snd]. rewrite Hfind.
  cbn [deref]. unfold bind at 1. unfold ret at 1.
  rewrite Hnull. reflexivity.
Qed.
(** For a value of [Math.random()] in [0, 1) the index lies in [0, m - 1] ... *)
Lemma randomId_range (r : Q) :
  (0 <= r)%Q -> (r < 1)%Q -> (1 <= HASH_BIT_LENGTH)%nat ->
  0 <= randomId HASH_BIT_LENGTH r <= Z.of_nat HASH_BIT_LENGTH - 1.
Proof.
  intros H0 H1 Hm. unfold randomId.
  set (k := Z.of_nat HASH_BIT_LENGTH - 1). assert (0 <= k) by lia.
  assert (Hk : (inject_Z 0 <= inject_Z k)%Q) by (rewrite <- Zle_Qle; lia).
  change (inject_Z 0) with 0%Q in Hk.
  split.
  - change 0 with (Qceiling 0). apply Qceiling_resp_le.
    now apply Qmult_le_0_compat.
  - rewrite <- (Qceiling_Z k) at 2. apply Qceiling_resp_le.
    rewrite <- (Qmult_1_l (inject_Z k)) at 2.
    apply Qmult_le_compat_r; [now apply Qlt_le_weak | exact Hk].
Qed.

(** ... and is at least 1 unless [Math.random()] returned 0 (or m < 2). *)
Lemma randomId_positive (r : Q) :
  (0 < r)%Q -> (2 <= HASH_BIT_LENGTH)%nat -> 1 <= randomId HASH_BIT_LENGTH r.
Proof.
  intros H0 Hm. unfold randomId.
  set (k := Z.of_nat HASH_BIT_LENGTH - 1). assert (0 < k) by lia.
  assert (Hk : (inject_Z 0 < inject_Z k)%Q) by (rewrite <- Zlt_Qlt; lia).
  change (inject_Z 0) with 0%Q in Hk.
  assert (Hpos : (0 < r * inject_Z k)%Q) by now apply Qmult_lt_0_compat.
  pose proof (Qle_ceiling (r * inject_Z k)) as Hc.
  assert (Hlt : (inject_Z 0 < inject_Z (Qceiling (r * inject_Z k)))%Q)
    by (eapply Qlt_le_trans; [exact Hpos | exact Hc]).
  rewrite <- Zlt_Qlt in Hlt. lia.
Qed.

(** ** The finger table of a reachable state is not empty *)

Lemma keeps_fingers_checkPredecessor : keeps has_fingers (@checkPredecessor World _).
Proof. unfold checkPredecessor. repeat keeps_fingers_step. Qed.

Lemma keeps_fingers_stabilizeSelf : keeps has_fingers (@stabilizeSelf World _).
Proof.
  unfold stabilizeSelf.
  repeat first [apply keeps_fingers_checkPredecessor | keeps_fingers_step].
Qed.

Lemma keeps_fingers_pruneHead (fuel : nat) (ok : bool) :
  keeps has_fingers (@pruneHead World _ fuel ok).
Proof.
  revert ok. induction fuel as [|fuel IH]; intros ok; simpl;
    repeat first [apply IH | keeps_fingers_step].
Qed.

Lemma keeps_fingers_extend_loop (fuel i : nat) :
  keeps has_fingers (extend_loop HASH_BIT_LENGTH isInModuloRange fuel i).
Proof.
  revert i. induction fuel as [|fuel IH]; intros i; simpl; unfold extend_slot, extend_test;
    repeat first [apply IH | keeps_fingers_step].
Qed.

Lemma keeps_fingers_pruneTail (i : nat) (ok : bool) :
  keeps has_fingers (@pruneTail World _ HASH_BIT_LENGTH i ok).
Proof.
  revert ok. induction i as [|i IH]; intros ok; simpl;
    repeat first [apply IH | keeps_fingers_step].
Qed.

Lemma keeps_fingers_updateSuccessorTable :
  keeps has_fingers (updateSuccessorTable HASH_BIT_LENGTH isInModuloRange).
Proof.
  unfold updateSuccessorTable, updateSuccessorTable_head,
    updateSuccessorTable_isolated, updateSuccessorTable_extend,
    updateSuccessorTable_tail.
  repeat first [apply keeps_fingers_pruneHead | apply keeps_fingers_extend_loop
               | apply keeps_fingers_pruneTail | keeps_fingers_step].
Qed.

Lemma keeps_fingers_stabilize :
  keeps has_fingers (stabilize HASH_BIT_LENGTH isInModuloRange).
Proof.
  unfold stabilize.
  repeat first [apply keeps_fingers_stabilizeSelf
               | apply keeps_fingers_updateSuccessorTable | keeps_fingers_step].
Qed.

Lemma keeps_fingers_fixFingers (r : Q) :
  keeps has_fingers (fixFingers HASH_BIT_LENGTH isInModuloRange r).
Proof. unfold fixFingers. repeat keeps_fingers_step. Qed.

Lemma keeps_fingers_updateFingerTable (sNode : Node) (fingerIndex : nat) :
  keeps has_fingers (updateFingerTable isInModuloRange sNode fingerIndex).
Proof. unfold updateFingerTable. repeat keeps_fingers_step. Qed.

Lemma keeps_fingers_initFingerTable_loop (k i : nat) (nPrime : Node) :
  keeps has_fingers (initFingerTable_loop HASH_BIT_LENGTH isInModuloRange k i nPrime).
Proof.
  revert i. induction k as [|k IH]; intros i; simpl;
    repeat first [apply IH | keeps_fingers_step].
Qed.

Lemma keeps_fingers_updateOthers_loop (k i : nat) :
  keeps has_fingers (updateOthers_loop HASH_BIT_LENGTH isInModuloRange k i).
Proof.
  revert i. induction k as [|k IH]; intros i; simpl;
    repeat first [apply IH | keeps_fingers_step].
Qed.

Lemma joinCluster_has_fingers (s : ChordNode * World) :
  (1 <= HASH_BIT_LENGTH)%nat ->
  has_fingers s ->
  has_fingers (snd (joinCluster HASH_BIT_LENGTH isInModuloRange computeHostPortHash s)).
Proof.
  intros Hm. revert s. change (keeps has_fingers
    (joinCluster HASH_BIT_LENGTH isInModuloRange computeHostPortHash)).
  unfold joinCluster.
  do 6 (apply keeps_bind; [repeat keeps_fingers_step | intros ?]).
  intros s _. unfold bind at 1. unfold modify at 1. cbn [fst snd].
  unfold bind at 1. unfold modify at 1. cbn [fst snd].
  match goal with |- has_fingers (snd (?c ?st)) =>
    assert (Hst : has_fingers st); [| revert Hst; generalize st; change (keeps has_fingers c)]
  end.
  - unfold has_fingers, initialFingers. cbn [fst ChordNode.fingerTable set_fingerTable].
    intros Hnil. apply (f_equal length) in Hnil.
    rewrite length_app, length_map, length_seq in Hnil. simpl in Hnil. lia.
  - unfold initFingerTable, updateOthers, migrateKeysAfterJoin.
    repeat first [apply keeps_fingers_initFingerTable_loop
                 | apply keeps_fingers_updateOthers_loop | keeps_fingers_step].
Qed.

(** With at least one bit of identifier, the finger table of a reachable
    state is never empty. *)
Lemma reachable_has_fingers (s : ChordNode * World) :
  (1 <= HASH_BIT_LENGTH)%nat ->
  reachable HASH_BIT_LENGTH isInModuloRange computeHostPortHash s ->
  has_fingers s.
Proof.
  intros Hm Hs. induction Hs as
    [id host port knownId knownHost knownPort this w Hnew
    | this w w' _ IH | s _ IH | s _ IH | r s _ IH | s _ IH
    | sNode fingerIndex s _ IH | message this w _ IH | message this w _ IH].
  - unfold ChordNode_constructor in Hnew.
    destruct (_ || _); [discriminate |]. injection Hnew as <-. discriminate.
  - exact IH.
  - now apply joinCluster_has_fingers.
  - now apply keeps_fingers_stabilize.
  - now apply keeps_fingers_fixFingers.
  - now apply keeps_fingers_checkPredecessor.
  - now apply keeps_fingers_updateFingerTable.
  - exact IH.
  - unfold has_fingers, notify in *. simpl in *.
    now destruct (notify_test _ _ _).
Qed.

End Facts.

(** ** joinCluster *)

(** The known peer is joined exactly when its identifier is neither unset nor
    0 and differs from the node's. *)
Lemma joinsKnownPeer_iff (this : ChordNode) :
  joinsKnownPeer this = true
  <-> exists k, ChordNode.knownId this = Some k /\ k <> 0
                /\ ChordNode.id this <> Some k.
Proof.
  unfold joinsKnownPeer, truthy.
  destruct (ChordNode.knownId this) as [k|]; simpl.
  - rewrite andb_true_iff, !negb_true_iff, Z.eqb_neq.
    split.
    + intros [Hk Hne]. exists k. split; [reflexivity |]. split; [exact Hk |].
      intros Heq. apply ident_eqb_eq in Heq. congruence.
    + intros (k' & [= <-] & Hk & Hne). split; [exact Hk |].
      destruct (ident_eqb (ChordNode.id this) (Some k)) eqn:Heq; [| reflexivity].
      apply ident_eqb_eq in Heq. contradiction.
  - split; [discriminate |]. now intros (k & Hk & _).
Qed.

(** ** Remote calls in a cluster *)

(** In a cluster, asking the node at [peer] for [findSuccessor(id, node)]
    gives what that node's own [findSuccessor(id, node)] returns. *)
Lemma cluster_relays_findSuccessor (HASH_BIT_LENGTH : nat)
    (isInModuloRange : ident -> ident -> bool -> ident -> bool -> bool)
    (depth : nat) (peer : Node) (id : ident) (node : Node)
    (w : list ChordNode) (target : ChordNode) :
  node_at peer w = Some target ->
  rpc_findSuccessorRemoteHelper
    (Network := cluster HASH_BIT_LENGTH isInModuloRange (S depth)) peer id node w
  = match findSuccessor (Network0 := cluster HASH_BIT_LENGTH isInModuloRange depth)
            HASH_BIT_LENGTH isInModuloRange target id (Some node) w with
    | (Ok (Some n), w') => (Reply n, w')
    | (_, w') => (Rejected, w')
    end.
Proof.
  intros Htarget. simpl. unfold serve_lookup. rewrite Htarget.
  unfold findSuccessorRemoteHelper, try_catch.
  now destruct (findSuccessor_returns
                  (Network0 := cluster HASH_BIT_LENGTH isInModuloRange depth)
                  HASH_BIT_LENGTH isInModuloRange target id node w)
    as (r & w' & ->).
Qed.

(** * The claims on concrete rings (m = 3) *)

(** The single-node ring of the spec: node 1 joins with no known peer; its
    predecessor and all its fingers are the node itself, and the successor of
    key 5 is the node itself. *)
Example single_node_ring :
  on_node alone
    (joinCluster (Network0 := scripted unreachable) 3 isInModuloRange_spec portHash) []
  = (Ok tt, Some (node1_alone, []))
  /\ findSuccessor (Network0 := scripted unreachable) 3 isInModuloRange_spec
       node1_alone (Some 5) (Some (peer 1)) []
     = (Ok (Some (peer 1)), []).
Proof. split; vm_compute; reflexivity. Qed.

(** The three-node ring {1, 3, 5} of the spec, from every node:
    [findSuccessor(4) = 5], [findSuccessor(6) = 1], [findSuccessor(2) = 3]. *)
Example three_node_ring (from : nat) :
  (from < 3)%nat ->
  lookup_in ring_135 from 4 = Some (Ok (Some (peer 5)))
  /\ lookup_in ring_135 from 6 = Some (Ok (Some (peer 1)))
  /\ lookup_in ring_135 from 2 = Some (Ok (Some (peer 3))).
Proof.
  intros Hfrom. destruct from as [|[|[|from]]]; [| | | lia];
    repeat split; vm_compute; reflexivity.
Qed.

(** The wrap-around lookup of the spec in the ring {2, 6}:
    [findSuccessor(7) = 2] and [findSuccessor(4) = 6]. *)
Example wrap_around_lookup (from : nat) :
  (from < 2)%nat ->
  lookup_in ring_26 from 7 = Some (Ok (Some (peer 2)))
  /\ lookup_in ring_26 from 4 = Some (Ok (Some (peer 6))).
Proof.
  intros Hfrom. destruct from as [|[|from]]; [| | lia];
    repeat split; vm_compute; reflexivity.
Qed.

(** Notify under race: node 1 is told of node 3.  It keeps the predecessor 5
    (3 is not inside (5, 1)), adopts 3 when it has no predecessor, and adopts
    3 in place of 2 (3 is inside (2, 1)). *)
Example notify_under_race :
  let node1 (p : Node) := joined 1 (Some (peer 5)) (Some (peer 5)) (Some (peer 5))
                            [Some (peer 5)] p in
  notify isInModuloRange_spec (node1 (peer 5)) (peer 3) = node1 (peer 5)
  /\ notify isInModuloRange_spec (node1 NULL_NODE) (peer 3) = node1 (peer 3)
  /\ notify isInModuloRange_spec (node1 (peer 2)) (peer 3) = node1 (peer 3).
Proof. cbv zeta. repeat split; reflexivity. Qed.

(** When the successors of node 1 are all dead, [updateSuccessorTable]
    empties the list, copies the empty slot into finger 0, reinserts the node
    itself, and throws on reading the id of the missing successor. *)
Example updateSuccessorTable_all_dead :
  let run :=
    updateSuccessorTable (Network0 := scripted unreachable) 3 isInModuloRange_spec
      (node1_of_135, []) in
  fst run = Throw
  /\ ChordNode.successorTable (fst (snd run)) = [Some (peer 1)]
  /\ ChordNode.fingerTable (fst (snd run)) !! 0%nat = Some (mkFinger (Some 2) None).
Proof. cbv zeta. repeat split; vm_compute; reflexivity. Qed.

(** Node 1 has lost its successor (finger 0 holds no node): [findPredecessor]
    throws, [findSuccessor] asks the peer [NULL_NODE] for its successor, is
    rejected, and returns [NULL_NODE]. *)
Example findSuccessor_orphaned :
  fst (findPredecessor (Network0 := scripted unreachable) 3 isInModuloRange_spec
         (orphaned 1) (Some 4) []) = Throw
  /\ underlying_call_fails (Network0 := scripted unreachable) 3 isInModuloRange_spec
       (orphaned 1) (Some 4) (peer 1) []
  /\ findSuccessor (Network0 := scripted unreachable) 3 isInModuloRange_spec
       (orphaned 1) (Some 4) (Some (peer 1)) []
     = (Ok (Some NULL_NODE), [GetSuccessorRemoteHelper NULL_NODE NULL_NODE]).
Proof.
  split; [reflexivity |]. split; [| reflexivity].
  apply fails_findPredecessor; reflexivity.
Qed.

(** A lookup addressed to another node is forwarded; when the peer does not
    answer, the result is [NULL_NODE]. *)
Example findSuccessor_remote_rejected :
  findSuccessor (Network0 := scripted unreachable) 3 isInModuloRange_spec
    node1_of_135 (Some 4) (Some (peer 3)) []
  = (Ok (Some NULL_NODE), [FindSuccessorRemoteHelper (peer 3) (Some 4) (peer 3)]).
Proof. reflexivity. Qed.

(** C5, as stated, fails.  Node 1 of the ring {1, 3, 5} runs
    [findSuccessor(4, undefined)], as its handler [findSuccessorRemoteHelper]
    does for a request that carries no node: reading [nodeQueried.id] throws,
    outside every [try] of the method, and the error reaches the caller. *)
Lemma findSuccessor_raises_on_undefined :
  findSuccessor (Network0 := scripted unreachable) 3 isInModuloRange_spec
    node1_of_135 (Some 4) None [] = (Throw, [])
  /\ ~ (forall (id : ident) (nodeQueried : option Node),
          exists n w',
            findSuccessor (Network0 := scripted unreachable) 3 isInModuloRange_spec
              node1_of_135 id nodeQueried [] = (Ok (Some n), w')).
Proof.
  split; [reflexivity |].
  intros Hreturns. destruct (Hreturns (Some 4) None) as (n & w' & Hrun).
  discriminate Hrun.
Qed.

(** C1. The iteration cap lets the loop of [findPredecessor] run once more
    than m * 2^m times: node 1, whose successor is node 5, looks up its own
    id 1; every turn [closestPrecedingFinger] finds no finger inside (1, 1)
    and returns node 1 again, and the body runs 25 times for a cap of 24
    (without a single remote call). *)
Theorem findPredecessor_runs_past_cap :
  iterationCap 3 = 24
  /\ findPredecessor_hops (Network0 := scripted unreachable) 3 isInModuloRange_spec
       node1_before_5 (Some 1) []
     = (Ok (peer 1, 25%nat), []).
Proof. split; vm_compute; reflexivity. Qed.

(** C2. A known peer whose identifier is 0 is not joined: node 1 is given the
    peer at port 8440, whose address hashes to 0 (which differs from 1), and
    [joinCluster] takes the branch of the first node: the predecessor is the
    node itself, every finger is the node itself, and no request was sent. *)
Theorem joinCluster_skips_known_peer_0 :
  on_node joining_through_0
    (joinCluster (Network0 := scripted unreachable) 3 isInModuloRange_spec portHash) []
  = (Ok tt,
     Some (ChordNode.mk (Some 1) (Some "localhost"%string) (Some 8441)
             (Some 0) (Some "localhost"%string) (Some 8440)
             [mkFinger (Some 2) (Some (peer 1));
              mkFinger (Some 3) (Some (peer 1));
              mkFinger (Some 5) (Some (peer 1))]
             [Some (peer 1)] (peer 1),
           [])).
Proof. vm_compute. reflexivity. Qed.


(** C7. [Math.ceil(Math.random() * (HASH_BIT_LENGTH - 1))] is 0 when
    [Math.random()] returns 0: the index picked is then outside [1, m - 1],
    and the finger the invocation reads and assigns is finger 0. *)
Theorem fixFingers_picks_index_0 :
  randomId 3 0 = 0
  /\ ~ (1 <= randomId 3 0 <= 3 - 1)
  /\ index_Z (ChordNode.fingerTable node1_of_135) (randomId 3 0)
     = ChordNode.fingerTable node1_of_135 !! 0%nat
  /\ fst (fixFingers (Network0 := scripted unreachable) 3 isInModuloRange_spec 0
            (node1_of_135, [])) = Ok tt.
Proof.
  split; [reflexivity |]. split; [vm_compute; intros [H _]; now apply H |].
  split; reflexivity.
Qed.

(** C9. Two runs of [stabilize] that overlap empty the successor table.
    Node 1 holds the successors [3; 5; 7], and nodes 5 and 7 no longer
    answer.  The [updateSuccessorTable] of each run prunes the table from the
    tail with an index [i] that it set to 2 when it began.  The first run
    pops node 7 and the second pops node 5; the second then reads slot 1 of
    a table of length 1, [getSuccessor(undefined)] throws inside the [try],
    and the [catch] makes it pop node 3, the head.  The second run returns
    with the table empty, and the table is still empty when the first run
    has returned too.  The same run, alone, leaves node 3 in the table. *)
Theorem overlapping_runs_empty_successorTable :
  let state (events : list (Async.event bool)) :=
    Async.interleave events [] (node1_of_1357, []) in
  let ended events := map Async.ended (fst (state events)) in
  let table events := ChordNode.successorTable (fst (snd (state events))) in
  ChordNode.successorTable
    (fst (snd (stabilize (Network0 := scripted only_3_answers) 3
                 isInModuloRange_spec (node1_of_1357, []))))
  = [Some (peer 3)]
  /\ ended (take 10 two_runs) = [None; Some (Ok true)]
  /\ table (take 10 two_runs) = []
  /\ ended two_runs = [Some (Ok true); Some (Ok true)]
  /\ table two_runs = []
  /\ ended (take 6 two_calls) = [None; Some (Ok false)]
  /\ table (take 6 two_calls) = []
  /\ ended two_calls = [Some (Ok false); Some (Ok false)]
  /\ table two_calls = [].
Proof. cbv zeta. repeat split; vm_compute; reflexivity. Qed.

(** ** Instances of the conditional statements *)

Lemma closestPrecedingFinger_local_witness :
  exists r,
    closestPrecedingFinger (Network0 := scripted unreachable) 3 isInModuloRange_spec
      node1_of_135 (Some 4) (peer 1) [] = (Ok r, [])
    /\ ((exists i, (i < 3)%nat /\ finger_successor node1_of_135 i r
          /\ finger_precedes isInModuloRange_spec node1_of_135 (Some 4) (peer 1) i
          /\ forall j, (i < j < 3)%nat ->
               ~ finger_precedes isInModuloRange_spec node1_of_135 (Some 4) (peer 1) j)
        \/ (r = peer 1
            /\ forall i, (i < 3)%nat ->
                 ~ finger_precedes isInModuloRange_spec node1_of_135 (Some 4) (peer 1) i)).
Proof.
  apply (closestPrecedingFinger_local (Network0 := scripted unreachable) 3
           isInModuloRange_spec node1_of_135 (Some 4) (peer 1) []).
  - reflexivity.
  - intros [|[|[|i]]] Hi; [eexists; eexists; split; reflexivity .. | lia].
Defined.

Lemma findSuccessor_never_raises_witness :
  exists n w',
    findSuccessor (Network0 := scripted unreachable) 3 isInModuloRange_spec
      (orphaned 1) (Some 4) (Some (peer 1)) [] = (Ok (Some n), w')
    /\ (underlying_call_fails (Network0 := scripted unreachable) 3
          isInModuloRange_spec (orphaned 1) (Some 4) (peer 1) [] ->
        n = NULL_NODE).
Proof.
  apply (findSuccessor_never_raises (Network0 := scripted unreachable) 3
           isInModuloRange_spec (orphaned 1) (Some 4) (peer 1) []).
  intros w0. reflexivity.
Defined.

(** * Further properties *)

(** ** Exact arithmetic on small rings *)

Lemma double_safe (z : Z) : safe_integer z -> double z = z.
Proof.
  unfold safe_integer. intros Hz.
  destruct (Z.leb_spec (Z.log2 (Z.abs z) - 52) 0) as [He | He].
  - unfold double. cbv zeta. apply Z.leb_le in He. now rewrite He.
  - assert (Hpos : 0 < Z.abs z).
    { destruct (Z.abs z) eqn:E; try lia. simpl in He. lia. }
    assert (Hlog : 2 ^ 53 <= Z.abs z) by (apply Z.log2_le_pow2; lia).
    assert (Hcases : z = 2 ^ 53 \/ z = - 2 ^ 53) by lia.
    destruct Hcases as [-> | ->]; reflexivity.
Qed.

Lemma small_ring_pow (m : nat) (i : nat) :
  small_ring m -> (i <= m)%nat -> 0 < 2 ^ Z.of_nat i <= 2 ^ 47.
Proof.
  unfold small_ring. intros Hm Hi. split; [apply Z.pow_pos_nonneg; lia |].
  apply Z.pow_le_mono_r; lia.
Qed.

(** [iterationCounter--] is exact all along the loop of [findPredecessor]. *)
Lemma counter_exact (m : nat) (c : Z) :
  small_ring m -> 0 <= c <= iterationCap m -> double (c - 1) = c - 1.
Proof.
  intros Hm Hc. apply double_safe. unfold safe_integer, iterationCap in *.
  pose proof (small_ring_pow m m Hm (le_n m)) as Hpow.
  unfold small_ring in Hm.
  assert (2 ^ Z.of_nat m * Z.of_nat m <= 2 ^ 47 * 47) by nia.
  lia.
Qed.

(** [this.id + 2 ** i] is exact, and so is the start of every finger. *)
Lemma start_exact (m i : nat) (id : ident) :
  small_ring m -> on_ring m id -> (i < m)%nat ->
  double (toNumber id + 2 ^ Z.of_nat i) = toNumber id + 2 ^ Z.of_nat i.
Proof.
  intros Hm Hid Hi. apply double_safe. unfold safe_integer, on_ring in *.
  pose proof (small_ring_pow m m Hm (le_n m)) as Hpow.
  pose proof (small_ring_pow m i Hm ltac:(lia)) as Hpowi.
  lia.
Qed.

(** [this.id - 2 ** i + 2 ** HASH_BIT_LENGTH], the key that [updateOthers]
    looks up, is exact. *)
Lemma searchID_exact (m i : nat) (id : ident) :
  small_ring m -> on_ring m id -> (i < m)%nat ->
  double (double (toNumber id - 2 ^ Z.of_nat i) + 2 ^ Z.of_nat m)
  = toNumber id - 2 ^ Z.of_nat i + 2 ^ Z.of_nat m.
Proof.
  intros Hm Hid Hi. unfold on_ring in Hid.
  pose proof (small_ring_pow m m Hm (le_n m)) as Hpow.
  pose proof (small_ring_pow m i Hm ltac:(lia)) as Hpowi.
  rewrite (double_safe (toNumber id - 2 ^ Z.of_nat i))
    by (unfold safe_integer; lia).
  apply double_safe. unfold safe_integer. lia.
Qed.

(** On larger rings the doubles round.  With 48 bits the decrement of the
    counter is lost, so that the iteration cap never ends the loop; with 64
    bits the start of finger 63 of node 1 is 2^63, not 2^63 + 1. *)
Example doubles_round :
  double (iterationCap 48 - 1) = iterationCap 48
  /\ Z.rem (double (1 + 2 ^ 63)) (2 ^ 64) = 9223372036854775808
  /\ Z.rem (1 + 2 ^ 63) (2 ^ 64) = 9223372036854775809.
Proof. repeat split; vm_compute; reflexivity. Qed.

(** ** Running computations step by step *)

Section Runs.

Context {St : Type}.

Lemma bind_throw {A B} (c : M St A) (k : A -> M St B) (s s' : St) :
  c s = (Throw, s') -> bind c k s = (Throw, s').
Proof. intros H. unfold bind. now rewrite H. Qed.

Lemma bind_ret {A B} (a : A) (k : A -> M St B) (s : St) :
  bind (ret a) k s = k a s.
Proof. reflexivity. Qed.

Lemma bind_deref {A B} (a : A) (k : A -> M St B) (s : St) :
  bind (deref (Some a)) k s = k a s.
Proof. reflexivity. Qed.

Lemma bind_bind {A B C} (c : M St A) (k : A -> M St B) (h : B -> M St C) (s : St) :
  bind (bind c k) h s = bind c (fun a => bind (k a) h) s.
Proof. unfold bind. now destruct (c s) as [[a| |code] s']. Qed.

Lemma bind_ok_inv {A B} (c : M St A) (k : A -> M St B) (s s' : St) (b : B) :
  bind c k s = (Ok b, s') -> exists a s1, c s = (Ok a, s1) /\ k a s1 = (Ok b, s').
Proof.
  unfold bind. destruct (c s) as [[a| |code] s1]; intros H;
    [now exists a, s1 | discriminate | discriminate].
Qed.

(** [try { await c } catch { }]: the outcome of [c] is dropped. *)
Lemma try_discard {A} (c : M St A) (s : St) :
  noexit c -> try_catch (c;; ret tt) (ret tt) s = (Ok tt, snd (c s)).
Proof.
  intros Hne. unfold try_catch, bind, ret. specialize (Hne s).
  destruct (c s) as [[a| |code] s1]; [reflexivity | reflexivity |].
  now destruct (Hne code).
Qed.

End Runs.

Section NodeRuns.

Context {W : Type}.

Lemma liftW_run {A} (c : M W A) (this : ChordNode) (w w' : W) (r : outcome A) :
  c w = (r, w') -> liftW c (this, w) = (r, (this, w')).
Proof. intros H. unfold liftW. cbn [fst snd]. now rewrite H. Qed.

Lemma bind_getThis {B} (k : ChordNode -> M (ChordNode * W) B) (s : ChordNode * W) :
  bind getThis k s = k (fst s) s.
Proof. reflexivity. Qed.

Lemma bind_modify {B} (f : ChordNode -> ChordNode) (k : unit -> M (ChordNode * W) B)
    (s : ChordNode * W) :
  bind (modify f) k s = k tt (f (fst s), snd s).
Proof. reflexivity. Qed.

(** [try { x = c } catch { x = a }] on a computation that only reads the
    node: it yields a value and the node is as it was. *)
Lemma try_readonly_run {A} (c : M (ChordNode * W) A) (a : A) (this : ChordNode)
    (w : W) :
  readonly c -> noexit c ->
  exists x w', try_catch c (ret a) (this, w) = (Ok x, (this, w')).
Proof.
  intros Hro Hne. unfold try_catch.
  specialize (Hro (this, w)). specialize (Hne (this, w)).
  destruct (c (this, w)) as [[x| |code] [this' w']]; cbn [fst snd] in *; subst.
  - now exists x, w'.
  - now exists a, w'.
  - now destruct (Hne code).
Qed.

End NodeRuns.

Section NodeOutcomes.

Context {W : Type}.

Lemma noexit_getThis : noexit (@getThis W).
Proof. intros s code. discriminate. Qed.

Lemma noexit_modify (f : ChordNode -> ChordNode) : noexit (@modify W f).
Proof. intros s code. discriminate. Qed.

Lemma noexit_setFingerSuccessor (i : nat) (v : option Node) :
  noexit (@setFingerSuccessor W i v).
Proof.
  unfold setFingerSuccessor.
  apply noexit_bind; [apply noexit_getThis | intros this].
  apply noexit_bind; [apply noexit_deref | intros entry]. apply noexit_modify.
Qed.

Lemma noexit_mirrorSuccessor : noexit (@mirrorSuccessor W).
Proof.
  unfold mirrorSuccessor.
  apply noexit_bind; [apply noexit_getThis | intros this].
  apply noexit_bind; [apply noexit_deref | intros entry]. apply noexit_modify.
Qed.

End NodeOutcomes.

Ltac noexit_node_step :=
  match goal with
  | |- noexit getThis => apply noexit_getThis
  | |- noexit (modify _) => apply noexit_modify
  | |- noexit (setFingerSuccessor _ _) => apply noexit_setFingerSuccessor
  | |- noexit mirrorSuccessor => apply noexit_mirrorSuccessor
  | |- noexit (match ?x with _ => _ end) => destruct x
  | _ => noexit_step
  end.

Section NodeFrame.

Context {W T : Type}.
Variable F : ChordNode -> T.
Variable v : T.

Lemma readonly_unchanged {A} (c : M (ChordNode * W) A) :
  readonly c -> keeps (unchanged F v) c.
Proof. intros Hc s Hs. unfold unchanged. now rewrite Hc. Qed.

Lemma keeps_unchanged_modify (f : ChordNode -> ChordNode) :
  (forall n, F (f n) = F n) -> keeps (unchanged F v) (@modify W f).
Proof. intros Hf s Hs. unfold unchanged in *. simpl. now rewrite Hf. Qed.

Lemma keeps_unchanged_mirrorSuccessor :
  (forall table n, F (set_successorTable table n) = F n) ->
  keeps (unchanged F v) (@mirrorSuccessor W).
Proof.
  intros Hf. unfold mirrorSuccessor.
  apply keeps_bind; [apply readonly_unchanged, readonly_getThis | intros this].
  apply keeps_bind; [apply readonly_unchanged, readonly_deref | intros entry].
  apply keeps_unchanged_modify. intros n. apply Hf.
Qed.

End NodeFrame.

Lemma starts_insert (ft : list FingerTableEntry) (i : nat)
    (entry : FingerTableEntry) (v : option Node) :
  ft !! i = Some entry ->
  map start (<[i := mkFinger (start entry) v]> ft) = map start ft.
Proof.
  intros Hentry. rewrite list_fmap_insert. cbn [start].
  apply list_insert_id. now rewrite list_lookup_fmap, Hentry.
Qed.

Lemma keeps_fixed_setFingerSuccessor {W} (fixed : _) (i : nat) (v : option Node) :
  keeps (unchanged fixed_part fixed) (@setFingerSuccessor W i v).
Proof.
  intros s Hs. unfold setFingerSuccessor, bind, getThis, deref, modify.
  cbn [fst snd].
  destruct (ChordNode.fingerTable (fst s) !! i) as [entry|] eqn:Hentry; [| exact Hs].
  unfold unchanged, fixed_part, starts in *. cbn.
  now rewrite (starts_insert _ _ _ _ Hentry).
Qed.

Ltac keeps_unchanged_step :=
  match goal with
  | |- keeps _ (bind _ _) => apply keeps_bind; [| intros ?]
  | |- keeps _ (try_catch _ _) => apply keeps_try_catch
  | |- keeps _ (ret _) => apply keeps_ret
  | |- keeps (unchanged _ _) getThis => apply readonly_unchanged, readonly_getThis
  | |- keeps (unchanged _ _) (liftW _) => apply readonly_unchanged, readonly_liftW
  | |- keeps (unchanged _ _) (deref _) => apply readonly_unchanged, readonly_deref
  | |- keeps (unchanged _ _) (connect _) => apply readonly_unchanged, readonly_deref
  | |- keeps (unchanged _ _) (process_exit _) =>
      apply readonly_unchanged, readonly_process_exit
  | |- keeps (unchanged fixed_part _) (setFingerSuccessor _ _) =>
      apply keeps_fixed_setFingerSuccessor
  | |- keeps (unchanged _ _) mirrorSuccessor =>
      apply keeps_unchanged_mirrorSuccessor; intros ? ?; reflexivity
  | |- keeps (unchanged _ _) (modify _) =>
      apply keeps_unchanged_modify; intros ?; reflexivity
  | |- keeps _ (if ?b then _ else _) => destruct b
  | |- keeps _ (match ?x with _ => _ end) => destruct x
  end.

Section GuardedCalls.

Context {W : Type}.

(** [try { x = await c } catch { x = a }] on a call that only reads the node:
    it yields a value and the node is as it was. *)
Lemma try_liftW_run {A} (c : M W A) (a : A) (this : ChordNode) (w : W) :
  noexit c ->
  exists x w', try_catch (liftW c) (ret a) (this, w) = (Ok x, (this, w')).
Proof.
  intros Hc. unfold try_catch, liftW. cbn [fst snd].
  pose proof (Hc w) as Hne.
  destruct (c w) as [[x| |code] w'].
  - now exists x, w'.
  - now exists a, w'.
  - now destruct (Hne code).
Qed.

End GuardedCalls.

Section FirstSuccessor.

Context {W : Type}.
Variable v : option Node.

Lemma readonly_first {A} (c : M (ChordNode * W) A) :
  readonly c -> keeps (first_successor v) c.
Proof. intros Hc s Hs. unfold first_successor. now rewrite Hc. Qed.

Lemma keeps_first_modify (f : ChordNode -> ChordNode) :
  (forall n, ChordNode.successorTable n !! 0%nat = Some v ->
             ChordNode.successorTable (f n) !! 0%nat = Some v) ->
  keeps (first_successor v) (@modify W f).
Proof. intros Hf s Hs. apply Hf, Hs. Qed.

Lemma try_liftW_eq {A} (c : M W A) (a : A) (this : ChordNode) (w w' : W)
    (r : outcome A) :
  try_catch c (ret a) w = (r, w') ->
  try_catch (liftW c) (ret a) (this, w) = (r, (this, w')).
Proof.
  unfold try_catch, liftW. cbn [fst snd].
  destruct (c w) as [[x| |code] w1]; unfold ret; now intros [= <- <-].
Qed.

End FirstSuccessor.

Lemma lookup_splice_0 {A} (i : nat) (x v : A) (a : list A) :
  a !! 0%nat = Some v -> splice (i + 1) 1 x a !! 0%nat = Some v.
Proof.
  intros Ha. unfold splice. rewrite lookup_app_l.
  - rewrite lookup_take_lt by lia. exact Ha.
  - rewrite length_take. apply lookup_lt_Some in Ha. lia.
Qed.

Lemma lookup_pop_0 {A} (v : A) (a : list A) :
  (2 <= length a)%nat -> a !! 0%nat = Some v -> pop a !! 0%nat = Some v.
Proof. intros Hlen Ha. unfold pop. rewrite lookup_take_lt by lia. exact Ha. Qed.

(** ** The log of the scripted network only grows *)

Section Log.

Variable answer : request -> reply Node.
Variable w0 : list request.
Variable q0 : request.

Lemma keeps_sent_call (q : request) :
  keeps (sent_after w0 q0) (await (scripted_call answer q)).
Proof.
  intros log [later ->]. unfold await, scripted_call.
  destruct (answer q); now exists (q :: later).
Qed.

Lemma keeps_sent_ack (q : request) :
  keeps (sent_after w0 q0) (await (scripted_ack answer q)).
Proof.
  intros log [later ->]. unfold await, scripted_ack.
  destruct (answer q); now exists (q :: later).
Qed.

Lemma keeps_sent_deref {A} (v : option A) :
  keeps (sent_after w0 q0) (@deref (list request) A v).
Proof. now destruct v. Qed.

Lemma keeps_sent_liftW {A} (c : M (list request) A) :
  keeps (sent_after w0 q0) c ->
  keeps (fun s : ChordNode * list request => sent_after w0 q0 (snd s)) (liftW c).
Proof.
  intros Hc [this log] Hs. specialize (Hc log Hs). unfold liftW. cbn [fst snd] in *.
  now destruct (c log).
Qed.

Lemma keeps_sent_node {A} (c : M (ChordNode * list request) A) :
  (forall s, snd (snd (c s)) = snd s) ->
  keeps (fun s : ChordNode * list request => sent_after w0 q0 (snd s)) c.
Proof. intros Hc s Hs. now rewrite Hc. Qed.

Lemma setFingerSuccessor_network {W} (i : nat) (v : option Node) (s : ChordNode * W) :
  snd (snd (setFingerSuccessor i v s)) = snd s.
Proof.
  unfold setFingerSuccessor, bind, getThis, deref, modify. cbn [fst snd].
  now destruct (ChordNode.fingerTable (fst s) !! i).
Qed.

Lemma mirrorSuccessor_network {W} (s : ChordNode * W) :
  snd (snd (mirrorSuccessor s)) = snd s.
Proof.
  unfold mirrorSuccessor, bind, getThis, deref, modify. cbn [fst snd].
  now destruct (ChordNode.fingerTable (fst s) !! 0%nat).
Qed.

End Log.

Ltac keeps_sent_step :=
  match goal with
  | |- keeps _ (bind _ _) => apply keeps_bind; [| intros ?]
  | |- keeps _ (try_catch _ _) => apply keeps_try_catch
  | |- keeps _ (ret _) => apply keeps_ret
  | |- keeps (sent_after _ _) (deref _) => apply keeps_sent_deref
  | |- keeps (sent_after _ _) (connect _) => apply keeps_sent_deref
  | |- keeps (sent_after _ _) (await _) =>
      first [apply keeps_sent_ack | apply keeps_sent_call]
  | |- keeps _ (liftW _) => apply keeps_sent_liftW
  | |- keeps _ getThis => apply keeps_sent_node; intros ?; reflexivity
  | |- keeps _ (modify _) => apply keeps_sent_node; intros ?; reflexivity
  | |- keeps _ (deref _) => apply keeps_sent_node; intros ?; now destruct_one_deref
  | |- keeps _ (connect _) => apply keeps_sent_node; intros ?; now destruct_one_deref
  | |- keeps _ (setFingerSuccessor _ _) =>
      apply keeps_sent_node; intros ?; apply setFingerSuccessor_network
  | |- keeps _ mirrorSuccessor =>
      apply keeps_sent_node; intros ?; apply mirrorSuccessor_network
  | |- keeps _ (@throw _ _) => apply keeps_sent_node; intros ?; reflexivity
  | |- keeps _ (if ?b then _ else _) => destruct b
  | |- keeps _ (match ?x with _ => _ end) => destruct x
  end
with destruct_one_deref :=
  match goal with
  | |- context [deref ?v] => destruct v
  | |- context [connect ?v] => destruct v
  end.

Section MoreHandlers.

Context {World : Type} `{!Network World}.
Variable HASH_BIT_LENGTH : nat.
Variable isInModuloRange : ident -> ident -> bool -> ident -> bool -> bool.
Variable computeHostPortHash : option string -> option Z -> ident.

(** ** Further properties of the handlers *)

(** X1. Telling a node twice of the same node is the same as telling it
    once: [notify] is idempotent, whatever the range predicate. *)
Theorem notify_idempotent (this : ChordNode) (nPrime : Node) :
  notify isInModuloRange (notify isInModuloRange this nPrime) nPrime
  = notify isInModuloRange this nPrime.
Proof.
  destruct (notify_test isInModuloRange this nPrime) eqn:Htest.
  - assert (E : notify isInModuloRange this nPrime = set_predecessor nPrime this)
      by (unfold notify; now rewrite Htest).
    rewrite E. unfold notify.
    destruct (notify_test isInModuloRange (set_predecessor nPrime this) nPrime);
      [now destruct this | reflexivity].
  - assert (E : notify isInModuloRange this nPrime = this)
      by (unfold notify; now rewrite Htest).
    now rewrite !E.
Qed.

End MoreHandlers.

Section Lookups.

Context {World : Type} `{!Network World}.
Variable HASH_BIT_LENGTH : nat.
Variable isInModuloRange : ident -> ident -> bool -> ident -> bool -> bool.
Variable computeHostPortHash : option string -> option Z -> ident.

(** ** Further properties of the lookups *)

(** When finger 0 is absent or has a successor, [getSuccessor] of any node,
    guarded as the callers guard it, yields a node. *)
Lemma try_getSuccessor_defined (this : ChordNode) (n : Node) (w : World) :
  (forall entry, ChordNode.fingerTable this !! 0%nat = Some entry ->
                 is_Some (successor entry)) ->
  exists s w',
    try_catch (getSuccessor this (Some n)) (ret (Some NULL_NODE)) w
    = (Ok (Some s), w').
Proof.
  intros Hdef. unfold try_catch.
  destruct (ident_eqb (ChordNode.id this) (Node.id n)) eqn:Hself.
  - rewrite getSuccessor_local by exact Hself.
    destruct (ChordNode.fingerTable this !! 0%nat) as [entry|] eqn:Hentry.
    + destruct (Hdef entry eq_refl) as [s ->]. now exists s, w.
    + now exists NULL_NODE, w.
  - rewrite getSuccessor_remote by exact Hself.
    destruct (rpc_getSuccessorRemoteHelper n n w) as [[s|] w'].
    + now exists s, w'.
    + now exists NULL_NODE, w'.
Qed.

Lemma findPredecessor_while_returns (fuel : nat) (this : ChordNode) (id : ident)
    (iterationCounter : Z) (nPrime s : Node) (w : World) :
  (forall entry, ChordNode.fingerTable this !! 0%nat = Some entry ->
                 is_Some (successor entry)) ->
  exists r w',
    findPredecessor_while HASH_BIT_LENGTH isInModuloRange fuel this id
      iterationCounter nPrime (Some s) w = (Ok r, w').
Proof.
  intros Hdef. revert iterationCounter nPrime s w.
  induction fuel as [|fuel IH]; intros c nPrime s w;
    rewrite findPredecessor_while_unfold;
    (destruct (findPredecessor_guard _ _ _ _ _); [| now eexists _, _]).
  - now eexists _, _.
  - destruct (try_catch_returns _ NULL_NODE
                (noexit_closestPrecedingFinger HASH_BIT_LENGTH isInModuloRange
                   this id nPrime) w) as (nPrime' & w1 & Hcpf).
    rewrite (bind_ok _ _ _ _ _ Hcpf).
    destruct (try_getSuccessor_defined this nPrime' w1 Hdef) as (s' & w2 & Hget).
    rewrite (bind_ok _ _ _ _ _ Hget).
    destruct (IH (c - 1) nPrime' s' w2) as (r & w3 & Hrec).
    rewrite (bind_ok _ _ _ _ _ Hrec). now eexists _, _.
Qed.

(** X2. How [findPredecessor] ends on a ring of at most 47 bits, where its
    iteration counter is exact.  It throws in exactly one situation: finger 0
    exists and has lost its successor (it is [undefined]); then it throws
    before any remote call.  In every other state, and whatever the peers
    answer, it returns a node after at most [2^m * m + 1] turns of its loop.
    It never ends the process. *)
Theorem findPredecessor_outcome (this : ChordNode) (id : ident) (w : World) :
  small_ring HASH_BIT_LENGTH ->
  let orphan :=
    exists entry, ChordNode.fingerTable this !! 0%nat = Some entry
                  /\ successor entry = None in
  (orphan /\ findPredecessor HASH_BIT_LENGTH isInModuloRange this id w = (Throw, w))
  \/ (~ orphan
      /\ exists n hops w',
           findPredecessor_hops HASH_BIT_LENGTH isInModuloRange this id w
           = (Ok (n, hops), w')
           /\ findPredecessor HASH_BIT_LENGTH isInModuloRange this id w = (Ok n, w')
           /\ Z.of_nat hops
              <= 2 ^ Z.of_nat HASH_BIT_LENGTH * Z.of_nat HASH_BIT_LENGTH + 1).
Proof.
  intros _. cbv zeta.
  assert (Hdone : forall s,
    try_catch (getSuccessor this (Some (encapsulateSelf this)))
      (ret (Some NULL_NODE)) w = (Ok (Some s), w) ->
    (forall entry, ChordNode.fingerTable this !! 0%nat = Some entry ->
                   is_Some (successor entry)) ->
    exists n hops w',
      findPredecessor_hops HASH_BIT_LENGTH isInModuloRange this id w
      = (Ok (n, hops), w')
      /\ findPredecessor HASH_BIT_LENGTH isInModuloRange this id w = (Ok n, w')
      /\ Z.of_nat hops
         <= 2 ^ Z.of_nat HASH_BIT_LENGTH * Z.of_nat HASH_BIT_LENGTH + 1).
  { intros s Hget Hdef.
    destruct (findPredecessor_hops_bound HASH_BIT_LENGTH isInModuloRange this id w)
      as (r & w' & Hrun & Hbound).
    assert (Hok : exists nh, r = Ok nh).
    { revert Hrun. unfold findPredecessor_hops.
      rewrite (bind_ok _ _ _ _ _ Hget).
      destruct (findPredecessor_while_returns
                  (Z.to_nat (iterationCap HASH_BIT_LENGTH + 1)) this id
                  (iterationCap HASH_BIT_LENGTH) (encapsulateSelf this) s w Hdef)
        as (nh & w'' & ->).
      intros [= <- _]. now exists nh. }
    destruct Hok as ([n hops] & ->).
    exists n, hops, w'. split; [exact Hrun |]. split; [| exact Hbound].
    unfold findPredecessor. now rewrite (bind_ok _ _ _ _ _ Hrun). }
  destruct (ChordNode.fingerTable this !! 0%nat) as [entry|] eqn:Hentry.
  - destruct (successor entry) as [s|] eqn:Hs.
    + right. split; [intros (e & [= <-] & He); congruence |].
      apply (Hdone s).
      * unfold try_catch. now rewrite getSuccessor_self, Hentry, Hs.
      * intros e [= <-]. now rewrite Hs.
    + left. split; [now exists entry |].
      unfold findPredecessor, findPredecessor_hops, bind, try_catch.
      now rewrite getSuccessor_self, Hentry, Hs, findPredecessor_while_undefined.
  - right. split; [now intros (e & He & _) |].
    apply (Hdone NULL_NODE).
    + unfold try_catch. now rewrite getSuccessor_self, Hentry.
    + intros e He. discriminate.
Qed.

(** A node that is its own successor answers every lookup addressed to it
    with its successor entry, at once and without any remote call. *)
Lemma findSuccessor_own_successor (this : ChordNode) (id : ident)
    (nodeQueried s : Node) (entry : FingerTableEntry) (x : Z) (w : World) :
  ChordNode.id this = Some x ->
  Node.id nodeQueried = Some x ->
  ChordNode.fingerTable this !! 0%nat = Some entry ->
  successor entry = Some s ->
  Node.id s = Some x ->
  findPredecessor_hops HASH_BIT_LENGTH isInModuloRange this id w
    = (Ok (encapsulateSelf this, O), w)
  /\ findSuccessor HASH_BIT_LENGTH isInModuloRange this id (Some nodeQueried) w
     = (Ok (Some s), w).
Proof.
  intros Hid Hnq Hentry Hs Hsid.
  assert (Hhops : findPredecessor_hops HASH_BIT_LENGTH isInModuloRange this id w
                  = (Ok (encapsulateSelf this, O), w)).
  { unfold findPredecessor_hops, bind, try_catch.
    rewrite getSuccessor_self, Hentry, Hs, findPredecessor_while_unfold.
    unfold findPredecessor_guard. cbn [encapsulateSelf Node.id].
    rewrite Hid, Hsid, ident_eqb_refl. cbn [negb andb].
    now rewrite andb_false_r. }
  split; [exact Hhops |].
  rewrite findSuccessor_node. rewrite Hid, Hnq, ident_eqb_refl.
  rewrite bool_decide_eq_true_2 by (now exists x). cbn [andb].
  assert (Hfp : try_catch (findPredecessor HASH_BIT_LENGTH isInModuloRange this id)
                  (ret NULL_NODE) w = (Ok (encapsulateSelf this), w)).
  { unfold try_catch, findPredecessor, bind. now rewrite Hhops. }
  rewrite (bind_ok _ _ _ _ _ Hfp).
  unfold try_catch. now rewrite getSuccessor_self, Hentry, Hs.
Qed.

(** X3. Before the node has its [HASH_BIT_LENGTH] fingers, the local scan of
    [closestPrecedingFinger] reads past the end of the table and throws; the
    remote wrapper turns that into the reply [NULL_NODE]. *)
Theorem closestPrecedingFinger_short_table (this : ChordNode) (id : ident)
    (nodeQueried : Node) (w : World) :
  ident_eqb (ChordNode.id this) (Node.id nodeQueried) = true ->
  (length (ChordNode.fingerTable this) < HASH_BIT_LENGTH)%nat ->
  closestPrecedingFinger HASH_BIT_LENGTH isInModuloRange this id nodeQueried w
    = (Throw, w)
  /\ closestPrecedingFingerRemoteHelper HASH_BIT_LENGTH isInModuloRange this id
       nodeQueried w = (Ok NULL_NODE, w).
Proof.
  intros Hself Hshort.
  assert (Hthrow : closestPrecedingFinger HASH_BIT_LENGTH isInModuloRange this id
                     nodeQueried w = (Throw, w)).
  { unfold closestPrecedingFinger. rewrite Hself.
    destruct HASH_BIT_LENGTH as [|k]; [lia |]. simpl.
    unfold bind. rewrite lookup_ge_None_2 by lia. reflexivity. }
  split; [exact Hthrow |].
  unfold closestPrecedingFingerRemoteHelper, try_catch. now rewrite Hthrow.
Qed.

End Lookups.

Section PredecessorChecks.

Context {World : Type} `{!Network World}.
Variable HASH_BIT_LENGTH : nat.
Variable isInModuloRange : ident -> ident -> bool -> ident -> bool -> bool.
Variable computeHostPortHash : option string -> option Z -> ident.

(** ** Further properties of the periodic tasks *)

Lemma noexit_pruneHead (fuel : nat) (ok : bool) : noexit (@pruneHead World _ fuel ok).
Proof.
  revert ok. induction fuel as [|fuel IH]; intros ok; simpl;
    repeat first [apply IH | apply noexit_checkSuccessor | noexit_node_step].
Qed.

Lemma noexit_extend_loop (fuel i : nat) :
  noexit (extend_loop HASH_BIT_LENGTH isInModuloRange fuel i).
Proof.
  revert i. induction fuel as [|fuel IH]; intros i; simpl;
    unfold extend_slot, extend_test;
    repeat first [apply IH | apply noexit_getSuccessor | noexit_node_step].
Qed.

Lemma noexit_pruneTail (i : nat) (ok : bool) :
  noexit (@pruneTail World _ HASH_BIT_LENGTH i ok).
Proof.
  revert ok. induction i as [|i IH]; intros ok; simpl;
    repeat first [apply IH | apply noexit_getSuccessor | noexit_node_step].
Qed.

Lemma noexit_updateSuccessorTable :
  noexit (updateSuccessorTable HASH_BIT_LENGTH isInModuloRange).
Proof.
  unfold updateSuccessorTable, updateSuccessorTable_head,
    updateSuccessorTable_isolated, updateSuccessorTable_extend,
    updateSuccessorTable_tail.
  repeat first [apply noexit_pruneHead | apply noexit_extend_loop
               | apply noexit_pruneTail | apply noexit_checkSuccessor
               | noexit_node_step].
Qed.

Lemma checkPredecessor_run (this : ChordNode) (w : World) :
  checkPredecessor (this, w)
  = if negb (ident_eqb (Node.id (ChordNode.predecessor this)) None)
       && negb (iAmMyOwnPredecessor this)
    then
      match rpc_getPredecessor (ChordNode.predecessor this) w with
      | (Reply _, w') => (Ok true, (this, w'))
      | (Rejected, w') => (Ok false, (set_predecessor NULL_NODE this, w'))
      end
    else (Ok true, (this, w)).
Proof.
  unfold checkPredecessor, bind, getThis, connect, deref, try_catch, liftW,
    await, modify, ret.
  cbv beta iota delta [fst snd].
  destruct (negb _ && negb _); [| reflexivity].
  now destruct (rpc_getPredecessor (ChordNode.predecessor this) w) as [[reply|] w'].
Qed.

(** X4. [checkPredecessor] never raises.  It probes the predecessor only
    when there is one that is not the node itself; it returns [false] exactly
    when that probe is rejected, and then the predecessor has been wiped;
    otherwise it returns [true] and the node is as it was. *)
Theorem checkPredecessor_wipes_when_rejected (this : ChordNode) (w : World) :
  let p := ChordNode.predecessor this in
  let probed :=
    negb (ident_eqb (Node.id p) None) && negb (iAmMyOwnPredecessor this) in
  (probed = false /\ checkPredecessor (this, w) = (Ok true, (this, w)))
  \/ (probed = true
      /\ exists w',
           (exists reply, rpc_getPredecessor p w = (Reply reply, w')
                          /\ checkPredecessor (this, w) = (Ok true, (this, w')))
           \/ (rpc_getPredecessor p w = (Rejected, w')
               /\ checkPredecessor (this, w)
                  = (Ok false, (set_predecessor NULL_NODE this, w')))).
Proof.
  cbv zeta. rewrite checkPredecessor_run.
  destruct (negb _ && negb _); [right; split; [reflexivity |] | now left].
  destruct (rpc_getPredecessor (ChordNode.predecessor this) w) as [[reply|] w'].
  - exists w'. left. now exists reply.
  - exists w'. now right.
Qed.

(** X5. [stabilizeSelf] on a node that has a finger 0.  With a null
    predecessor id it returns [false] and does nothing.  When the predecessor
    is the node itself it returns [true] and does nothing.  Otherwise it
    probes the predecessor: when the probe is answered it returns [true] and
    the predecessor becomes both the successor of finger 0 and slot 0 of the
    successor table; when the probe is rejected it returns [false], the
    predecessor has been wiped, and both tables are as they were. *)
Theorem stabilizeSelf_kicks (this : ChordNode) (w : World)
    (entry : FingerTableEntry) :
  ChordNode.fingerTable this !! 0%nat = Some entry ->
  let p := ChordNode.predecessor this in
  stabilizeSelf (this, w)
  = if ident_eqb (Node.id p) None then (Ok false, (this, w))
    else if iAmMyOwnPredecessor this then (Ok true, (this, w))
    else
      match rpc_getPredecessor p w with
      | (Reply _, w') =>
          (Ok true,
           (set_successorTable
              (assign0 (Some p) (ChordNode.successorTable this))
              (set_fingerTable
                 (<[0%nat := mkFinger (start entry) (Some p)]>
                    (ChordNode.fingerTable this)) this), w'))
      | (Rejected, w') => (Ok false, (set_predecessor NULL_NODE this, w'))
      end.
Proof.
  intros Hentry. cbv zeta. unfold stabilizeSelf.
  rewrite bind_getThis. cbn [fst].
  destruct (ident_eqb (Node.id (ChordNode.predecessor this)) None) eqn:Hnull;
    [reflexivity |].
  destruct (iAmMyOwnPredecessor this) eqn:Hown; cbn [negb]; [reflexivity |].
  unfold bind at 1. unfold try_catch at 1. rewrite checkPredecessor_run.
  rewrite Hnull, Hown. cbn [negb andb].
  destruct (rpc_getPredecessor (ChordNode.predecessor this) w) as [[reply|] w'];
    [| reflexivity].
  rewrite bind_bind, bind_getThis. cbv beta. cbn [fst].
  rewrite bind_bind.
  erewrite bind_ok; [| now apply (setFingerSuccessor_run _ _ _ entry)].
  cbn [fst snd].
  erewrite bind_ok.
  2:{ apply (mirrorSuccessor_run _
               (mkFinger (start entry) (Some (ChordNode.predecessor this)))).
      cbn. apply list_lookup_insert_eq. now apply lookup_lt_Some in Hentry. }
  reflexivity.
Qed.

End PredecessorChecks.

Section Identity.

Context {World : Type} `{!Network World}.
Variable HASH_BIT_LENGTH : nat.
Variable isInModuloRange : ident -> ident -> bool -> ident -> bool -> bool.
Variable computeHostPortHash : option string -> option Z -> ident.

(** ** What maintenance never changes *)

Section Fixed.

Variable fixed :
  ident * option string * option Z * (ident * option string * option Z)
  * list ident.

Lemma keeps_fixed_checkPredecessor :
  keeps (unchanged fixed_part fixed) (@checkPredecessor World _).
Proof. unfold checkPredecessor. repeat keeps_unchanged_step. Qed.

Lemma keeps_fixed_stabilizeSelf :
  keeps (unchanged fixed_part fixed) (@stabilizeSelf World _).
Proof.
  unfold stabilizeSelf.
  repeat first [apply keeps_fixed_checkPredecessor | keeps_unchanged_step].
Qed.

Lemma keeps_fixed_pruneHead (fuel : nat) (ok : bool) :
  keeps (unchanged fixed_part fixed) (@pruneHead World _ fuel ok).
Proof.
  revert ok. induction fuel as [|fuel IH]; intros ok; simpl;
    repeat first [apply IH | keeps_unchanged_step].
Qed.

Lemma keeps_fixed_extend_loop (fuel i : nat) :
  keeps (unchanged fixed_part fixed) (extend_loop HASH_BIT_LENGTH isInModuloRange fuel i).
Proof.
  revert i. induction fuel as [|fuel IH]; intros i; simpl;
    unfold extend_slot, extend_test;
    repeat first [apply IH | keeps_unchanged_step].
Qed.

Lemma keeps_fixed_pruneTail (i : nat) (ok : bool) :
  keeps (unchanged fixed_part fixed) (@pruneTail World _ HASH_BIT_LENGTH i ok).
Proof.
  revert ok. induction i as [|i IH]; intros ok; simpl;
    repeat first [apply IH | keeps_unchanged_step].
Qed.

Lemma keeps_fixed_updateSuccessorTable :
  keeps (unchanged fixed_part fixed) (updateSuccessorTable HASH_BIT_LENGTH isInModuloRange).
Proof.
  unfold updateSuccessorTable, updateSuccessorTable_head,
    updateSuccessorTable_isolated, updateSuccessorTable_extend,
    updateSuccessorTable_tail.
  repeat first [apply keeps_fixed_pruneHead | apply keeps_fixed_extend_loop
               | apply keeps_fixed_pruneTail | keeps_unchanged_step].
Qed.

Lemma keeps_fixed_stabilize :
  keeps (unchanged fixed_part fixed) (stabilize HASH_BIT_LENGTH isInModuloRange).
Proof.
  unfold stabilize.
  repeat first [apply keeps_fixed_stabilizeSelf
               | apply keeps_fixed_updateSuccessorTable | keeps_unchanged_step].
Qed.

Lemma keeps_fixed_fixFingers (r : Q) :
  keeps (unchanged fixed_part fixed) (fixFingers HASH_BIT_LENGTH isInModuloRange r).
Proof. unfold fixFingers. repeat keeps_unchanged_step. Qed.

Lemma keeps_fixed_updateFingerTable (sNode : Node) (fingerIndex : nat) :
  keeps (unchanged fixed_part fixed) (updateFingerTable isInModuloRange sNode fingerIndex).
Proof. unfold updateFingerTable. repeat keeps_unchanged_step. Qed.

End Fixed.

(** X6. Maintenance never changes the identity of a node: from any state,
    whatever sequence of periodic tasks ([stabilize], [fixFingers],
    [checkPredecessor]), handlers ([updateFingerTable], [setPredecessor],
    [notify]) and network moves follows, and whatever their outcomes, the
    node keeps its id, host and port, the identifier and address of its known
    peer, the number of its fingers and the start of each finger. *)
Theorem maintained_identity (s0 s : ChordNode * World) :
  maintained HASH_BIT_LENGTH isInModuloRange s0 s ->
  fixed_part (fst s) = fixed_part (fst s0)
  /\ length (ChordNode.fingerTable (fst s)) = length (ChordNode.fingerTable (fst s0)).
Proof.
  intros Hs.
  assert (Hfixed : unchanged fixed_part (fixed_part (fst s0)) s).
  { induction Hs as
      [| this w w' _ IH | s _ IH | r s _ IH | s _ IH
       | sNode fingerIndex s _ IH | message this w _ IH | message this w _ IH].
    - reflexivity.
    - exact IH.
    - now apply keeps_fixed_stabilize.
    - now apply keeps_fixed_fixFingers.
    - now apply keeps_fixed_checkPredecessor.
    - now apply keeps_fixed_updateFingerTable.
    - exact IH.
    - unfold unchanged, notify in *. cbn [fst] in *.
      now destruct (notify_test _ _ _). }
  split; [exact Hfixed |].
  unfold unchanged, fixed_part, starts in Hfixed.
  injection Hfixed as _ _ _ _ _ _ Hstarts.
  apply (f_equal length) in Hstarts. now rewrite !length_map in Hstarts.
Qed.

End Identity.

Section FingerUpdates.

Context {World : Type} `{!Network World}.
Variable HASH_BIT_LENGTH : nat.
Variable isInModuloRange : ident -> ident -> bool -> ident -> bool -> bool.
Variable computeHostPortHash : option string -> option Z -> ident.

(** ** updateOthers and updateFingerTable *)

Lemma updateOthers_loop_returns (k i : nat) (this : ChordNode) (w : World) :
  exists w',
    updateOthers_loop HASH_BIT_LENGTH isInModuloRange k i (this, w)
    = (Ok tt, (this, w')).
Proof.
  revert i w. induction k as [|k IH]; intros i w; [now exists w |].
  cbn [updateOthers_loop]. unfold bind at 1. unfold getThis at 1. cbn [fst snd].
  cbv zeta.
  destruct (try_liftW_run
              (findPredecessor HASH_BIT_LENGTH isInModuloRange this
                 (Some (Z.rem (toNumber (ChordNode.id this) - 2 ^ Z.of_nat i
                               + 2 ^ Z.of_nat HASH_BIT_LENGTH)
                          (2 ^ Z.of_nat HASH_BIT_LENGTH))))
              NULL_NODE this w
              (noexit_findPredecessor HASH_BIT_LENGTH isInModuloRange _ _))
    as (pNode & w1 & Hfind).
  rewrite (bind_ok _ _ _ _ _ Hfind).
  destruct (negb (ident_eqb (ChordNode.id this) (Node.id pNode))).
  - unfold connect, deref. unfold bind at 2.
    unfold ret at 1.
    destruct (try_liftW_run
                (await (rpc_updateFingerTable pNode (encapsulateSelf this) i))
                tt this w1 (noexit_await _)) as ([] & w2 & Hcall).
    rewrite (bind_ok _ _ _ _ _ Hcall). apply IH.
  - unfold bind at 1. unfold ret at 1. apply IH.
Qed.


(** X8. The handler [updateFingerTable] on a finger that has a successor [s]:
    when [sNode.id] is inside [[this.id, s.id)] the node adopts [sNode] as the
    successor of that finger, changes nothing else, and passes the request
    on to its predecessor, whose answer (or failure) is ignored; otherwise
    the node is unchanged and no request is sent. *)
Theorem updateFingerTable_adopts_and_forwards (this : ChordNode) (w : World)
    (sNode : Node) (fingerIndex : nat) (entry : FingerTableEntry) (s : Node) :
  ChordNode.fingerTable this !! fingerIndex = Some entry ->
  successor entry = Some s ->
  updateFingerTable isInModuloRange sNode fingerIndex (this, w)
  = if isInModuloRange (Node.id sNode) (ChordNode.id this) true (Node.id s) false
    then (Ok tt,
          (set_fingerTable
             (<[fingerIndex := mkFinger (start entry) (Some sNode)]>
                (ChordNode.fingerTable this)) this,
           snd (rpc_updateFingerTable (ChordNode.predecessor this) sNode
                  fingerIndex w)))
    else (Ok tt, (this, w)).
Proof.
  intros Hentry Hs. unfold updateFingerTable.
  unfold bind at 1. unfold getThis at 1. cbn [fst snd].
  rewrite Hentry. unfold deref at 1. unfold bind at 1. unfold ret at 1.
  rewrite Hs. unfold deref at 1. unfold bind at 1. unfold ret at 1.
  destruct (isInModuloRange _ _ _ _ _); [| reflexivity].
  unfold bind at 1.
  rewrite (setFingerSuccessor_run _ _ _ entry) by exact Hentry.
  cbn [fst snd]. unfold connect, deref, bind, ret, try_catch, liftW, await.
  cbn [fst snd].
  now destruct (rpc_updateFingerTable _ _ _ _) as [[[]|] w'].
Qed.

End FingerUpdates.

Section Stabilize.

Context {World : Type} `{!Network World}.
Variable HASH_BIT_LENGTH : nat.
Variable isInModuloRange : ident -> ident -> bool -> ident -> bool -> bool.
Variable computeHostPortHash : option string -> option Z -> ident.

(** ** stabilize *)

Lemma successor_known_insert (this : ChordNode) (entry : FingerTableEntry)
    (x : Node) :
  ChordNode.fingerTable this !! 0%nat = Some entry ->
  successor_known
    (set_fingerTable
       (<[0%nat := mkFinger (start entry) (Some x)]> (ChordNode.fingerTable this))
       this).
Proof.
  intros Hentry. exists (mkFinger (start entry) (Some x)), x. split; [| reflexivity].
  cbn. apply list_lookup_insert_eq. now apply lookup_lt_Some in Hentry.
Qed.

(** [stabilizeSelf] returns, and finger 0 still has a successor. *)
Lemma stabilizeSelf_returns (this : ChordNode) (w : World) :
  successor_known this ->
  exists b this' w',
    stabilizeSelf (this, w) = (Ok b, (this', w')) /\ successor_known this'.
Proof.
  intros (entry & n & Hentry & Hn). unfold stabilizeSelf.
  unfold bind at 1. unfold getThis at 1. cbn [fst snd].
  destruct (ident_eqb (Node.id (ChordNode.predecessor this)) None) eqn:Hnull.
  { exists false, this, w. split; [reflexivity | now exists entry, n]. }
  destruct (iAmMyOwnPredecessor this) eqn:Hown; cbn [negb].
  { exists true, this, w. split; [reflexivity | now exists entry, n]. }
  unfold bind at 1. unfold try_catch at 1. rewrite checkPredecessor_run.
  rewrite Hnull, Hown. cbn [negb andb].
  destruct (rpc_getPredecessor (ChordNode.predecessor this) w) as [[reply|] w'].
  - unfold bind at 1. unfold bind at 1. unfold getThis at 1. cbn [fst snd].
    unfold bind at 1.
    rewrite (setFingerSuccessor_run _ _ _ entry) by exact Hentry.
    cbn [fst snd].
    rewrite (mirrorSuccessor_run _ (mkFinger (start entry) (Some (ChordNode.predecessor this)))).
    + exists true. eexists _, w'. split; [reflexivity |].
      destruct (successor_known_insert this entry (ChordNode.predecessor this) Hentry)
        as (e & x & He & Hx).
      now exists e, x.
    + cbn. apply list_lookup_insert_eq. now apply lookup_lt_Some in Hentry.
  - exists false. eexists _, w'. split; [reflexivity |]. now exists entry, n.
Qed.

(** With a successor in finger 0, [stabilize] returns [true]. *)
Lemma stabilize_ends_defined (this : ChordNode) (w : World)
    (entry : FingerTableEntry) (s : Node) :
  ChordNode.fingerTable this !! 0%nat = Some entry ->
  successor entry = Some s ->
  exists s', stabilize HASH_BIT_LENGTH isInModuloRange (this, w) = (Ok true, s').
Proof.
  intros Hentry Hs.
  unfold stabilize.
  erewrite bind_ok.
  2:{ unfold try_catch. rewrite bind_getThis. cbn [fst]. rewrite Hentry, bind_deref, Hs.
      rewrite bind_ret. unfold connect. rewrite bind_deref. reflexivity. }
  cbv beta iota.
  rewrite bind_getThis. cbn [fst]. rewrite Hentry, bind_deref, Hs, bind_deref.
  assert (Hx : exists x this1 w1,
    (if ident_eqb (Node.id s) (ChordNode.id this)
     then stabilizeSelf;; ret (encapsulateSelf this)
     else try_catch (liftW (await (rpc_getPredecessor s)))
            (ret (encapsulateSelf this))) (this, w)
    = (Ok x, (this1, w1)) /\ successor_known this1).
  { destruct (ident_eqb _ _).
    - destruct (stabilizeSelf_returns this w) as (b & this1 & w1 & Hrun & Hk);
        [now exists entry, s |].
      exists (encapsulateSelf this), this1, w1. split; [| exact Hk].
      now rewrite (bind_ok _ _ _ _ _ Hrun).
    - destruct (try_liftW_run (await (rpc_getPredecessor s)) (encapsulateSelf this)
                  this w (noexit_await _)) as (x & w1 & Hrun).
      exists x, this, w1. split; [exact Hrun | now exists entry, s]. }
  destruct Hx as (x & this1 & w1 & Hrun & (entry1 & s1 & Hentry1 & Hs1)).
  rewrite (bind_ok _ _ _ _ _ Hrun).
  rewrite bind_getThis. cbn [fst]. rewrite Hentry1, bind_deref, Hs1, bind_deref.
  assert (Hset : exists this2,
    (if isInModuloRange (Node.id x) (ChordNode.id this1) false (Node.id s1) false
     then setFingerSuccessor 0 (Some x) else ret tt) (this1, w1)
    = (Ok tt, (this2, w1)) /\ successor_known this2).
  { destruct (isInModuloRange _ _ _ _ _).
    - rewrite (setFingerSuccessor_run _ _ _ entry1) by exact Hentry1.
      eexists. split; [reflexivity |]. now apply successor_known_insert.
    - exists this1. split; [reflexivity | now exists entry1, s1]. }
  destruct Hset as (this2 & Hrun2 & (entry2 & s2 & Hentry2 & Hs2)).
  rewrite (bind_ok _ _ _ _ _ Hrun2).
  rewrite bind_getThis. cbn [fst]. rewrite Hentry2, bind_deref, Hs2, bind_deref.
  assert (Hnotify : exists w3,
    (if negb (ident_eqb (ChordNode.id this2) (Node.id s2))
     then
       let* successorClient := connect (Some s2) in
       try_catch
         (liftW (await (rpc_notify successorClient (encapsulateSelf this2))))
         (ret tt)
     else ret tt) (this2, w1) = (Ok tt, (this2, w3))).
  { destruct (negb _); [| now exists w1].
    unfold connect. rewrite bind_deref.
    destruct (try_liftW_run (await (rpc_notify s2 (encapsulateSelf this2))) tt
                this2 w1 (noexit_await _)) as ([] & w3 & Hrun3).
    now exists w3. }
  destruct Hnotify as (w3 & Hrun3). rewrite (bind_ok _ _ _ _ _ Hrun3).
  destruct (try_catch_returns
              (updateSuccessorTable HASH_BIT_LENGTH isInModuloRange;; ret tt) tt)
    with (s := (this2, w3)) as ([] & s4 & Hrun4).
  { apply noexit_bind; [apply noexit_updateSuccessorTable | intros ?; apply noexit_ret]. }
  rewrite (bind_ok _ _ _ _ _ Hrun4). now exists s4.
Qed.

(** How [stabilize] ends when it runs alone.  It returns [false], having
    done nothing, when the finger table is empty; it ends the process with
    code -9, having done nothing, when finger 0 has lost its successor; in
    every other state it returns [true], whatever the peers answer. *)
Lemma stabilize_ends_atomic (this : ChordNode) (w : World) :
  match ChordNode.fingerTable this !! 0%nat with
  | None => stabilize HASH_BIT_LENGTH isInModuloRange (this, w) = (Ok false, (this, w))
  | Some entry =>
      match successor entry with
      | None =>
          stabilize HASH_BIT_LENGTH isInModuloRange (this, w) = (Exit (-9), (this, w))
      | Some _ =>
          exists s', stabilize HASH_BIT_LENGTH isInModuloRange (this, w) = (Ok true, s')
      end
  end.
Proof.
  destruct (ChordNode.fingerTable this !! 0%nat) as [entry|] eqn:Hentry.
  2:{ unfold stabilize, bind, try_catch, getThis, deref, ret, throw. cbn [fst snd].
      now rewrite Hentry. }
  destruct (successor entry) as [s|] eqn:Hs.
  2:{ unfold stabilize, bind, try_catch, getThis, deref, ret, throw, process_exit.
      cbn [fst snd]. now rewrite Hentry, Hs. }
  now apply (stabilize_ends_defined this w entry s).
Qed.

End Stabilize.

Section SuccessorTableSize.

Context {World : Type} `{!Network World}.
Variable HASH_BIT_LENGTH : nat.
Variable isInModuloRange : ident -> ident -> bool -> ident -> bool -> bool.
Variable computeHostPortHash : option string -> option Z -> ident.

(** ** The size of the successor table *)

Lemma pruneTail_cap (i : nat) (ok b : bool) (s s' : ChordNode * World) :
  (length (ChordNode.successorTable (fst s)) <= S i)%nat
  \/ (ok = true /\ (length (ChordNode.successorTable (fst s)) <= HASH_BIT_LENGTH)%nat) ->
  pruneTail HASH_BIT_LENGTH i ok s = (Ok b, s') ->
  (length (ChordNode.successorTable (fst s')) <= Nat.max HASH_BIT_LENGTH 1)%nat.
Proof.
  revert ok s. induction i as [|i IH]; intros ok [this w] Hinv Hrun.
  - injection Hrun as _ <-. cbn [fst] in *. lia.
  - cbn [pruneTail] in Hrun. rewrite bind_getThis in Hrun. cbn [fst] in *.
    destruct (negb ok || (HASH_BIT_LENGTH <? length (ChordNode.successorTable this))%nat)
      eqn:Hguard.
    2:{ injection Hrun as _ <-. apply orb_false_iff in Hguard as [_ Hlen].
        apply Nat.ltb_ge in Hlen. cbn [fst]. lia. }
    assert (Hi : (length (ChordNode.successorTable this) <= S (S i))%nat).
    { destruct Hinv as [Hlen | [-> Hlen]]; [exact Hlen |].
      cbn [negb orb] in Hguard. apply Nat.ltb_lt in Hguard. lia. }
    match type of Hrun with context [bind (try_catch ?c ?h) _ _] =>
      destruct (try_readonly_run c false this w) as (ok' & w' & Hprobe)
    end.
    { repeat readonly_step. }
    { repeat noexit_step. apply noexit_getSuccessor. }
    rewrite (bind_ok _ _ _ _ _ Hprobe) in Hrun.
    destruct (negb ok' || (HASH_BIT_LENGTH <=? S i)%nat) eqn:Hpop.
    + rewrite bind_modify in Hrun. apply IH in Hrun; [exact Hrun |].
      left. cbn. rewrite length_pop. lia.
    + rewrite bind_ret in Hrun. apply IH in Hrun; [exact Hrun |].
      right. apply orb_false_iff in Hpop as [Hok' Hle]. apply Nat.leb_gt in Hle.
      split; [now destruct ok' | cbn [fst]; lia].
Qed.

(** When a call of [updateSuccessorTable] that runs alone returns, the
    successor table holds at most [HASH_BIT_LENGTH] entries (at most one when
    [HASH_BIT_LENGTH] is 0), however long it was before and whatever the
    peers answered. *)
Lemma updateSuccessorTable_length_cap_atomic (this : ChordNode) (w : World) (b : bool)
    (s' : ChordNode * World) :
  updateSuccessorTable HASH_BIT_LENGTH isInModuloRange (this, w) = (Ok b, s') ->
  (length (ChordNode.successorTable (fst s')) <= Nat.max HASH_BIT_LENGTH 1)%nat.
Proof.
  unfold updateSuccessorTable. intros Hrun.
  apply bind_ok_inv in Hrun as (b1 & s1 & _ & Hrun).
  apply bind_ok_inv in Hrun as ([] & s2 & _ & Hrun).
  apply bind_ok_inv in Hrun as ([] & s3 & _ & Hrun).
  unfold updateSuccessorTable_tail in Hrun. rewrite bind_getThis in Hrun.
  apply pruneTail_cap in Hrun; [exact Hrun |]. left. lia.
Qed.

(** ** A node whose successors are all gone *)

Lemma ident_eqb_sym (a b : ident) : ident_eqb a b = ident_eqb b a.
Proof.
  destruct (ident_eqb b a) eqn:Hba.
  - apply ident_eqb_eq in Hba as ->. apply ident_eqb_refl.
  - destruct (ident_eqb a b) eqn:Hab; [| reflexivity].
    apply ident_eqb_eq in Hab as ->. now rewrite ident_eqb_refl in Hba.
Qed.

(** With no peer answering, the check of a successor that is not the node
    itself fails. *)
Lemma checkSuccessor_dead (this : ChordNode) (w : World) (entry : FingerTableEntry) :
  successors_unreachable ->
  ChordNode.fingerTable this !! 0%nat = Some entry ->
  not_self (ChordNode.id this) (successor entry) ->
  exists w',
    try_catch (liftW (checkSuccessor this)) (ret false) (this, w)
    = (Ok false, (this, w')).
Proof.
  intros Hdead Hentry Hother. unfold try_catch, liftW. cbn [fst snd].
  unfold checkSuccessor. rewrite Hentry, bind_deref.
  destruct (successor entry) as [n|] eqn:Hn; [| now exists w].
  rewrite bind_deref.
  destruct (ident_eqb (Node.id n) None); [now exists w |].
  rewrite (Hother n eq_refl).
  unfold try_catch, bind. rewrite getSuccessor_remote
    by (rewrite ident_eqb_sym; exact (Hother n eq_refl)).
  specialize (Hdead n n w).
  destruct (rpc_getSuccessorRemoteHelper n n w) as [[r|] w']; [discriminate |].
  now exists w'.
Qed.

Lemma pruneHead_all_dead (fuel : nat) (this : ChordNode) (w : World)
    (entry : FingerTableEntry) :
  successors_unreachable ->
  ChordNode.fingerTable this !! 0%nat = Some entry ->
  not_self (ChordNode.id this) (successor entry) ->
  Forall (not_self (ChordNode.id this)) (ChordNode.successorTable this) ->
  (1 <= length (ChordNode.successorTable this) <= fuel)%nat ->
  exists w',
    pruneHead fuel false (this, w)
    = (Ok false,
       (set_successorTable []
          (set_fingerTable
             (<[0%nat := mkFinger (start entry) None]> (ChordNode.fingerTable this))
             this), w')).
Proof.
  intros Hdead. revert this w entry.
  induction fuel as [|fuel IH]; intros this w entry Hentry Hother Htable Hlen; [lia |].
  rewrite pruneHead_unfold. cbn [fst negb andb].
  destruct (0 <? length (ChordNode.successorTable this))%nat eqn:Hpos;
    [| apply Nat.ltb_ge in Hpos; lia].
  destruct (checkSuccessor_dead this w entry Hdead Hentry Hother) as (w' & Hcheck).
  rewrite (bind_ok _ _ _ _ _ Hcheck).
  rewrite bind_bind, bind_modify. cbv beta.
  rewrite bind_bind, bind_getThis. cbv beta. cbn [fst snd].
  erewrite bind_ok; [| now apply (setFingerSuccessor_run _ _ _ entry)].
  cbn [fst snd].
  destruct (ChordNode.successorTable this) as [|head tail] eqn:Htab; [simpl in Hlen; lia |].
  unfold shift. cbn [drop].
  apply Forall_cons in Htable as [_ Htail].
  destruct tail as [|next tail].
  - rewrite pruneHead_unfold. cbn. now exists w'.
  - match goal with |- context [pruneHead fuel false (?n, w')] =>
      destruct (IH n w' (mkFinger (start entry) next)) as (w'' & Hrun)
    end.
    + cbn. apply list_lookup_insert_eq. now apply lookup_lt_Some in Hentry.
    + cbn. intros n ->. now apply (Forall_inv Htail).
    + exact Htail.
    + cbn in *. lia.
    + exists w''. rewrite Hrun. cbn. now rewrite list_insert_insert_eq.
Qed.

(** X11. A node all of whose successors are gone.  When no peer answers, the
    successor of finger 0 and every entry of a non-empty successor table is
    some node other than the node itself (or is missing), and
    [HASH_BIT_LENGTH >= 2], [updateSuccessorTable] throws, and it leaves the
    node with itself as its only successor-table entry and with finger 0
    holding no successor at all; the next [stabilize] then ends the process
    with code -9. *)
Theorem updateSuccessorTable_orphans_node (this : ChordNode) (w : World)
    (entry : FingerTableEntry) :
  successors_unreachable ->
  (2 <= HASH_BIT_LENGTH)%nat ->
  ChordNode.fingerTable this !! 0%nat = Some entry ->
  not_self (ChordNode.id this) (successor entry) ->
  Forall (not_self (ChordNode.id this)) (ChordNode.successorTable this) ->
  (1 <= length (ChordNode.successorTable this))%nat ->
  let this' :=
    set_successorTable [Some (encapsulateSelf this)]
      (set_fingerTable
         (<[0%nat := mkFinger (start entry) None]> (ChordNode.fingerTable this))
         this) in
  exists w',
    updateSuccessorTable HASH_BIT_LENGTH isInModuloRange (this, w)
    = (Throw, (this', w'))
    /\ forall w'',
         stabilize HASH_BIT_LENGTH isInModuloRange (this', w'')
         = (Exit (-9), (this', w'')).
Proof.
  intros Hdead Hm Hentry Hother Htable Hlen. cbv zeta.
  assert (Hentry' :
    <[0%nat := mkFinger (start entry) None]> (ChordNode.fingerTable this) !! 0%nat
    = Some (mkFinger (start entry) None)).
  { apply list_lookup_insert_eq. now apply lookup_lt_Some in Hentry. }
  destruct (checkSuccessor_dead this w entry Hdead Hentry Hother) as (w1 & Hcheck).
  destruct (pruneHead_all_dead (length (ChordNode.successorTable this)) this w1 entry
              Hdead Hentry Hother Htable) as (w2 & Hprune); [lia |].
  exists w2. split.
  - unfold updateSuccessorTable.
    erewrite bind_ok.
    2:{ unfold updateSuccessorTable_head. rewrite bind_getThis. cbn [fst].
        rewrite (bind_ok _ _ _ _ _ Hcheck). exact Hprune. }
    erewrite bind_ok.
    2:{ unfold updateSuccessorTable_isolated. rewrite bind_getThis. reflexivity. }
    apply bind_throw. unfold updateSuccessorTable_extend.
    rewrite bind_getThis. cbn [fst]. apply bind_throw.
    cbn [ChordNode.successorTable ChordNode.fingerTable set_successorTable
           set_fingerTable app length].
    destruct (1 <? HASH_BIT_LENGTH)%nat eqn:Hshort; [| apply Nat.ltb_ge in Hshort; lia].
    rewrite Hentry'. reflexivity.
  - intros w''. unfold stabilize, bind, try_catch, getThis, deref, ret, throw, process_exit.
    cbn [fst snd ChordNode.fingerTable set_successorTable set_fingerTable].
    now rewrite Hentry'.
Qed.

End SuccessorTableSize.

Section Join.

Context {World : Type} `{!Network World}.
Variable HASH_BIT_LENGTH : nat.
Variable isInModuloRange : ident -> ident -> bool -> ident -> bool -> bool.
Variable computeHostPortHash : option string -> option Z -> ident.

(** ** joinCluster on a new node *)

(** [joinCluster] on a node as the constructor builds it, up to the test for
    joining a known peer: the falsy identifiers are replaced by hashes, the
    process ends on a collision, and otherwise the finger table is filled
    with [HASH_BIT_LENGTH] entries that point to the node itself. *)
Lemma joinCluster_prologue (id : ident) (host : option string) (port : option Z)
    (knownId : ident) (knownHost : option string) (knownPort : option Z)
    (this : ChordNode) (w : World) :
  ChordNode_constructor id host port knownId knownHost knownPort = Ok this ->
  let id' := if truthy id then id else computeHostPortHash host port in
  let knownId' :=
    if truthy knownId then knownId
    else computeHostPortHash (ChordNode.knownHost this) (ChordNode.knownPort this) in
  let ready :=
    ChordNode.mk id' host port knownId' (ChordNode.knownHost this)
      (ChordNode.knownPort this)
      (map (fun i : nat =>
              mkFinger (Some (Z.rem (toNumber id' + 2 ^ Z.of_nat i)
                                (2 ^ Z.of_nat HASH_BIT_LENGTH)))
                (Some (Node.mk id' host port)))
         (seq 0 HASH_BIT_LENGTH))
      [Some NULL_NODE] NULL_NODE in
  joinCluster HASH_BIT_LENGTH isInModuloRange computeHostPortHash (this, w)
  = if (bool_decide (host <> ChordNode.knownHost this)
        || bool_decide (port <> ChordNode.knownPort this))
       && ident_eqb id' knownId'
    then (Exit (-9),
          (ChordNode.mk id' host port knownId' (ChordNode.knownHost this)
             (ChordNode.knownPort this) [mkFinger None (Some NULL_NODE)]
             [Some NULL_NODE] NULL_NODE, w))
    else
      ((if truthy knownId' && negb (ident_eqb id' knownId') then
          initFingerTable HASH_BIT_LENGTH isInModuloRange
            (Node.mk knownId' (ChordNode.knownHost this) (ChordNode.knownPort this));;
          updateOthers HASH_BIT_LENGTH isInModuloRange
        else modify (fun n => set_predecessor (encapsulateSelf n) n));;
       try_catch migrateKeysAfterJoin (ret tt);;
       mirrorSuccessor) (ready, w).
Proof.
  intros Hnew. cbv zeta.
  unfold ChordNode_constructor in Hnew.
  destruct (_ || _) in Hnew; [discriminate |]. injection Hnew as <-.
  cbn [ChordNode.knownHost ChordNode.knownPort] in *.
  set (known := if negb (truthy_string knownHost) || negb (truthy knownPort)
                then (host, port) else (knownHost, knownPort)) in *.
  unfold joinCluster, joinsKnownPeer.
  rewrite bind_getThis. cbn [fst ChordNode.id].
  destruct (truthy id) eqn:Hid; destruct (truthy knownId) eqn:Hkid;
    cbn [negb]; rewrite ?bind_modify, ?bind_ret, bind_getThis;
    cbn [fst snd set_id ChordNode.id ChordNode.host ChordNode.port
         ChordNode.knownId ChordNode.knownHost ChordNode.knownPort
         ChordNode.fingerTable ChordNode.successorTable ChordNode.predecessor];
    rewrite ?Hkid; cbn [negb]; rewrite ?bind_modify, ?bind_ret, bind_getThis;
    cbn [fst snd set_id set_knownId ChordNode.id ChordNode.host ChordNode.port
         ChordNode.knownId ChordNode.knownHost ChordNode.knownPort
         ChordNode.fingerTable ChordNode.successorTable ChordNode.predecessor];
    (destruct (_ && ident_eqb _ _); [reflexivity |]);
    rewrite bind_ret, !bind_modify, bind_getThis;
    cbn [fst snd set_id set_knownId set_fingerTable ChordNode.id ChordNode.host
         ChordNode.port ChordNode.knownId ChordNode.knownHost ChordNode.knownPort
         ChordNode.fingerTable ChordNode.successorTable ChordNode.predecessor];
    rewrite ?Hkid; reflexivity.
Qed.

(** X12. The first node of a ring.  Take a node as the constructor builds it
    and let [id'] and [knownId'] be its two identifiers once [joinCluster] has
    replaced the falsy ones by the hash of the address.  When the test for
    joining a known peer fails and the two addresses do not collide, and
    [HASH_BIT_LENGTH >= 1], [joinCluster] returns without sending a single
    request, and the node is alone in its ring: it is its own predecessor,
    every one of its [HASH_BIT_LENGTH] fingers points to itself, and its
    successor table is itself.  The ring has at most 47 bits and [id'] is on
    it, so that the starts of the fingers, [(id' + 2^i) mod 2^m], are
    computed exactly. *)
Theorem joinCluster_first_node (id : ident) (host : option string) (port : option Z)
    (knownId : ident) (knownHost : option string) (knownPort : option Z)
    (this : ChordNode) (w : World) :
  (1 <= HASH_BIT_LENGTH)%nat ->
  ChordNode_constructor id host port knownId knownHost knownPort = Ok this ->
  let id' := if truthy id then id else computeHostPortHash host port in
  let knownId' :=
    if truthy knownId then knownId
    else computeHostPortHash (ChordNode.knownHost this) (ChordNode.knownPort this) in
  small_ring HASH_BIT_LENGTH ->
  on_ring HASH_BIT_LENGTH id' ->
  truthy knownId' && negb (ident_eqb id' knownId') = false ->
  (bool_decide (host <> ChordNode.knownHost this)
   || bool_decide (port <> ChordNode.knownPort this))
  && ident_eqb id' knownId' = false ->
  let self := Node.mk id' host port in
  let first :=
    ChordNode.mk id' host port knownId' (ChordNode.knownHost this)
      (ChordNode.knownPort this)
      (map (fun i : nat =>
              mkFinger (Some (Z.rem (toNumber id' + 2 ^ Z.of_nat i)
                                (2 ^ Z.of_nat HASH_BIT_LENGTH)))
                (Some self))
         (seq 0 HASH_BIT_LENGTH))
      [Some self] self in
  joinCluster HASH_BIT_LENGTH isInModuloRange computeHostPortHash (this, w)
  = (Ok tt, (first, w))
  /\ (is_Some id' -> lone first).
Proof.
  intros Hm Hnew. cbv zeta. intros _ _ Hfirst Hdistinct. split.
  - rewrite (joinCluster_prologue _ _ _ _ _ _ _ _ Hnew). cbv zeta.
    rewrite Hdistinct, Hfirst, bind_modify.
    destruct HASH_BIT_LENGTH as [|m]; [lia |]. reflexivity.
  - intros Hid. split; [exact Hid |]. split; [reflexivity |]. split; [reflexivity |].
    split.
    + cbn. destruct HASH_BIT_LENGTH as [|m]; [lia | discriminate].
    + unfold fingers_all. cbn. apply Forall_fmap, Forall_true. now intros i.
Qed.

Lemma noexit_initFingerTable_loop (k i : nat) (nPrime : Node) :
  noexit (initFingerTable_loop HASH_BIT_LENGTH isInModuloRange k i nPrime).
Proof.
  revert i. induction k as [|k IH]; intros i; simpl;
    repeat first [apply IH | apply noexit_findSuccessor | noexit_node_step].
Qed.

Lemma noexit_updateOthers_loop (k i : nat) :
  noexit (updateOthers_loop HASH_BIT_LENGTH isInModuloRange k i).
Proof.
  revert i. induction k as [|k IH]; intros i; simpl;
    repeat first [apply IH | apply noexit_findPredecessor | noexit_node_step].
Qed.

Lemma keeps_fixed_initFingerTable_loop (fixed : _) (k i : nat) (nPrime : Node) :
  keeps (unchanged fixed_part fixed)
    (initFingerTable_loop HASH_BIT_LENGTH isInModuloRange k i nPrime).
Proof.
  revert i. induction k as [|k IH]; intros i; simpl;
    repeat first [apply IH | keeps_unchanged_step].
Qed.

Lemma keeps_fixed_updateOthers_loop (fixed : _) (k i : nat) :
  keeps (unchanged fixed_part fixed)
    (updateOthers_loop HASH_BIT_LENGTH isInModuloRange k i).
Proof.
  revert i. induction k as [|k IH]; intros i; simpl;
    repeat first [apply IH | keeps_unchanged_step].
Qed.

(** X13. When [joinCluster] ends the process.  On a node as the constructor
    builds it, [joinCluster] ends the process exactly when the node and its
    known peer have different addresses and the same identifier (after the
    falsy identifiers have been replaced by hashes); the code is -9, no
    request has been sent and the finger table has not been touched.  In
    every other case it never ends the process, whatever the peers answer. *)
Theorem joinCluster_exits_on_collision (id : ident) (host : option string)
    (port : option Z) (knownId : ident) (knownHost : option string)
    (knownPort : option Z) (this : ChordNode) (w : World) :
  ChordNode_constructor id host port knownId knownHost knownPort = Ok this ->
  let id' := if truthy id then id else computeHostPortHash host port in
  let knownId' :=
    if truthy knownId then knownId
    else computeHostPortHash (ChordNode.knownHost this) (ChordNode.knownPort this) in
  let collision :=
    (bool_decide (host <> ChordNode.knownHost this)
     || bool_decide (port <> ChordNode.knownPort this))
    && ident_eqb id' knownId' in
  let run := joinCluster HASH_BIT_LENGTH isInModuloRange computeHostPortHash (this, w) in
  (collision = true
   /\ run = (Exit (-9),
             (ChordNode.mk id' host port knownId' (ChordNode.knownHost this)
                (ChordNode.knownPort this) (ChordNode.fingerTable this)
                (ChordNode.successorTable this) (ChordNode.predecessor this), w)))
  \/ (collision = false /\ forall code, fst run <> Exit code).
Proof.
  intros Hnew. cbv zeta.
  rewrite (joinCluster_prologue _ _ _ _ _ _ _ _ Hnew). cbv zeta.
  destruct (_ && ident_eqb _ _); [left | right]; (split; [reflexivity |]).
  - unfold ChordNode_constructor in Hnew.
    destruct (_ || _) in Hnew; [discriminate |]. now injection Hnew as <-.
  - match goal with |- forall code, fst (?c ?s) <> Exit code =>
      generalize s; change (noexit c)
    end.
    unfold initFingerTable, updateOthers, migrateKeysAfterJoin.
    repeat first [apply noexit_initFingerTable_loop | apply noexit_updateOthers_loop
                 | apply noexit_findSuccessor | noexit_node_step].
Qed.

(** X14. The fingers of a joined node, on a ring of at most 47 bits that
    holds the node's identifier [id'] (the arithmetic of [joinCluster] is
    then exact).  On a node as the constructor builds it, and unless the
    process ends on a collision, [joinCluster] leaves the node with exactly
    [HASH_BIT_LENGTH] fingers, finger [i] starting at
    [(id' + 2^i) mod 2^HASH_BIT_LENGTH]; this holds whatever the peers answer
    and whether [joinCluster] returns or throws. *)
Theorem joinCluster_finger_starts (id : ident) (host : option string)
    (port : option Z) (knownId : ident) (knownHost : option string)
    (knownPort : option Z) (this : ChordNode) (w : World) :
  ChordNode_constructor id host port knownId knownHost knownPort = Ok this ->
  let id' := if truthy id then id else computeHostPortHash host port in
  let knownId' :=
    if truthy knownId then knownId
    else computeHostPortHash (ChordNode.knownHost this) (ChordNode.knownPort this) in
  small_ring HASH_BIT_LENGTH ->
  on_ring HASH_BIT_LENGTH id' ->
  (bool_decide (host <> ChordNode.knownHost this)
   || bool_decide (port <> ChordNode.knownPort this))
  && ident_eqb id' knownId' = false ->
  let this' :=
    fst (snd (joinCluster HASH_BIT_LENGTH isInModuloRange computeHostPortHash
                (this, w))) in
  ChordNode.id this' = id'
  /\ length (ChordNode.fingerTable this') = HASH_BIT_LENGTH
  /\ starts this'
     = map (fun i : nat =>
              Some (Z.rem (toNumber id' + 2 ^ Z.of_nat i)
                      (2 ^ Z.of_nat HASH_BIT_LENGTH)))
         (seq 0 HASH_BIT_LENGTH).
Proof.
  intros Hnew. cbv zeta. intros _ _ Hdistinct.
  rewrite (joinCluster_prologue _ _ _ _ _ _ _ _ Hnew). cbv zeta. rewrite Hdistinct.
  match goal with |- context [snd (?c (?n, w))] =>
    assert (Hkeeps : keeps (unchanged fixed_part (fixed_part n)) c);
    [| pose proof (Hkeeps (n, w) eq_refl) as Hfixed;
       destruct (c (n, w)) as [r [this' w']] ]
  end.
  { unfold initFingerTable, updateOthers, migrateKeysAfterJoin.
    repeat first [apply keeps_fixed_initFingerTable_loop
                 | apply keeps_fixed_updateOthers_loop | keeps_unchanged_step].
    apply readonly_unchanged, readonly_throw. }
  unfold unchanged, fixed_part, starts in Hfixed. cbn in Hfixed.
  injection Hfixed as Hid _ _ _ _ _ Hstarts. cbn [fst snd].
  rewrite map_map in Hstarts. cbn in Hstarts.
  split; [exact Hid |]. split; [| exact Hstarts].
  apply (f_equal length) in Hstarts.
  now rewrite !length_map, length_seq in Hstarts.
Qed.

End Join.

Section LoneNode.

Context {World : Type} `{!Network World}.
Variable HASH_BIT_LENGTH : nat.
Variable isInModuloRange : ident -> ident -> bool -> ident -> bool -> bool.
Variable computeHostPortHash : option string -> option Z -> ident.

(** ** A node alone in its ring *)

Lemma set_fingerTable_id (n : ChordNode) :
  set_fingerTable (ChordNode.fingerTable n) n = n.
Proof. now destruct n. Qed.

Lemma set_successorTable_id (n : ChordNode) :
  set_successorTable (ChordNode.successorTable n) n = n.
Proof. now destruct n. Qed.

Section Lone.

Variable this : ChordNode.
Hypothesis Hlone : lone this.

Lemma lone_finger (i : nat) (entry : FingerTableEntry) :
  ChordNode.fingerTable this !! i = Some entry ->
  successor entry = Some (encapsulateSelf this).
Proof.
  destruct Hlone as (_ & _ & _ & _ & Hall). intros Hentry.
  exact (proj1 (Forall_lookup _ _) Hall i entry Hentry).
Qed.

Lemma lone_finger0 :
  exists entry,
    ChordNode.fingerTable this !! 0%nat = Some entry
    /\ successor entry = Some (encapsulateSelf this).
Proof.
  destruct Hlone as (_ & _ & _ & Hft & _).
  destruct (ChordNode.fingerTable this) as [|entry ft] eqn:Hfingers; [done |].
  exists entry. split; [reflexivity |]. apply (lone_finger 0). now rewrite Hfingers.
Qed.

Lemma lone_id_not_null : ident_eqb (ChordNode.id this) None = false.
Proof. destruct Hlone as ([x ->] & _). reflexivity. Qed.

Lemma lone_setFingerSuccessor (i : nat) (w : World) :
  is_Some (ChordNode.fingerTable this !! i) ->
  setFingerSuccessor i (Some (encapsulateSelf this)) (this, w) = (Ok tt, (this, w)).
Proof.
  intros [entry Hentry].
  rewrite (setFingerSuccessor_run _ _ _ entry) by exact Hentry. cbn [fst snd].
  rewrite <- (lone_finger i entry Hentry).
  replace (mkFinger (start entry) (successor entry)) with entry by now destruct entry.
  rewrite list_insert_id by exact Hentry. now rewrite set_fingerTable_id.
Qed.

Lemma lone_checkSuccessor (w : World) : checkSuccessor this w = (Ok true, w).
Proof.
  destruct lone_finger0 as (entry & Hentry & Hs).
  unfold checkSuccessor. rewrite Hentry, bind_deref, Hs, bind_deref.
  cbn [encapsulateSelf Node.id]. now rewrite lone_id_not_null, ident_eqb_refl.
Qed.

Lemma lone_updateSuccessorTable (w : World) :
  updateSuccessorTable HASH_BIT_LENGTH isInModuloRange (this, w)
  = (Ok false, (this, w)).
Proof.
  destruct lone_finger0 as (entry & Hentry & Hs).
  pose proof Hlone as (_ & _ & Htable & _).
  unfold updateSuccessorTable.
  erewrite bind_ok.
  2:{ unfold updateSuccessorTable_head. rewrite bind_getThis. cbn [fst].
      erewrite bind_ok;
        [| unfold try_catch; erewrite liftW_run by apply lone_checkSuccessor;
           reflexivity].
      cbv iota. erewrite bind_ok; [| now apply (mirrorSuccessor_run _ entry)].
      cbn [fst snd]. rewrite Hs, Htable. cbn [assign0]. rewrite <- Htable.
      rewrite set_successorTable_id. reflexivity. }
  erewrite bind_ok.
  2:{ unfold updateSuccessorTable_isolated. rewrite bind_getThis. cbn [fst].
      rewrite Htable. reflexivity. }
  erewrite bind_ok.
  2:{ unfold updateSuccessorTable_extend. rewrite bind_getThis. cbn [fst].
      erewrite bind_ok with (a := false); [reflexivity |].
      destruct (_ <? _)%nat; [| reflexivity].
      rewrite Hentry, bind_deref, Hs, bind_deref.
      cbn [encapsulateSelf Node.id]. now rewrite ident_eqb_refl. }
  unfold updateSuccessorTable_tail. rewrite bind_getThis. cbn [fst].
  rewrite Htable. reflexivity.
Qed.

Lemma lone_stabilizeSelf (w : World) : stabilizeSelf (this, w) = (Ok true, (this, w)).
Proof.
  pose proof Hlone as (_ & Hpred & _).
  unfold stabilizeSelf. rewrite bind_getThis. cbn [fst].
  unfold iAmMyOwnPredecessor. rewrite Hpred. cbn [encapsulateSelf Node.id].
  now rewrite lone_id_not_null, ident_eqb_refl.
Qed.

Lemma lone_stabilize (w : World) :
  stabilize HASH_BIT_LENGTH isInModuloRange (this, w) = (Ok true, (this, w)).
Proof.
  destruct lone_finger0 as (entry & Hentry & Hs).
  unfold stabilize.
  erewrite bind_ok.
  2:{ unfold try_catch. rewrite bind_getThis. cbn [fst]. rewrite Hentry, bind_deref, Hs.
      rewrite bind_ret. unfold connect. rewrite bind_deref. reflexivity. }
  cbv beta iota.
  rewrite bind_getThis. cbn [fst]. rewrite Hentry, bind_deref, Hs, bind_deref.
  cbn [encapsulateSelf Node.id]. rewrite ident_eqb_refl.
  rewrite bind_bind, (bind_ok _ _ _ _ _ (lone_stabilizeSelf w)), bind_ret.
  rewrite bind_getThis. cbn [fst]. rewrite Hentry, bind_deref, Hs, bind_deref.
  erewrite bind_ok with (a := tt) (s' := (this, w)).
  2:{ destruct (isInModuloRange _ _ _ _ _); [| reflexivity].
      apply lone_setFingerSuccessor. now exists entry. }
  rewrite bind_getThis. cbn [fst]. rewrite Hentry, bind_deref, Hs, bind_deref.
  cbn [encapsulateSelf Node.id]. rewrite ident_eqb_refl. cbn [negb].
  rewrite bind_ret.
  erewrite bind_ok; [reflexivity |].
  unfold try_catch. now rewrite (bind_ok _ _ _ _ _ (lone_updateSuccessorTable w)).
Qed.

Lemma lone_findSuccessor (id : ident) (w : World) :
  findSuccessor HASH_BIT_LENGTH isInModuloRange this id (Some (encapsulateSelf this)) w
  = (Ok (Some (encapsulateSelf this)), w).
Proof.
  destruct lone_finger0 as (entry & Hentry & Hs).
  destruct Hlone as ([x Hid] & _).
  now apply (findSuccessor_own_successor HASH_BIT_LENGTH isInModuloRange this id
               (encapsulateSelf this) (encapsulateSelf this) entry x w).
Qed.

Lemma lone_fixFingers (r : Q) (w : World) :
  fixFingers HASH_BIT_LENGTH isInModuloRange r (this, w) = (Ok tt, (this, w)).
Proof.
  unfold fixFingers. cbv zeta. unfold try_catch. rewrite bind_getThis. cbn [fst].
  destruct (index_Z (ChordNode.fingerTable this) (randomId HASH_BIT_LENGTH r))
    as [entry|] eqn:Hidx; [| reflexivity].
  rewrite bind_deref.
  erewrite bind_ok; [| apply liftW_run, lone_findSuccessor].
  rewrite bind_deref. cbn [encapsulateSelf Node.id]. rewrite lone_id_not_null.
  cbn [negb]. apply index_Z_lookup in Hidx.
  rewrite lone_setFingerSuccessor; [reflexivity | now exists entry].
Qed.

Lemma lone_checkPredecessor (w : World) :
  checkPredecessor (this, w) = (Ok true, (this, w)).
Proof.
  pose proof Hlone as (_ & Hpred & _).
  rewrite checkPredecessor_run. unfold iAmMyOwnPredecessor.
  rewrite Hpred. cbn [encapsulateSelf Node.id]. now rewrite ident_eqb_refl, andb_false_r.
Qed.

End Lone.

(** X15. A node that is alone in its ring stays as it is and stays silent:
    each periodic task ([stabilize], [fixFingers] whatever its random draw,
    [checkPredecessor]) returns with the node unchanged and without a single
    request sent, and every lookup addressed to the node is answered with the
    node itself, again without a request. *)
Theorem lone_node_is_stable (this : ChordNode) (w : World) (r : Q) (id : ident) :
  lone this ->
  stabilize HASH_BIT_LENGTH isInModuloRange (this, w) = (Ok true, (this, w))
  /\ fixFingers HASH_BIT_LENGTH isInModuloRange r (this, w) = (Ok tt, (this, w))
  /\ checkPredecessor (this, w) = (Ok true, (this, w))
  /\ findSuccessor HASH_BIT_LENGTH isInModuloRange this id (Some (encapsulateSelf this)) w
     = (Ok (Some (encapsulateSelf this)), w).
Proof.
  intros Hlone. split; [now apply lone_stabilize |].
  split; [now apply lone_fixFingers |].
  split; [now apply lone_checkPredecessor | now apply lone_findSuccessor].
Qed.

End LoneNode.

Section JoinPeerDown.

Context {World : Type} `{!Network World}.
Variable HASH_BIT_LENGTH : nat.
Variable isInModuloRange : ident -> ident -> bool -> ident -> bool -> bool.
Variable computeHostPortHash : option string -> option Z -> ident.

(** ** Joining through a peer that does not answer *)

Section PeerDown.

Variable nPrime : Node.
Hypothesis Hfind :
  forall id w, fst (rpc_findSuccessorRemoteHelper nPrime id nPrime w) = Rejected.
Hypothesis Hnull : forall w, fst (rpc_getPredecessor NULL_NODE w) = Rejected.

(** A lookup sent to the peer comes back as [NULL_NODE]. *)
Lemma findSuccessor_peer_down (this : ChordNode) (id : ident) (w : World) :
  ident_eqb (ChordNode.id this) (Node.id nPrime) = false ->
  exists w',
    findSuccessor HASH_BIT_LENGTH isInModuloRange this id (Some nPrime) w
    = (Ok (Some NULL_NODE), w').
Proof.
  intros Hother. rewrite findSuccessor_node. rewrite Hother, andb_false_r.
  unfold connect. rewrite bind_deref. unfold try_catch, bind, await.
  specialize (Hfind id w).
  destruct (rpc_findSuccessorRemoteHelper nPrime id nPrime w) as [[n|] w'];
    [discriminate |].
  now exists w'.
Qed.

Lemma initFingerTable_loop_peer_down (k i : nat) (this : ChordNode) (w : World) :
  ident_eqb (ChordNode.id this) (Node.id nPrime) = false ->
  (i + k < length (ChordNode.fingerTable this))%nat ->
  (forall j e, (j <= i)%nat -> ChordNode.fingerTable this !! j = Some e ->
               successor e = Some NULL_NODE) ->
  exists ft' w',
    initFingerTable_loop HASH_BIT_LENGTH isInModuloRange k i nPrime (this, w)
    = (Ok tt, (set_fingerTable ft' this, w'))
    /\ map start ft' = map start (ChordNode.fingerTable this)
    /\ (forall j e, (j <= i + k)%nat -> ft' !! j = Some e ->
                    successor e = Some NULL_NODE).
Proof.
  revert i this w. induction k as [|k IH]; intros i this w Hother Hlen Hnulls.
  - exists (ChordNode.fingerTable this), w. rewrite set_fingerTable_id.
    split; [reflexivity |]. split; [reflexivity |].
    intros j e Hj. apply Hnulls. lia.
  - cbn [initFingerTable_loop]. rewrite bind_getThis. cbn [fst].
    destruct (lookup_lt_is_Some_2 (ChordNode.fingerTable this) (i + 1))
      as [next Hnext]; [lia |].
    destruct (lookup_lt_is_Some_2 (ChordNode.fingerTable this) i)
      as [entry Hentry]; [lia |].
    rewrite Hnext, bind_deref, Hentry, bind_deref.
    rewrite (Hnulls i entry (Nat.le_refl i) Hentry), bind_deref.
    assert (Hstep : exists w1,
      (if isInModuloRange (start next) (ChordNode.id this) true (Node.id NULL_NODE) false
       then setFingerSuccessor (i + 1) (Some NULL_NODE)
       else
         try_catch
           (let* n := liftW (findSuccessor HASH_BIT_LENGTH isInModuloRange this
                               (start next) (Some nPrime)) in
            setFingerSuccessor (i + 1) n)
           (setFingerSuccessor (i + 1) (Some NULL_NODE))) (this, w)
      = (Ok tt,
         (set_fingerTable
            (<[(i + 1)%nat := mkFinger (start next) (Some NULL_NODE)]>
               (ChordNode.fingerTable this)) this, w1))).
    { destruct (isInModuloRange _ _ _ _ _).
      - exists w. now apply setFingerSuccessor_run.
      - destruct (findSuccessor_peer_down this (start next) w Hother) as (w1 & Hrun).
        exists w1. unfold try_catch.
        rewrite (bind_ok _ _ _ _ _ (liftW_run _ _ _ _ _ Hrun)).
        now rewrite (setFingerSuccessor_run _ _ _ next). }
    destruct Hstep as (w1 & Hstep). rewrite (bind_ok _ _ _ _ _ Hstep).
    destruct (IH (S i)
                (set_fingerTable
                   (<[(i + 1)%nat := mkFinger (start next) (Some NULL_NODE)]>
                      (ChordNode.fingerTable this)) this) w1)
      as (ft' & w' & Hrun & Hstarts & Hall).
    + exact Hother.
    + cbn. rewrite length_insert. lia.
    + cbn. intros j e Hj Hje.
      destruct (decide (j = (i + 1)%nat)) as [-> | Hne].
      * rewrite list_lookup_insert_eq in Hje by lia. now injection Hje as <-.
      * rewrite list_lookup_insert_ne in Hje by lia. apply (Hnulls j e); [lia | exact Hje].
    + exists ft', w'. split; [exact Hrun |]. split.
      * rewrite Hstarts. cbn. now apply starts_insert.
      * intros j e Hj. apply Hall. lia.
Qed.

Lemma initFingerTable_peer_down (this : ChordNode) (w : World) :
  ident_eqb (ChordNode.id this) (Node.id nPrime) = false ->
  (1 <= HASH_BIT_LENGTH <= length (ChordNode.fingerTable this))%nat ->
  exists ft' w',
    initFingerTable HASH_BIT_LENGTH isInModuloRange nPrime (this, w)
    = (Ok tt, (set_predecessor NULL_NODE (set_fingerTable ft' this), w'))
    /\ map start ft' = map start (ChordNode.fingerTable this)
    /\ (forall j e, (j < HASH_BIT_LENGTH)%nat -> ft' !! j = Some e ->
                    successor e = Some NULL_NODE).
Proof.
  intros Hother Hlen.
  destruct (lookup_lt_is_Some_2 (ChordNode.fingerTable this) 0)
    as [entry Hentry]; [lia |].
  unfold initFingerTable.
  destruct (findSuccessor_peer_down this (start entry) w Hother) as (w1 & Hrun).
  erewrite bind_ok.
  2:{ unfold try_catch. rewrite bind_getThis. cbn [fst]. rewrite Hentry, bind_deref.
      now rewrite (liftW_run _ _ _ _ _ Hrun). }
  erewrite bind_ok; [| now apply (setFingerSuccessor_run _ _ _ entry)].
  cbn [fst snd].
  set (ft1 := <[0%nat := mkFinger (start entry) (Some NULL_NODE)]>
                (ChordNode.fingerTable this)).
  assert (Hentry1 : ft1 !! 0%nat = Some (mkFinger (start entry) (Some NULL_NODE))).
  { apply list_lookup_insert_eq. lia. }
  rewrite bind_getThis. cbn [fst ChordNode.fingerTable set_fingerTable].
  rewrite Hentry1, bind_deref. cbn [successor]. unfold connect. rewrite bind_deref.
  pose proof (Hnull w1) as Hrejected.
  erewrite bind_ok with (a := tt)
    (s' := (set_predecessor NULL_NODE (set_fingerTable ft1 this),
            snd (rpc_getPredecessor NULL_NODE w1))).
  2:{ unfold try_catch, bind, liftW, await. cbn [fst snd].
      destruct (rpc_getPredecessor NULL_NODE w1) as [[n|] w2]; [discriminate |].
      reflexivity. }
  destruct (try_liftW_run
              (await (rpc_setPredecessor NULL_NODE
                        (encapsulateSelf (set_fingerTable ft1 this)))) tt
              (set_predecessor NULL_NODE (set_fingerTable ft1 this))
              (snd (rpc_getPredecessor NULL_NODE w1)) (noexit_await _))
    as ([] & w3 & Hset).
  rewrite (bind_ok _ _ _ _ _ Hset).
  destruct (initFingerTable_loop_peer_down (HASH_BIT_LENGTH - 1) 0
              (set_predecessor NULL_NODE (set_fingerTable ft1 this)) w3)
    as (ft' & w' & Hloop & Hstarts & Hall).
  - exact Hother.
  - cbn. unfold ft1. rewrite length_insert. lia.
  - cbn. intros j e Hj Hje. replace j with 0%nat in Hje by lia.
    rewrite Hentry1 in Hje. now injection Hje as <-.
  - exists ft', w'. split; [exact Hloop |]. split.
    + rewrite Hstarts. cbn. unfold ft1. now apply starts_insert.
    + intros j e Hj. apply Hall. lia.
Qed.

Lemma join_peer_down (this : ChordNode) (w : World) :
  ident_eqb (ChordNode.id this) (Node.id nPrime) = false ->
  (1 <= HASH_BIT_LENGTH)%nat ->
  length (ChordNode.fingerTable this) = HASH_BIT_LENGTH ->
  exists ft' w',
    ((initFingerTable HASH_BIT_LENGTH isInModuloRange nPrime;;
      updateOthers HASH_BIT_LENGTH isInModuloRange);;
     try_catch migrateKeysAfterJoin (ret tt);;
     mirrorSuccessor) (this, w)
    = (Ok tt,
       (set_successorTable
          (assign0 (Some NULL_NODE) (ChordNode.successorTable this))
          (set_predecessor NULL_NODE (set_fingerTable ft' this)), w'))
    /\ map start ft' = map start (ChordNode.fingerTable this)
    /\ (forall j e, ft' !! j = Some e -> successor e = Some NULL_NODE).
Proof.
  intros Hother Hm Hlen.
  destruct (initFingerTable_peer_down this w Hother) as (ft' & w1 & Hinit & Hstarts & Hall);
    [lia |].
  assert (Hlen' : length ft' = HASH_BIT_LENGTH).
  { apply (f_equal length) in Hstarts. rewrite !length_map in Hstarts. lia. }
  destruct (updateOthers_loop_returns HASH_BIT_LENGTH isInModuloRange
              HASH_BIT_LENGTH 0
              (set_predecessor NULL_NODE (set_fingerTable ft' this)) w1)
    as (w2 & Hothers).
  destruct (lookup_lt_is_Some_2 ft' 0) as [entry Hentry]; [lia |].
  exists ft', w2. split; [| split; [exact Hstarts |]].
  - rewrite bind_bind, (bind_ok _ _ _ _ _ Hinit).
    unfold updateOthers. rewrite (bind_ok _ _ _ _ _ Hothers).
    erewrite bind_ok; [| reflexivity].
    rewrite (mirrorSuccessor_run _ entry) by exact Hentry.
    now rewrite (Hall 0%nat entry) by (lia || exact Hentry).
  - intros j e Hje. apply (Hall j e); [| exact Hje].
    apply lookup_lt_Some in Hje. lia.
Qed.

End PeerDown.

Lemma fingers_determined (ft : list FingerTableEntry) (ss : list ident) (n : Node) :
  map start ft = ss ->
  (forall j e, ft !! j = Some e -> successor e = Some n) ->
  ft = map (fun s => mkFinger s (Some n)) ss.
Proof.
  intros <-. induction ft as [|[s v] ft IH]; intros Hall; [reflexivity |].
  cbn. f_equal.
  - f_equal. exact (Hall 0%nat _ eq_refl).
  - apply IH. intros j e. exact (Hall (S j) e).
Qed.

(** X16. Joining through a known peer that does not answer.  Take a node as
    the constructor builds it, with [id'] and [knownId'] its identifiers once
    [joinCluster] has replaced the falsy ones by the hash of the address, and
    let the test for joining the known peer succeed.  When the peer rejects
    the lookups (and nothing answers at the null address), and
    [HASH_BIT_LENGTH >= 1], [joinCluster] still returns normally; the node
    has its [HASH_BIT_LENGTH] fingers with their starts, but every finger,
    the predecessor and the successor table hold [NULL_NODE].  The ring has
    at most 47 bits and [id'] is on it, so that the arithmetic of
    [joinCluster] and the iteration counter of its lookups are exact. *)
Theorem joinCluster_known_peer_down (id : ident) (host : option string)
    (port : option Z) (knownId : ident) (knownHost : option string)
    (knownPort : option Z) (this : ChordNode) (w : World) :
  (1 <= HASH_BIT_LENGTH)%nat ->
  ChordNode_constructor id host port knownId knownHost knownPort = Ok this ->
  let id' := if truthy id then id else computeHostPortHash host port in
  let knownId' :=
    if truthy knownId then knownId
    else computeHostPortHash (ChordNode.knownHost this) (ChordNode.knownPort this) in
  let nPrime :=
    Node.mk knownId' (ChordNode.knownHost this) (ChordNode.knownPort this) in
  small_ring HASH_BIT_LENGTH ->
  on_ring HASH_BIT_LENGTH id' ->
  truthy knownId' && negb (ident_eqb id' knownId') = true ->
  (forall k w0, fst (rpc_findSuccessorRemoteHelper nPrime k nPrime w0) = Rejected) ->
  (forall w0, fst (rpc_getPredecessor NULL_NODE w0) = Rejected) ->
  exists w',
    joinCluster HASH_BIT_LENGTH isInModuloRange computeHostPortHash (this, w)
    = (Ok tt,
       (ChordNode.mk id' host port knownId' (ChordNode.knownHost this)
          (ChordNode.knownPort this)
          (map (fun i : nat =>
                  mkFinger (Some (Z.rem (toNumber id' + 2 ^ Z.of_nat i)
                                    (2 ^ Z.of_nat HASH_BIT_LENGTH)))
                    (Some NULL_NODE))
             (seq 0 HASH_BIT_LENGTH))
          [Some NULL_NODE] NULL_NODE, w')).
Proof.
  intros Hm Hnew. cbv zeta. intros _ _ Hjoin Hfind Hnull.
  rewrite (joinCluster_prologue _ _ _ _ _ _ _ _ _ _ _ Hnew). cbv zeta.
  rewrite Hjoin.
  apply andb_true_iff in Hjoin as [_ Hother]. apply negb_true_iff in Hother.
  rewrite Hother, andb_false_r.
  match goal with |- exists w', ?c (?st, _) = _ =>
    destruct (join_peer_down _ Hfind Hnull st w) as (ft' & w' & Hrun & Hstarts & Hall);
    [exact Hother | exact Hm | cbn; now rewrite length_map, length_seq |]
  end.
  exists w'. rewrite Hrun.
  rewrite (fingers_determined ft' _ NULL_NODE Hstarts Hall).
  cbn. now rewrite !map_map.
Qed.

End JoinPeerDown.

Section SlotZero.

Context {World : Type} `{!Network World}.
Variable HASH_BIT_LENGTH : nat.
Variable isInModuloRange : ident -> ident -> bool -> ident -> bool -> bool.
Variable computeHostPortHash : option string -> option Z -> ident.

(** ** The successor table follows the successor *)

Section AfterHead.

Variable ft0 : list FingerTableEntry.
Variable v : option Node.

Lemma keeps_fingerTable_extend_loop (fuel i : nat) :
  keeps (unchanged ChordNode.fingerTable ft0)
    (extend_loop HASH_BIT_LENGTH isInModuloRange fuel i).
Proof.
  revert i. induction fuel as [|fuel IH]; intros i; simpl;
    unfold extend_slot, extend_test;
    repeat first [apply IH | keeps_unchanged_step].
Qed.

Lemma keeps_fingerTable_pruneTail (i : nat) (ok : bool) :
  keeps (unchanged ChordNode.fingerTable ft0) (@pruneTail World _ HASH_BIT_LENGTH i ok).
Proof.
  revert ok. induction i as [|i IH]; intros ok; simpl;
    repeat first [apply IH | keeps_unchanged_step].
Qed.

Lemma keeps_fingerTable_rest :
  keeps (unchanged ChordNode.fingerTable ft0)
    (updateSuccessorTable_isolated;;
     updateSuccessorTable_extend HASH_BIT_LENGTH isInModuloRange;;
     updateSuccessorTable_tail HASH_BIT_LENGTH).
Proof.
  unfold updateSuccessorTable_isolated, updateSuccessorTable_extend,
    updateSuccessorTable_tail.
  repeat first [apply keeps_fingerTable_extend_loop
               | apply keeps_fingerTable_pruneTail | keeps_unchanged_step].
Qed.

Lemma keeps_first_extend_loop (fuel i : nat) :
  keeps (first_successor v) (extend_loop HASH_BIT_LENGTH isInModuloRange fuel i).
Proof.
  revert i. induction fuel as [|fuel IH]; intros i; simpl;
    (apply keeps_bind; [apply readonly_first, readonly_getThis | intros this]);
    (apply keeps_if; [| apply keeps_ret]); [apply keeps_ret |].
  apply keeps_bind; [| intros _; apply IH].
  unfold extend_slot.
  apply keeps_bind; [apply readonly_first, readonly_getThis | intros this'].
  apply keeps_bind; [apply readonly_first; repeat readonly_step | intros ss].
  apply keeps_bind; [apply readonly_first, readonly_extend_test | intros q].
  apply keeps_if; [| apply keeps_ret].
  apply keeps_first_modify. intros n Hn. cbn. now apply lookup_splice_0.
Qed.

Lemma pruneTail_first (i : nat) (ok : bool) (s : ChordNode * World) :
  length (ChordNode.successorTable (fst s)) = S i
  \/ (ok = true /\ (length (ChordNode.successorTable (fst s)) <= HASH_BIT_LENGTH)%nat) ->
  first_successor v s ->
  first_successor v (snd (pruneTail HASH_BIT_LENGTH i ok s)).
Proof.
  revert ok s. induction i as [|i IH]; intros ok [this w] Hinv Hfirst; [exact Hfirst |].
  cbn [pruneTail]. rewrite bind_getThis. cbn [fst] in *.
  destruct (negb ok || (HASH_BIT_LENGTH <? length (ChordNode.successorTable this))%nat)
    eqn:Hguard; [| exact Hfirst].
  assert (Hi : length (ChordNode.successorTable this) = S (S i)).
  { destruct Hinv as [Hlen | [-> Hlen]]; [exact Hlen |].
    cbn [negb orb] in Hguard. apply Nat.ltb_lt in Hguard. lia. }
  match goal with |- context [bind (try_catch ?c ?h) _ _] =>
    destruct (try_readonly_run c false this w) as (ok' & w' & Hprobe)
  end.
  { repeat readonly_step. }
  { repeat noexit_step. apply noexit_getSuccessor. }
  rewrite (bind_ok _ _ _ _ _ Hprobe).
  destruct (negb ok' || (HASH_BIT_LENGTH <=? S i)%nat) eqn:Hpop.
  - rewrite bind_modify. apply IH.
    + left. cbn. rewrite length_pop. lia.
    + unfold first_successor in *. cbn in *. apply lookup_pop_0; [lia | exact Hfirst].
  - rewrite bind_ret. apply IH; [| exact Hfirst].
    right. apply orb_false_iff in Hpop as [Hok' Hle]. apply Nat.leb_gt in Hle.
    split; [now destruct ok' | cbn [fst]; lia].
Qed.

Lemma keeps_first_rest :
  keeps (first_successor v)
    (updateSuccessorTable_isolated;;
     updateSuccessorTable_extend HASH_BIT_LENGTH isInModuloRange;;
     updateSuccessorTable_tail HASH_BIT_LENGTH).
Proof.
  apply keeps_bind; [| intros _; apply keeps_bind; [| intros _]].
  - intros [this w] Hfirst. unfold updateSuccessorTable_isolated.
    rewrite bind_getThis. cbn [fst].
    pose proof (lookup_lt_Some _ _ _ Hfirst) as Hlen. cbn [fst] in Hlen.
    destruct (_ <? 1)%nat eqn:Hshort; [apply Nat.ltb_lt in Hshort; lia | exact Hfirst].
  - unfold updateSuccessorTable_extend.
    apply keeps_bind; [apply readonly_first, readonly_getThis | intros this].
    apply keeps_bind; [apply readonly_first; repeat readonly_step | intros short].
    apply keeps_if; [apply keeps_first_extend_loop | apply keeps_ret].
  - intros [this w] Hfirst. unfold updateSuccessorTable_tail.
    rewrite bind_getThis. cbn [fst].
    pose proof (lookup_lt_Some _ _ _ Hfirst) as Hlen. cbn [fst] in Hlen.
    apply pruneTail_first; [left; cbn [fst]; lia | exact Hfirst].
Qed.

End AfterHead.

End SlotZero.

Section Failover.

Context {World : Type} `{!Network World}.
Variable HASH_BIT_LENGTH : nat.
Variable isInModuloRange : ident -> ident -> bool -> ident -> bool -> bool.
Variable computeHostPortHash : option string -> option Z -> ident.

Lemma mirrorSuccessor_mirrored (s s' : ChordNode * World) :
  mirrorSuccessor s = (Ok tt, s') -> successor_mirrored s'.
Proof.
  destruct (ChordNode.fingerTable (fst s) !! 0%nat) as [entry|] eqn:Hentry.
  - rewrite (mirrorSuccessor_run _ entry) by exact Hentry. intros [= <-].
    exists entry. split; [exact Hentry |]. cbn.
    now destruct (ChordNode.successorTable (fst s)).
  - unfold mirrorSuccessor. rewrite bind_getThis, Hentry. discriminate.
Qed.

(** When the loop that prunes the head returns, slot 0 is the successor, or
    the table has been emptied and the successor is gone. *)
Lemma pruneHead_mirrored (fuel : nat) (ok b : bool) (s s' : ChordNode * World) :
  pruneHead fuel ok s = (Ok b, s') ->
  (length (ChordNode.successorTable (fst s)) <= fuel)%nat \/ ok = true ->
  successor_mirrored s \/ successors_exhausted s
  \/ (ok = false /\ (1 <= length (ChordNode.successorTable (fst s)))%nat) ->
  successor_mirrored s' \/ successors_exhausted s'.
Proof.
  revert ok s. induction fuel as [|fuel IH]; intros ok s Hrun Hfuel Hpre;
    rewrite pruneHead_unfold in Hrun;
    (destruct (negb ok && (0 <? length (ChordNode.successorTable (fst s)))%nat)
       eqn:Hguard;
     [apply andb_true_iff in Hguard as [Hok Hlen];
      apply negb_true_iff in Hok; apply Nat.ltb_lt in Hlen; subst ok
     | injection Hrun as _ <-;
       destruct Hpre as [H | [H | [-> H]]]; [now left | now right |];
       cbn [negb andb] in Hguard; apply Nat.ltb_ge in Hguard; lia]).
  - destruct Hfuel as [Hfuel | Hfuel]; [lia | discriminate].
  - destruct (try_checkSuccessor (fst s) s) as (b1 & w1 & Hcheck).
    rewrite (bind_ok _ _ _ _ _ Hcheck) in Hrun.
    apply bind_ok_inv in Hrun as ([] & s1 & Hstep & Hrun).
    destruct b1.
    + apply mirrorSuccessor_mirrored in Hstep.
      apply IH in Hrun; [exact Hrun | now right | now left].
    + rewrite bind_modify, bind_getThis in Hstep. cbn [fst snd] in Hstep.
      destruct (ChordNode.fingerTable (fst s) !! 0%nat) as [entry|] eqn:Hentry.
      2:{ unfold setFingerSuccessor in Hstep. rewrite bind_getThis in Hstep.
          cbn in Hstep. rewrite Hentry in Hstep. discriminate. }
      rewrite (setFingerSuccessor_run _ _ _ entry) in Hstep by exact Hentry.
      injection Hstep as <-. cbn [fst snd] in Hrun.
      apply IH in Hrun; [exact Hrun | |].
      * left. cbn. rewrite length_shift.
        destruct Hfuel as [Hfuel | Hfuel]; [lia | discriminate].
      * cbn [fst ChordNode.fingerTable ChordNode.successorTable set_fingerTable
             set_successorTable].
        assert (Hnew : <[0%nat := mkFinger (start entry)
                           (slot (shift (ChordNode.successorTable (fst s))) 0)]>
                         (ChordNode.fingerTable (fst s)) !! 0%nat
                       = Some (mkFinger (start entry)
                                 (slot (shift (ChordNode.successorTable (fst s))) 0))).
        { apply list_lookup_insert_eq. now apply lookup_lt_Some in Hentry. }
        destruct (shift (ChordNode.successorTable (fst s))) as [|x rest] eqn:Hshift.
        -- right. left. split; [reflexivity |]. eexists. split; [exact Hnew |].
           reflexivity.
        -- left. eexists. split; [exact Hnew |]. reflexivity.
Qed.

Lemma updateSuccessorTable_head_mirrored (b : bool) (s s' : ChordNode * World) :
  (1 <= length (ChordNode.successorTable (fst s)))%nat ->
  updateSuccessorTable_head s = (Ok b, s') ->
  successor_mirrored s' \/ successors_exhausted s'.
Proof.
  intros Hlen Hrun. unfold updateSuccessorTable_head in Hrun.
  rewrite bind_getThis in Hrun.
  destruct (try_checkSuccessor (fst s) s) as (b1 & w1 & Hcheck).
  rewrite (bind_ok _ _ _ _ _ Hcheck) in Hrun.
  destruct b1.
  - apply bind_ok_inv in Hrun as ([] & s1 & Hstep & Hrun).
    injection Hrun as _ <-. left. now apply mirrorSuccessor_mirrored in Hstep.
  - apply pruneHead_mirrored in Hrun; [exact Hrun | now left |].
    right. right. split; [reflexivity | exact Hlen].
Qed.

(** When a call of [updateSuccessorTable] that runs alone returns, from a
    state with a non-empty successor table and with [HASH_BIT_LENGTH >= 2],
    slot 0 of the successor table is the successor of finger 0, whatever the
    peers answered. *)
Lemma updateSuccessorTable_mirrors_successor_atomic (this : ChordNode) (w : World)
    (b : bool) (s' : ChordNode * World) :
  (1 <= length (ChordNode.successorTable this))%nat ->
  (2 <= HASH_BIT_LENGTH)%nat ->
  updateSuccessorTable HASH_BIT_LENGTH isInModuloRange (this, w) = (Ok b, s') ->
  exists entry,
    ChordNode.fingerTable (fst s') !! 0%nat = Some entry
    /\ ChordNode.successorTable (fst s') !! 0%nat = Some (successor entry).
Proof.
  intros Hlen Hm Hrun. unfold updateSuccessorTable in Hrun.
  apply bind_ok_inv in Hrun as (b1 & s1 & Hhead & Hrest).
  apply updateSuccessorTable_head_mirrored in Hhead; [| exact Hlen].
  destruct Hhead as [(entry & Hentry & Hfirst) | (Hempty & entry & Hentry & Hnone)].
  - exists entry.
    pose proof (keeps_fingerTable_rest HASH_BIT_LENGTH isInModuloRange
                  (ChordNode.fingerTable (fst s1)) s1 eq_refl) as Hft.
    pose proof (keeps_first_rest HASH_BIT_LENGTH isInModuloRange
                  (successor entry) s1 Hfirst) as Hst.
    rewrite Hrest in Hft, Hst. cbn [snd] in Hft, Hst.
    unfold unchanged in Hft. now rewrite Hft.
  - exfalso. revert Hrest. destruct s1 as [this1 w1]. cbn [fst] in *.
    erewrite bind_ok.
    2:{ unfold updateSuccessorTable_isolated. rewrite bind_getThis. cbn [fst].
        rewrite Hempty. reflexivity. }
    intros Hrest. apply bind_ok_inv in Hrest as ([] & s2 & Hextend & _).
    revert Hextend. unfold updateSuccessorTable_extend.
    rewrite bind_getThis.
    cbn [fst ChordNode.successorTable ChordNode.fingerTable set_successorTable
         app length].
    rewrite Hempty. cbn [app length].
    destruct (1 <? HASH_BIT_LENGTH)%nat eqn:Hshort; [| apply Nat.ltb_ge in Hshort; lia].
    rewrite Hentry, bind_bind, bind_deref. cbv beta. rewrite Hnone.
    unfold bind at 1 2. unfold deref, throw. discriminate.
Qed.

(** Failing over to the next successor, in a call that runs alone.  The
    successor does not pass the check, neither at first nor when the pruning
    loop tries it again, and the second entry [n] of the successor table
    does; then the head of [updateSuccessorTable] drops the first entry and
    makes [n] the successor of finger 0, and when the whole method is over
    [n] is still the successor and slot 0 of the successor table. *)
Lemma updateSuccessorTable_fails_over_atomic (this : ChordNode) (w w1 w2 w3 : World)
    (entry : FingerTableEntry) (head : option Node) (n : Node)
    (rest : list (option Node)) :
  ChordNode.fingerTable this !! 0%nat = Some entry ->
  ChordNode.successorTable this = head :: Some n :: rest ->
  try_catch (checkSuccessor this) (ret false) w = (Ok false, w1) ->
  try_catch (checkSuccessor this) (ret false) w1 = (Ok false, w2) ->
  let this1 :=
    set_fingerTable
      (<[0%nat := mkFinger (start entry) (Some n)]> (ChordNode.fingerTable this))
      (set_successorTable (Some n :: rest) this) in
  checkSuccessor this1 w2 = (Ok true, w3) ->
  updateSuccessorTable_head (this, w) = (Ok true, (this1, w3))
  /\ let s' := snd (updateSuccessorTable HASH_BIT_LENGTH isInModuloRange (this, w)) in
     ChordNode.fingerTable (fst s') = ChordNode.fingerTable this1
     /\ ChordNode.successorTable (fst s') !! 0%nat = Some (Some n).
Proof.
  intros Hentry Htable Hcheck1 Hcheck2. cbv zeta. intros Hcheck3.
  set (this1 := set_fingerTable
      (<[0%nat := mkFinger (start entry) (Some n)]> (ChordNode.fingerTable this))
      (set_successorTable (Some n :: rest) this)).
  assert (Hentry1 : ChordNode.fingerTable this1 !! 0%nat
                    = Some (mkFinger (start entry) (Some n))).
  { cbn. apply list_lookup_insert_eq. now apply lookup_lt_Some in Hentry. }
  assert (Hhead : updateSuccessorTable_head (this, w) = (Ok true, (this1, w3))).
  { unfold updateSuccessorTable_head. rewrite bind_getThis. cbn [fst].
    rewrite (bind_ok _ _ _ _ _ (try_liftW_eq _ _ this _ _ _ Hcheck1)).
    rewrite Htable. cbn [length].
    rewrite pruneHead_unfold. cbn [fst negb andb length Nat.ltb Nat.leb].
    rewrite Htable. cbn [length Nat.ltb Nat.leb].
    rewrite (bind_ok _ _ _ _ _ (try_liftW_eq _ _ this _ _ _ Hcheck2)).
    rewrite bind_bind, bind_modify. cbv beta.
    rewrite bind_bind, bind_getThis. cbv beta. cbn [fst snd].
    erewrite bind_ok; [| now apply (setFingerSuccessor_run _ _ _ entry)].
    cbn [fst snd ChordNode.successorTable ChordNode.fingerTable set_successorTable].
    rewrite Htable. unfold shift. cbn [drop slot lookup list_lookup].
    fold this1.
    rewrite pruneHead_unfold. cbn [fst negb andb].
    replace (0 <? length (ChordNode.successorTable this1))%nat with true by reflexivity.
    erewrite bind_ok;
      [| unfold try_catch; erewrite liftW_run by exact Hcheck3; reflexivity].
    erewrite bind_ok; [| exact (mirrorSuccessor_run (this1, w3) _ Hentry1)].
    rewrite pruneHead_unfold. cbn [fst snd successor assign0 negb andb].
    reflexivity. }
  split; [exact Hhead |].
  unfold updateSuccessorTable. rewrite (bind_ok _ _ _ _ _ Hhead).
  split.
  - apply (keeps_fingerTable_rest HASH_BIT_LENGTH isInModuloRange
             (ChordNode.fingerTable this1) (this1, w3) eq_refl).
  - apply (keeps_first_rest HASH_BIT_LENGTH isInModuloRange (Some n) (this1, w3)).
    reflexivity.
Qed.

End Failover.

Section StabilizeRound.

Context {World : Type} `{!Network World}.
Variable HASH_BIT_LENGTH : nat.
Variable isInModuloRange : ident -> ident -> bool -> ident -> bool -> bool.
Variable computeHostPortHash : option string -> option Z -> ident.

(** X19. One round of [stabilize] on a node whose successor [s] is another
    node.  The node asks [s] for its predecessor [x] (itself when [s] does
    not answer); it adopts [x] as the successor of finger 0 exactly when
    [x.id] lies strictly between its own id and [s.id]; it notifies the
    successor it now has, unless that is the node itself, and ignores the
    answer; it runs [updateSuccessorTable], whose failure it ignores; and it
    returns [true]. *)
Theorem stabilize_asks_adopts_notifies (this : ChordNode) (w : World)
    (entry : FingerTableEntry) (s : Node) :
  ChordNode.fingerTable this !! 0%nat = Some entry ->
  successor entry = Some s ->
  ident_eqb (Node.id s) (ChordNode.id this) = false ->
  let answer := rpc_getPredecessor s w in
  let x := match fst answer with
           | Reply x => x
           | Rejected => encapsulateSelf this
           end in
  let adopt := isInModuloRange (Node.id x) (ChordNode.id this) false (Node.id s) false in
  let this1 :=
    if adopt then
      set_fingerTable
        (<[0%nat := mkFinger (start entry) (Some x)]> (ChordNode.fingerTable this))
        this
    else this in
  let succ := if adopt then x else s in
  let w2 :=
    if negb (ident_eqb (ChordNode.id this) (Node.id succ))
    then snd (rpc_notify succ (encapsulateSelf this) (snd answer))
    else snd answer in
  stabilize HASH_BIT_LENGTH isInModuloRange (this, w)
  = (Ok true, snd (updateSuccessorTable HASH_BIT_LENGTH isInModuloRange (this1, w2))).
Proof.
  intros Hentry Hs Hother. cbv zeta.
  unfold stabilize.
  erewrite bind_ok.
  2:{ unfold try_catch. rewrite bind_getThis. cbn [fst]. rewrite Hentry, bind_deref, Hs.
      rewrite bind_ret. unfold connect. rewrite bind_deref. reflexivity. }
  cbv beta iota.
  rewrite bind_getThis. cbn [fst]. rewrite Hentry, bind_deref, Hs, bind_deref, Hother.
  erewrite bind_ok with
    (a := match fst (rpc_getPredecessor s w) with
          | Reply x => x
          | Rejected => encapsulateSelf this
          end)
    (s' := (this, snd (rpc_getPredecessor s w))).
  2:{ unfold try_catch, liftW, await. cbn [fst snd].
      now destruct (rpc_getPredecessor s w) as [[x|] w1]. }
  set (x := match fst (rpc_getPredecessor s w) with
            | Reply x => x
            | Rejected => encapsulateSelf this
            end).
  set (w1 := snd (rpc_getPredecessor s w)).
  rewrite bind_getThis. cbn [fst]. rewrite Hentry, bind_deref, Hs, bind_deref.
  assert (Hnotify : forall (this1 : ChordNode) (succ : Node) (entry1 : FingerTableEntry),
    ChordNode.id this1 = ChordNode.id this ->
    encapsulateSelf this1 = encapsulateSelf this ->
    ChordNode.fingerTable this1 !! 0%nat = Some entry1 ->
    successor entry1 = Some succ ->
    (let* this2 := getThis in
     let* entry2 := deref (ChordNode.fingerTable this2 !! 0%nat) in
     let* s2 := deref (successor entry2) in
     (if negb (ident_eqb (ChordNode.id this2) (Node.id s2)) then
        let* successorClient := connect (successor entry2) in
        try_catch
          (liftW (await (rpc_notify successorClient (encapsulateSelf this2))))
          (ret tt)
      else ret tt);;
     try_catch (updateSuccessorTable HASH_BIT_LENGTH isInModuloRange;; ret tt) (ret tt);;
     ret true) (this1, w1)
    = (Ok true,
       snd (updateSuccessorTable HASH_BIT_LENGTH isInModuloRange
              (this1,
               if negb (ident_eqb (ChordNode.id this) (Node.id succ))
               then snd (rpc_notify succ (encapsulateSelf this) w1)
               else w1)))).
  { intros this1 succ entry1 Hid Hself Hentry1 Hsucc.
    rewrite bind_getThis. cbn [fst]. rewrite Hentry1, bind_deref, Hsucc, bind_deref.
    rewrite Hid, Hself.
    destruct (negb (ident_eqb (ChordNode.id this) (Node.id succ))).
    - erewrite bind_ok with (a := tt)
        (s' := (this1, snd (rpc_notify succ (encapsulateSelf this) w1))).
      2:{ unfold connect. rewrite bind_deref.
          unfold try_catch, liftW, await. cbn [fst snd].
          now destruct (rpc_notify succ (encapsulateSelf this) w1) as [[[]|] w3]. }
      rewrite (bind_ok _ _ _ _ _
                 (try_discard _ _ (noexit_updateSuccessorTable HASH_BIT_LENGTH
                                     isInModuloRange))).
      reflexivity.
    - rewrite bind_ret.
      rewrite (bind_ok _ _ _ _ _
                 (try_discard _ _ (noexit_updateSuccessorTable HASH_BIT_LENGTH
                                     isInModuloRange))).
      reflexivity. }
  destruct (isInModuloRange (Node.id x) (ChordNode.id this) false (Node.id s) false).
  - erewrite bind_ok; [| now apply (setFingerSuccessor_run _ _ _ entry)].
    cbn [fst snd].
    apply (Hnotify _ x (mkFinger (start entry) (Some x))); try reflexivity.
    cbn. apply list_lookup_insert_eq. now apply lookup_lt_Some in Hentry.
  - rewrite bind_ret. now apply (Hnotify this s entry).
Qed.

(** ** fixFingers reads inside the finger table *)

(** X20. When the finger table holds its [HASH_BIT_LENGTH >= 1] entries, the
    index that [fixFingers] draws is the index of a finger, whatever
    [Math.random()] returns in [0, 1): the method never reads past the end of
    the table. *)
Theorem fixFingers_index_in_table (this : ChordNode) (r : Q) :
  (0 <= r)%Q -> (r < 1)%Q ->
  (1 <= HASH_BIT_LENGTH)%nat ->
  length (ChordNode.fingerTable this) = HASH_BIT_LENGTH ->
  is_Some (index_Z (ChordNode.fingerTable this) (randomId HASH_BIT_LENGTH r)).
Proof.
  intros H0 H1 Hm Hlen.
  pose proof (randomId_range HASH_BIT_LENGTH r H0 H1 Hm) as [Hlo Hhi].
  unfold index_Z. destruct (randomId HASH_BIT_LENGTH r <? 0) eqn:Hneg;
    [apply Z.ltb_lt in Hneg; lia |].
  apply lookup_lt_is_Some_2. lia.
Qed.

End StabilizeRound.

Section JoinReturns.

Context {World : Type} `{!Network World}.
Variable HASH_BIT_LENGTH : nat.
Variable isInModuloRange : ident -> ident -> bool -> ident -> bool -> bool.
Variable computeHostPortHash : option string -> option Z -> ident.

(** ** Joining never throws *)


Section Peer.

Variable nPrime : Node.




End Peer.



End JoinReturns.

Section LogGrowth.

Variable HASH_BIT_LENGTH : nat.
Variable isInModuloRange : ident -> ident -> bool -> ident -> bool -> bool.
Variable computeHostPortHash : option string -> option Z -> ident.

Variable answer : request -> reply Node.
Variable w0 : list request.
Variable q0 : request.

Lemma keeps_sent_getSuccessor (this : ChordNode) (nodeQueried : option Node) :
  keeps (sent_after w0 q0) (getSuccessor (Network0 := scripted answer) this nodeQueried).
Proof. unfold getSuccessor. repeat keeps_sent_step. Qed.

Lemma keeps_sent_closestPrecedingFinger (this : ChordNode) (id : ident)
    (nodeQueried : Node) :
  keeps (sent_after w0 q0)
    (closestPrecedingFinger (Network0 := scripted answer) HASH_BIT_LENGTH
       isInModuloRange this id nodeQueried).
Proof.
  unfold closestPrecedingFinger.
  destruct (ident_eqb _ _); [| repeat keeps_sent_step].
  induction HASH_BIT_LENGTH as [|k IH]; simpl;
    repeat first [apply IH | keeps_sent_step].
Qed.

Lemma keeps_sent_findPredecessor_while (fuel : nat) (this : ChordNode) (id : ident)
    (iterationCounter : Z) (nPrime : Node) (nPrimeSuccessor : option Node) :
  keeps (sent_after w0 q0)
    (findPredecessor_while (Network0 := scripted answer) HASH_BIT_LENGTH
       isInModuloRange fuel this id iterationCounter nPrime nPrimeSuccessor).
Proof.
  revert iterationCounter nPrime nPrimeSuccessor.
  induction fuel as [|fuel IH]; intros c nPrime s; simpl;
    repeat first [apply IH | apply keeps_sent_closestPrecedingFinger
                 | apply keeps_sent_getSuccessor | keeps_sent_step].
Qed.

Lemma keeps_sent_findPredecessor (this : ChordNode) (id : ident) :
  keeps (sent_after w0 q0)
    (findPredecessor (Network0 := scripted answer) HASH_BIT_LENGTH isInModuloRange
       this id).
Proof.
  unfold findPredecessor, findPredecessor_hops.
  repeat first [apply keeps_sent_findPredecessor_while
               | apply keeps_sent_getSuccessor | keeps_sent_step].
Qed.

Lemma keeps_sent_findSuccessor (this : ChordNode) (id : ident) (nodeQueried : Node) :
  keeps (sent_after w0 q0)
    (findSuccessor (Network0 := scripted answer) HASH_BIT_LENGTH isInModuloRange
       this id (Some nodeQueried)).
Proof.
  unfold findSuccessor.
  repeat first [apply keeps_sent_findPredecessor
               | apply keeps_sent_getSuccessor | keeps_sent_step].
Qed.

Lemma keeps_sent_initFingerTable_loop (k i : nat) (nPrime : Node) :
  keeps (fun s : ChordNode * list request => sent_after w0 q0 (snd s))
    (initFingerTable_loop (Network0 := scripted answer) HASH_BIT_LENGTH
       isInModuloRange k i nPrime).
Proof.
  revert i. induction k as [|k IH]; intros i; simpl;
    repeat first [apply IH | apply keeps_sent_findSuccessor | keeps_sent_step].
Qed.

Lemma keeps_sent_updateOthers_loop (k i : nat) :
  keeps (fun s : ChordNode * list request => sent_after w0 q0 (snd s))
    (updateOthers_loop (Network0 := scripted answer) HASH_BIT_LENGTH
       isInModuloRange k i).
Proof.
  revert i. induction k as [|k IH]; intros i; simpl;
    repeat first [apply IH | apply keeps_sent_findPredecessor | keeps_sent_step].
Qed.

End LogGrowth.

Section SelfJoin.

Variable HASH_BIT_LENGTH : nat.
Variable isInModuloRange : ident -> ident -> bool -> ident -> bool -> bool.
Variable computeHostPortHash : option string -> option Z -> ident.

(** X23. A node that is given an identifier but no known peer asks itself.
    The constructor makes the node's own address the known address, and
    [joinCluster] hashes that address into [knownId]; unless the hash is
    falsy or equals the given id, the node takes the branch that joins a
    known peer, and the first request it sends is a [findSuccessor] lookup
    addressed to its own host and port.  (On the scripted network, whose
    state is the log of the requests sent, and for every script; on a ring
    of at most 47 bits that holds the given id, where the arithmetic of
    [joinCluster] and the iteration counter of its lookups are exact.) *)
Theorem joinCluster_asks_itself (answer : request -> reply Node) (id : ident)
    (host : option string) (port : option Z) (this : ChordNode)
    (w : list request) :
  (1 <= HASH_BIT_LENGTH)%nat ->
  small_ring HASH_BIT_LENGTH ->
  on_ring HASH_BIT_LENGTH id ->
  ChordNode_constructor id host port None None None = Ok this ->
  truthy id = true ->
  let h := computeHostPortHash host port in
  truthy h = true ->
  ident_eqb id h = false ->
  let itself := Node.mk h host port in
  sent_after w
    (FindSuccessorRemoteHelper itself
       (Some (Z.rem (toNumber id + 1) (2 ^ Z.of_nat HASH_BIT_LENGTH))) itself)
    (snd (snd (joinCluster (Network0 := scripted answer) HASH_BIT_LENGTH
                 isInModuloRange computeHostPortHash (this, w)))).
Proof.
  intros Hm _ _ Hnew Hid. cbv zeta. intros Hh Hother.
  rewrite (joinCluster_prologue (Network0 := scripted answer) _ _ _ _ _ _ _ _ _ _ _ Hnew).
  cbv zeta.
  unfold ChordNode_constructor in Hnew.
  destruct (_ || _) in Hnew; [discriminate |]. injection Hnew as <-.
  cbn [ChordNode.knownHost ChordNode.knownPort truthy_string truthy negb orb fst snd].
  rewrite Hid. cbn [truthy].
  rewrite Hother, andb_false_r, Hh. cbn [negb andb].
  match goal with |- sent_after w ?q (snd (snd (?c (?n, w)))) =>
    set (ready := n); set (q0 := q);
    change (sent_after w q0 (snd (snd (c (ready, w)))))
  end.
  destruct HASH_BIT_LENGTH as [|m] eqn:Hbits; [lia |].
  unfold initFingerTable. rewrite !bind_bind.
  unfold bind at 1.
  assert (Hfirst : exists n,
    try_catch
      (let* this0 := getThis in
       let* entry := deref (ChordNode.fingerTable this0 !! 0%nat) in
       liftW (findSuccessor (Network0 := scripted answer) (S m) isInModuloRange
                this0 (start entry)
                (Some (Node.mk (computeHostPortHash host port) host port))))
      (ret (Some NULL_NODE)) (ready, w)
    = (Ok (Some n), (ready, q0 :: w))).
  { unfold try_catch. rewrite bind_getThis. cbn [fst]. unfold ready at 1.
    cbn [ChordNode.fingerTable seq map lookup list_lookup]. rewrite bind_deref.
    unfold liftW. rewrite findSuccessor_node.
    cbn [fst snd start ChordNode.id Node.id].
    change (ChordNode.id ready) with id.
    rewrite Hother, andb_false_r.
    unfold connect. rewrite bind_deref. unfold try_catch, bind, await.
    cbn [rpc_findSuccessorRemoteHelper scripted scripted_call].
    change (2 ^ Z.of_nat 0) with 1.
    destruct (answer _); now eexists. }
  destruct Hfirst as (n & ->).
  match goal with |- sent_after w q0 (snd (snd (?c ?st))) =>
    assert (Hkeeps : keeps (fun s : ChordNode * list request =>
                              sent_after w q0 (snd s)) c);
    [| exact (Hkeeps st (ex_intro _ [] eq_refl))]
  end.
  unfold updateOthers, migrateKeysAfterJoin.
  repeat first [apply keeps_sent_initFingerTable_loop
               | apply keeps_sent_updateOthers_loop | keeps_sent_step].
Qed.

End SelfJoin.

Section NearLookups.

Context {World : Type} `{!Network World}.
Variable HASH_BIT_LENGTH : nat.
Variable isInModuloRange : ident -> ident -> bool -> ident -> bool -> bool.
Variable computeHostPortHash : option string -> option Z -> ident.

(** ** Lookups that end at the node or one hop away *)

(** X24. A key between the node and its successor is resolved at once.  When
    the key lies in the arc [(this.id, successor.id]], [findPredecessor]
    returns the node itself without a turn of its loop, and [findSuccessor]
    addressed to the node returns the node's successor; no request is
    sent. *)
Theorem findSuccessor_resolves_locally (this : ChordNode) (id : ident) (x : Z)
    (entry : FingerTableEntry) (s : Node) (w : World) :
  ChordNode.id this = Some x ->
  ChordNode.fingerTable this !! 0%nat = Some entry ->
  successor entry = Some s ->
  isInModuloRange id (Some x) false (Node.id s) true = true ->
  findPredecessor_hops HASH_BIT_LENGTH isInModuloRange this id w
    = (Ok (encapsulateSelf this, O), w)
  /\ findSuccessor HASH_BIT_LENGTH isInModuloRange this id (Some (encapsulateSelf this)) w
     = (Ok (Some s), w).
Proof.
  intros Hid Hentry Hs Hrange.
  assert (Hhops : findPredecessor_hops HASH_BIT_LENGTH isInModuloRange this id w
                  = (Ok (encapsulateSelf this, O), w)).
  { unfold findPredecessor_hops, bind, try_catch.
    rewrite getSuccessor_self, Hentry, Hs, findPredecessor_while_unfold.
    unfold findPredecessor_guard. cbn [encapsulateSelf Node.id].
    now rewrite Hid, Hrange. }
  split; [exact Hhops |].
  rewrite findSuccessor_node. cbn [encapsulateSelf Node.id].
  rewrite Hid, ident_eqb_refl.
  rewrite bool_decide_eq_true_2 by (now exists x). cbn [andb].
  assert (Hfp : try_catch (findPredecessor HASH_BIT_LENGTH isInModuloRange this id)
                  (ret NULL_NODE) w = (Ok (encapsulateSelf this), w)).
  { unfold try_catch, findPredecessor, bind. now rewrite Hhops. }
  rewrite (bind_ok _ _ _ _ _ Hfp).
  unfold try_catch. now rewrite getSuccessor_self, Hentry, Hs.
Qed.

(** X25. A lookup one hop away.  The key is not between the node and its
    successor; the closest preceding finger [f] is another node, which
    reports its successor [fs], and the key lies in [(f.id, fs.id]].  Then
    [findPredecessor] returns [f] after one turn of its loop, and
    [findSuccessor] asks [f] for its successor a second time and returns that
    second answer. *)
Theorem findSuccessor_one_hop (this : ChordNode) (id : ident) (x : Z)
    (entry : FingerTableEntry) (s f fs fs' : Node) (w w1 w2 : World) :
  ChordNode.id this = Some x ->
  ChordNode.fingerTable this !! 0%nat = Some entry ->
  successor entry = Some s ->
  isInModuloRange id (Some x) false (Node.id s) true = false ->
  ident_eqb (Some x) (Node.id s) = false ->
  closestPrecedingFinger HASH_BIT_LENGTH isInModuloRange this id
    (encapsulateSelf this) w = (Ok f, w) ->
  ident_eqb (Some x) (Node.id f) = false ->
  rpc_getSuccessorRemoteHelper f f w = (Reply fs, w1) ->
  isInModuloRange id (Node.id f) false (Node.id fs) true = true ->
  rpc_getSuccessorRemoteHelper f f w1 = (Reply fs', w2) ->
  findPredecessor_hops HASH_BIT_LENGTH isInModuloRange this id w = (Ok (f, 1%nat), w1)
  /\ findSuccessor HASH_BIT_LENGTH isInModuloRange this id (Some (encapsulateSelf this)) w
     = (Ok (Some fs'), w2).
Proof.
  intros Hid Hentry Hs Hfar Hother Hcpf Hf Hfs Hnear Hfs'.
  assert (Hcap : 0 <= iterationCap HASH_BIT_LENGTH) by (unfold iterationCap; lia).
  assert (Hhops : findPredecessor_hops HASH_BIT_LENGTH isInModuloRange this id w
                  = (Ok (f, 1%nat), w1)).
  { unfold findPredecessor_hops. unfold bind at 1. unfold try_catch at 1.
    rewrite getSuccessor_self, Hentry, Hs, findPredecessor_while_unfold.
    unfold findPredecessor_guard. cbn [encapsulateSelf Node.id].
    rewrite Hid, Hfar, Hother. cbn [negb andb].
    destruct (0 <=? iterationCap HASH_BIT_LENGTH) eqn:Hle;
      [| apply Z.leb_gt in Hle; lia].
    destruct (Z.to_nat (iterationCap HASH_BIT_LENGTH + 1)) as [|fuel] eqn:Hfuel;
      [lia |].
    erewrite bind_ok; [| unfold try_catch; now rewrite Hcpf].
    erewrite bind_ok;
      [| unfold try_catch; rewrite getSuccessor_remote by (now rewrite Hid);
         now rewrite Hfs].
    cbv beta. unfold bind at 1.
    rewrite findPredecessor_while_unfold. unfold findPredecessor_guard.
    now rewrite Hnear. }
  split; [exact Hhops |].
  rewrite findSuccessor_node. cbn [encapsulateSelf Node.id].
  rewrite Hid, ident_eqb_refl.
  rewrite bool_decide_eq_true_2 by (now exists x). cbn [andb].
  assert (Hfp : try_catch (findPredecessor HASH_BIT_LENGTH isInModuloRange this id)
                  (ret NULL_NODE) w = (Ok f, w1)).
  { unfold try_catch, findPredecessor, bind. now rewrite Hhops. }
  rewrite (bind_ok _ _ _ _ _ Hfp).
  unfold try_catch. rewrite getSuccessor_remote by (now rewrite Hid).
  now rewrite Hfs'.
Qed.

End NearLookups.

(** ** Tasks that run alone

    Run alone, the tasks are the methods as embedded above. *)

Section Alone.

Context {World : Type}.

Lemma run_bind {A B} (c : Async.task A) (k : A -> Async.task B)
    (s : ChordNode * World) :
  Async.run (Async.bind c k) s
  = match Async.run c s with
    | Some (Ok a, s') => Async.run (k a) s'
    | Some (Throw, s') => Some (Throw, s')
    | Some (Exit code, s') => Some (Exit code, s')
    | None => None
    end.
Proof.
  revert s. induction c as [a| |code| |f IH|f c IH|R rpc f IH]; intros s; simpl;
    try reflexivity.
  - apply IH.
  - apply IH.
  - destruct (rpc (snd s)) as [r w']. apply IH.
Qed.

Lemma run_try_catch {A} (c h : Async.task A) (s : ChordNode * World) :
  Async.run (Async.try_catch c h) s
  = match Async.run c s with
    | Some (Throw, s') => Async.run h s'
    | r => r
    end.
Proof.
  revert s. induction c as [a| |code| |f IH|f c IH|R rpc f IH]; intros s; simpl;
    try reflexivity.
  - apply IH.
  - apply IH.
  - destruct (rpc (snd s)) as [r w']. apply IH.
Qed.

(** Sequencing: the continuation is compared in the state that the first
    part leaves. *)
Lemma run_bind_as {A B} (c : Async.task A) (k : A -> Async.task B)
    (c' : M (ChordNode * World) A) (k' : A -> M (ChordNode * World) B)
    (s : ChordNode * World) :
  Async.run c s = Some (c' s) ->
  (forall a s', c' s = (Ok a, s') -> Async.run (k a) s' = Some (k' a s')) ->
  Async.run (Async.bind c k) s = Some (bind c' k' s).
Proof.
  intros Hc Hk. rewrite run_bind, Hc. unfold bind.
  destruct (c' s) as [[a| |code] s'] eqn:Hrun; [now apply Hk | reflexivity ..].
Qed.

Lemma run_try_catch_as {A} (c h : Async.task A) (c' h' : M (ChordNode * World) A)
    (s : ChordNode * World) :
  Async.run c s = Some (c' s) ->
  (forall s', c' s = (Throw, s') -> Async.run h s' = Some (h' s')) ->
  Async.run (Async.try_catch c h) s = Some (try_catch c' h' s).
Proof.
  intros Hc Hh. rewrite run_try_catch, Hc. unfold try_catch.
  destruct (c' s) as [[a| |code] s'] eqn:Hrun; [reflexivity | now apply Hh | reflexivity].
Qed.

Lemma run_getThis_as {B} (k : ChordNode -> Async.task B)
    (k' : ChordNode -> M (ChordNode * World) B) (s : ChordNode * World) :
  Async.run (k (fst s)) s = Some (k' (fst s) s) ->
  Async.run (Async.bind Async.getThis k) s = Some (bind getThis k' s).
Proof. intros Hk. exact Hk. Qed.

Lemma run_bind_getThis {B} (k : ChordNode -> Async.task B) (s : ChordNode * World) :
  Async.run (Async.bind Async.getThis k) s = Async.run (k (fst s)) s.
Proof. reflexivity. Qed.

Lemma run_deref {A} (v : option A) (s : ChordNode * World) :
  Async.run (Async.deref v) s = Some (deref v s).
Proof. now destruct v. Qed.

Lemma run_modify (f : ChordNode -> ChordNode) (s : ChordNode * World) :
  Async.run (Async.modify f) s = Some (modify f s).
Proof. reflexivity. Qed.

Lemma run_setFingerSuccessor (i : nat) (v : option Node) (s : ChordNode * World) :
  Async.run (Async.setFingerSuccessor i v) s = Some (setFingerSuccessor i v s).
Proof.
  unfold Async.setFingerSuccessor, setFingerSuccessor.
  apply run_getThis_as.
  apply run_bind_as; [apply run_deref | intros entry s' _; apply run_modify].
Qed.

Lemma run_mirrorSuccessor (s : ChordNode * World) :
  Async.run Async.mirrorSuccessor s = Some (mirrorSuccessor s).
Proof.
  unfold Async.mirrorSuccessor, mirrorSuccessor.
  apply run_getThis_as.
  apply run_bind_as; [apply run_deref | intros entry s' _; apply run_modify].
Qed.

(** The same for the parts of a method that only read the node. *)
Lemma run_liftW_bind {A B} (c : Async.task A) (k : A -> Async.task B)
    (c' : M World A) (k' : A -> M World B) (this : ChordNode) (w : World) :
  Async.run c (this, w) = Some (liftW c' (this, w)) ->
  (forall a w', c' w = (Ok a, w') ->
     Async.run (k a) (this, w') = Some (liftW (k' a) (this, w'))) ->
  Async.run (Async.bind c k) (this, w) = Some (liftW (bind c' k') (this, w)).
Proof.
  intros Hc Hk. rewrite run_bind, Hc. unfold liftW, bind. cbn [fst snd].
  destruct (c' w) as [[a| |code] w'] eqn:Hrun; [| reflexivity ..].
  rewrite (Hk a w' eq_refl). reflexivity.
Qed.

Lemma run_liftW_try_catch {A} (c h : Async.task A) (c' h' : M World A)
    (this : ChordNode) (w : World) :
  Async.run c (this, w) = Some (liftW c' (this, w)) ->
  (forall w', c' w = (Throw, w') ->
     Async.run h (this, w') = Some (liftW h' (this, w'))) ->
  Async.run (Async.try_catch c h) (this, w)
  = Some (liftW (try_catch c' h') (this, w)).
Proof.
  intros Hc Hh. rewrite run_try_catch, Hc. unfold liftW, try_catch. cbn [fst snd].
  destruct (c' w) as [[a| |code] w'] eqn:Hrun; [reflexivity | | reflexivity].
  rewrite (Hh w' eq_refl). reflexivity.
Qed.

Lemma run_liftW_getThis {A} (k : ChordNode -> Async.task A) (c' : M World A)
    (this : ChordNode) (w : World) :
  Async.run (k this) (this, w) = Some (liftW c' (this, w)) ->
  Async.run (Async.bind Async.getThis k) (this, w) = Some (liftW c' (this, w)).
Proof. intros Hk. exact Hk. Qed.

Lemma run_liftW_deref {A} (v : option A) (this : ChordNode) (w : World) :
  Async.run (Async.deref v) (this, w) = Some (liftW (deref v) (this, w)).
Proof. now destruct v. Qed.

Lemma run_liftW_ret {A} (a : A) (this : ChordNode) (w : World) :
  Async.run (Async.ret a) (this, w) = Some (liftW (ret a) (this, w)).
Proof. reflexivity. Qed.

Lemma run_liftW_await {R} (rpc : World -> reply R * World) (this : ChordNode)
    (w : World) :
  Async.run (Async.await rpc) (this, w) = Some (liftW (await rpc) (this, w)).
Proof.
  unfold Async.await, liftW, await. simpl. now destruct (rpc w) as [[a|] w'].
Qed.

End Alone.

Section AloneMethods.

Context {World : Type} `{!Network World}.
Variable HASH_BIT_LENGTH : nat.
Variable isInModuloRange : ident -> ident -> bool -> ident -> bool -> bool.

Lemma run_getSuccessor (nodeQueried : option Node) (this : ChordNode) (w : World) :
  Async.run (Async.getSuccessor nodeQueried) (this, w)
  = Some (liftW (getSuccessor this nodeQueried) (this, w)).
Proof.
  unfold Async.getSuccessor, getSuccessor.
  apply run_liftW_getThis.
  apply run_liftW_bind; [apply run_liftW_deref | intros nq w1 _].
  destruct (ident_eqb (ChordNode.id this) (Node.id nq)).
  - apply run_liftW_bind; [apply run_liftW_deref | intros entry w2 _].
    apply run_liftW_ret.
  - apply run_liftW_bind; [apply run_liftW_deref | intros client w2 _].
    apply run_liftW_try_catch; [| intros w3 _; apply run_liftW_ret].
    apply run_liftW_bind; [apply run_liftW_await | intros n w3 _].
    apply run_liftW_ret.
Qed.

Lemma run_checkSuccessor (this : ChordNode) (w : World) :
  Async.run Async.checkSuccessor (this, w)
  = Some (liftW (checkSuccessor this) (this, w)).
Proof.
  unfold Async.checkSuccessor, checkSuccessor.
  apply run_liftW_getThis.
  apply run_liftW_bind; [apply run_liftW_deref | intros entry w1 _].
  apply run_liftW_bind; [apply run_liftW_deref | intros s0 w2 _].
  destruct (ident_eqb (Node.id s0) None); [apply run_liftW_ret |].
  destruct (ident_eqb (Node.id s0) (ChordNode.id this)); [apply run_liftW_ret |].
  apply run_liftW_try_catch; [| intros w3 _; apply run_liftW_ret].
  apply run_liftW_bind; [apply run_getSuccessor | intros nSuccessor w3 _].
  apply run_liftW_bind; [apply run_liftW_deref | intros n w4 _].
  apply run_liftW_ret.
Qed.

Lemma try_liftW_node {A} (c : M World A) (a : A) (this : ChordNode) (w : World)
    (r : outcome A) (s' : ChordNode * World) :
  try_catch (liftW c) (ret a) (this, w) = (r, s') -> fst s' = this.
Proof.
  unfold try_catch, liftW. cbn [fst snd].
  destruct (c w) as [[x| |code] w1]; unfold ret; now intros [= _ <-].
Qed.

Lemma run_try_liftW {A} (c : Async.task A) (c' : M World A) (a : A)
    (this : ChordNode) (w : World) :
  Async.run c (this, w) = Some (liftW c' (this, w)) ->
  Async.run (Async.try_catch c (Async.ret a)) (this, w)
  = Some (try_catch (liftW c') (ret a) (this, w)).
Proof. intros Hc. apply run_try_catch_as; [exact Hc | reflexivity]. Qed.

Lemma Async_pruneHead_unfold (fuel : nat) (ok : bool) :
  Async.pruneHead fuel ok
  = Async.bind Async.getThis (fun this =>
      if negb ok && (0 <? length (ChordNode.successorTable this))%nat then
        match fuel with
        | O => Async.Cut
        | S fuel' =>
            Async.bind (Async.try_catch Async.checkSuccessor (Async.ret false))
              (fun successorSeemsOK =>
                 Async.bind
                   (if successorSeemsOK then Async.mirrorSuccessor
                    else
                      Async.bind
                        (Async.modify (fun n =>
                           set_successorTable (shift (ChordNode.successorTable n)) n))
                        (fun _ =>
                           Async.bind Async.getThis (fun this =>
                             Async.setFingerSuccessor 0
                               (slot (ChordNode.successorTable this) 0))))
                   (fun _ => Async.pruneHead fuel' successorSeemsOK))
        end
      else Async.ret ok).
Proof. now destruct fuel. Qed.

(** The loop that prunes the head, run alone, needs no more fuel than the
    table has entries. *)
Lemma run_pruneHead (fuel : nat) (ok : bool) (s : ChordNode * World) :
  ok = true \/ (length (ChordNode.successorTable (fst s)) <= fuel)%nat ->
  Async.run (Async.pruneHead fuel ok) s = Some (pruneHead fuel ok s).
Proof.
  revert ok s. induction fuel as [|fuel IH]; intros ok [this w] Hfuel;
    rewrite pruneHead_unfold, Async_pruneHead_unfold, run_bind_getThis;
    cbn [fst snd];
    (destruct (negb ok && (0 <? length (ChordNode.successorTable this))%nat)
       eqn:Hguard; [| reflexivity]);
    apply andb_true_iff in Hguard as Hboth; destruct Hboth as [Hok Hlen];
    apply negb_true_iff in Hok; apply Nat.ltb_lt in Hlen;
    (destruct Hfuel as [Hfuel | Hfuel]; [congruence |]); cbn [fst] in Hfuel;
    [lia |].
  apply run_bind_as; [apply run_try_liftW, run_checkSuccessor | intros ok' s1 Hcheck].
  pose proof (try_liftW_node _ _ _ _ _ _ Hcheck) as Hnode.
  destruct s1 as [this1 w1]. cbn [fst] in Hnode. subst this1.
  apply run_bind_as.
  - destruct ok'; [apply run_mirrorSuccessor |].
    apply run_bind_as; [apply run_modify | intros [] s2 _].
    apply run_getThis_as. apply run_setFingerSuccessor.
  - intros [] s2 Hmid. apply IH.
    destruct ok'; [now left | right].
    unfold bind at 1 in Hmid. unfold modify at 1 in Hmid. cbn [fst snd] in Hmid.
    unfold bind at 1 in Hmid. unfold getThis at 1 in Hmid. cbn [fst snd] in Hmid.
    apply (f_equal (fun r => ChordNode.successorTable (fst (snd r)))) in Hmid.
    rewrite setFingerSuccessor_successorTable in Hmid. cbn in Hmid.
    rewrite <- Hmid, length_shift. lia.
Qed.

Lemma run_extend_test (i : nat) (ss : option Node) (s : ChordNode * World) :
  Async.run (Async.extend_test isInModuloRange i ss) s
  = Some (extend_test isInModuloRange (fst s) i ss s).
Proof.
  unfold Async.extend_test, extend_test. destruct ss as [n|]; [| reflexivity].
  destruct (negb (ident_eqb (Node.id n) None)); [| reflexivity].
  change (Async.run
            (Async.bind (Async.deref (slot (ChordNode.successorTable (fst s)) i))
               (fun si =>
                  Async.ret (negb (isInModuloRange (Node.id n) (ChordNode.id (fst s))
                                     true (Node.id si) true))))
            s = Some ((let* si := deref (slot (ChordNode.successorTable (fst s)) i) in
                       ret (negb (isInModuloRange (Node.id n) (ChordNode.id (fst s))
                                    true (Node.id si) true)))%chord s)).
  apply run_bind_as; [apply run_deref | reflexivity].
Qed.

Lemma run_extend_slot (i : nat) (s : ChordNode * World) :
  Async.run (Async.extend_slot isInModuloRange i) s
  = Some (extend_slot isInModuloRange i s).
Proof.
  destruct s as [this w]. unfold Async.extend_slot, extend_slot.
  apply run_getThis_as. cbn [fst].
  apply run_bind_as; [apply run_try_liftW, run_getSuccessor | intros ss s1 Hget].
  pose proof (try_liftW_node _ _ _ _ _ _ Hget) as Hnode.
  destruct s1 as [this1 w1]. cbn [fst] in Hnode. subst this1.
  apply run_bind_as; [apply (run_extend_test i ss (this, w1)) | intros q s2 _].
  destruct q; [apply run_modify | reflexivity].
Qed.

(** The extension loop makes at most [HASH_BIT_LENGTH + 1] turns. *)
Lemma run_extend_loop (fuel i : nat) (s : ChordNode * World) :
  (S HASH_BIT_LENGTH <= fuel + i)%nat ->
  Async.run (Async.extend_loop HASH_BIT_LENGTH isInModuloRange fuel i) s
  = Some (extend_loop HASH_BIT_LENGTH isInModuloRange fuel i s).
Proof.
  revert i s. induction fuel as [|fuel IH]; intros i s Hfuel;
    rewrite extend_loop_unfold; simpl;
    (destruct ((i <? length (ChordNode.successorTable (fst s)))%nat
               && (i <=? HASH_BIT_LENGTH)%nat) eqn:Hguard; [| reflexivity]).
  - apply andb_true_iff in Hguard as [_ Hi]. apply Nat.leb_le in Hi. lia.
  - apply run_bind_as; [apply run_extend_slot | intros [] s1 _].
    apply IH. lia.
Qed.

Lemma run_pruneTail (i : nat) (ok : bool) (s : ChordNode * World) :
  Async.run (Async.pruneTail HASH_BIT_LENGTH i ok) s
  = Some (pruneTail HASH_BIT_LENGTH i ok s).
Proof.
  revert ok s. induction i as [|i IH]; intros ok [this w]; [reflexivity |].
  change (Async.pruneTail HASH_BIT_LENGTH (S i) ok)
    with (Async.bind Async.getThis (fun this =>
            if negb ok
               || (HASH_BIT_LENGTH <? length (ChordNode.successorTable this))%nat then
              Async.bind
                (Async.try_catch
                   (Async.bind
                      (Async.getSuccessor (slot (ChordNode.successorTable this) (S i)))
                      (fun successorSuccessor =>
                         Async.bind (Async.deref successorSuccessor) (fun ss =>
                           Async.ret (if negb (ident_eqb (Node.id ss) None)
                                      then true else ok))))
                   (Async.ret false))
                (fun successorSeemsOK =>
                   Async.bind
                     (if negb successorSeemsOK || (HASH_BIT_LENGTH <=? S i)%nat then
                        Async.modify (fun n =>
                          set_successorTable (pop (ChordNode.successorTable n)) n)
                      else Async.ret tt)
                     (fun _ => Async.pruneTail HASH_BIT_LENGTH i successorSeemsOK))
            else Async.ret ok)).
  change (pruneTail HASH_BIT_LENGTH (S i) ok)
    with (let* this := getThis in
          if negb ok
             || (HASH_BIT_LENGTH <? length (ChordNode.successorTable this))%nat then
            let* successorSeemsOK :=
              try_catch
                (let* successorSuccessor :=
                   liftW (getSuccessor this (slot (ChordNode.successorTable this) (S i))) in
                 let* ss := deref successorSuccessor in
                 ret (if negb (ident_eqb (Node.id ss) None) then true else ok))
                (ret false) in
            (if negb successorSeemsOK || (HASH_BIT_LENGTH <=? S i)%nat then
               modify (fun n => set_successorTable (pop (ChordNode.successorTable n)) n)
             else ret tt);;
            pruneTail HASH_BIT_LENGTH i successorSeemsOK
          else ret ok)%chord.
  apply run_getThis_as. cbn [fst].
  destruct (negb ok || (HASH_BIT_LENGTH <? length (ChordNode.successorTable this))%nat);
    [| reflexivity].
  apply run_bind_as.
  - apply run_try_catch_as; [| reflexivity].
    apply run_bind_as; [apply run_getSuccessor | intros ss s1 _].
    apply run_bind_as; [apply run_deref | reflexivity].
  - intros ok' s1 _.
    apply run_bind_as; [| intros [] s2 _; apply IH].
    destruct (negb ok' || (HASH_BIT_LENGTH <=? S i)%nat); [apply run_modify | reflexivity].
Qed.

Lemma run_updateSuccessorTable_head (s : ChordNode * World) :
  Async.run Async.updateSuccessorTable_head s = Some (updateSuccessorTable_head s).
Proof.
  destruct s as [this w]. unfold Async.updateSuccessorTable_head, updateSuccessorTable_head.
  rewrite bind_getThis. cbn [fst].
  apply run_bind_as; [apply run_try_liftW, run_checkSuccessor | intros ok s1 Hcheck].
  pose proof (try_liftW_node _ _ _ _ _ _ Hcheck) as Hnode.
  destruct s1 as [this1 w1]. cbn [fst] in Hnode. subst this1.
  destruct ok.
  - apply run_bind_as; [apply run_mirrorSuccessor | reflexivity].
  - apply (run_pruneHead _ false (this, w1)). now right.
Qed.

Lemma run_updateSuccessorTable_isolated (s : ChordNode * World) :
  Async.run Async.updateSuccessorTable_isolated s
  = Some (updateSuccessorTable_isolated s).
Proof.
  unfold Async.updateSuccessorTable_isolated, updateSuccessorTable_isolated.
  apply run_getThis_as.
  destruct (length (ChordNode.successorTable (fst s)) <? 1)%nat;
    [apply run_modify | reflexivity].
Qed.

Lemma run_updateSuccessorTable_extend (s : ChordNode * World) :
  Async.run (Async.updateSuccessorTable_extend HASH_BIT_LENGTH isInModuloRange) s
  = Some (updateSuccessorTable_extend HASH_BIT_LENGTH isInModuloRange s).
Proof.
  unfold Async.updateSuccessorTable_extend, updateSuccessorTable_extend.
  apply run_getThis_as.
  apply run_bind_as.
  - destruct (length (ChordNode.successorTable (fst s)) <? HASH_BIT_LENGTH)%nat;
      [| reflexivity].
    apply run_bind_as; [apply run_deref | intros entry s1 _].
    apply run_bind_as; [apply run_deref | reflexivity].
  - intros short s1 _. destruct short; [| reflexivity].
    apply run_extend_loop. lia.
Qed.

Lemma run_updateSuccessorTable_tail (s : ChordNode * World) :
  Async.run (Async.updateSuccessorTable_tail HASH_BIT_LENGTH) s
  = Some (updateSuccessorTable_tail HASH_BIT_LENGTH s).
Proof.
  unfold Async.updateSuccessorTable_tail, updateSuccessorTable_tail.
  apply run_getThis_as. apply run_pruneTail.
Qed.

(** A call of [updateSuccessorTable] that no other task overlaps is the
    method as embedded above, and never runs out of fuel. *)
Lemma run_updateSuccessorTable (s : ChordNode * World) :
  Async.run (Async.updateSuccessorTable HASH_BIT_LENGTH isInModuloRange) s
  = Some (updateSuccessorTable HASH_BIT_LENGTH isInModuloRange s).
Proof.
  unfold Async.updateSuccessorTable, updateSuccessorTable.
  apply run_bind_as; [apply run_updateSuccessorTable_head | intros ok s1 _].
  apply run_bind_as; [apply run_updateSuccessorTable_isolated | intros [] s2 _].
  apply run_bind_as; [apply run_updateSuccessorTable_extend | intros [] s3 _].
  apply run_updateSuccessorTable_tail.
Qed.

End AloneMethods.

Section AloneStabilize.

Context {World : Type} `{!Network World}.
Variable HASH_BIT_LENGTH : nat.
Variable isInModuloRange : ident -> ident -> bool -> ident -> bool -> bool.

Lemma run_await {R} (rpc : World -> reply R * World) (s : ChordNode * World) :
  Async.run (Async.await rpc) s = Some (liftW (await rpc) s).
Proof. destruct s as [this w]. apply run_liftW_await. Qed.

Lemma run_checkPredecessor (s : ChordNode * World) :
  Async.run Async.checkPredecessor s = Some (checkPredecessor s).
Proof.
  unfold Async.checkPredecessor, checkPredecessor.
  apply run_getThis_as.
  destruct (negb (ident_eqb (Node.id (ChordNode.predecessor (fst s))) None)
            && negb (iAmMyOwnPredecessor (fst s))); [| reflexivity].
  apply run_bind_as; [apply run_deref | intros client s1 _].
  apply run_try_catch_as.
  - apply run_bind_as; [apply run_await | reflexivity].
  - intros s2 _. apply run_bind_as; [apply run_modify | reflexivity].
Qed.

Lemma run_stabilizeSelf (s : ChordNode * World) :
  Async.run Async.stabilizeSelf s = Some (stabilizeSelf s).
Proof.
  unfold Async.stabilizeSelf, stabilizeSelf.
  apply run_getThis_as.
  destruct (ident_eqb (Node.id (ChordNode.predecessor (fst s))) None); [reflexivity |].
  destruct (negb (iAmMyOwnPredecessor (fst s))); [| reflexivity].
  apply run_bind_as.
  - apply run_try_catch_as; [apply run_checkPredecessor | reflexivity].
  - intros ok s1 _. apply run_bind_as; [| reflexivity].
    destruct ok; [| reflexivity].
    apply run_getThis_as.
    apply run_bind_as; [apply run_setFingerSuccessor | intros [] s2 _].
    apply run_mirrorSuccessor.
Qed.

(** Where the successor of finger 0 is known, reading its address succeeds. *)
Lemma run_successorAddress (s : ChordNode * World) (entry : FingerTableEntry)
    (n : Node) :
  ChordNode.fingerTable (fst s) !! 0%nat = Some entry ->
  successor entry = Some n ->
  Async.run Async.successorAddress s = Some (Ok tt, s).
Proof.
  intros Hentry Hn. unfold Async.successorAddress.
  rewrite run_bind_getThis, Hentry. simpl. now rewrite Hn.
Qed.

Lemma deref_ok {St A} (v : option A) (a : A) (s s' : St) :
  deref v s = (Ok a, s') -> v = Some a /\ s' = s.
Proof. destruct v; unfold deref, ret, throw; now intros [= <- <-]. Qed.

Lemma liftW_node {A} (c : M World A) (s s' : ChordNode * World) (r : outcome A) :
  liftW c s = (r, s') -> fst s' = fst s.
Proof. unfold liftW. destruct (c (snd s)). now intros [= _ <-]. Qed.

(** A run of [stabilize] that no other task overlaps is the method as
    embedded above: finger 0 still has the successor it had before each
    call, and reading its address in a [catch] does not throw. *)
Lemma run_stabilize (s : ChordNode * World) :
  Async.run (Async.stabilize HASH_BIT_LENGTH isInModuloRange) s
  = Some (stabilize HASH_BIT_LENGTH isInModuloRange s).
Proof.
  unfold Async.stabilize, stabilize.
  apply run_bind_as.
  { apply run_try_catch_as; [| reflexivity].
    apply run_getThis_as.
    apply run_bind_as; [apply run_deref | intros entry s1 _].
    apply run_bind_as; [now destruct (successor entry) | intros [] s2 _].
    apply run_bind_as; [apply run_deref | reflexivity]. }
  intros connected s1 _. destruct connected as [successorClient|]; [| reflexivity].
  apply run_getThis_as.
  apply run_bind_as; [apply run_deref | intros entry s2 Hentry].
  apply deref_ok in Hentry as [Hentry ->].
  apply run_bind_as; [apply run_deref | intros s0 s2 Hs0].
  apply deref_ok in Hs0 as [Hs0 ->].
  apply run_bind_as.
  { destruct (ident_eqb (Node.id s0) (ChordNode.id (fst s1))).
    - apply run_bind_as; [apply run_stabilizeSelf | intros b s2 Hself].
      rewrite run_bind_getThis.
      pose proof (keeps_fixed_stabilizeSelf (fixed_part (fst s1)) s1 eq_refl) as Hfixed.
      rewrite Hself in Hfixed. unfold unchanged, fixed_part in Hfixed.
      cbn [snd] in Hfixed. injection Hfixed as Hid Hhost Hport _ _ _ _.
      unfold encapsulateSelf, Async.ret, ret. simpl.
      now rewrite Hid, Hhost, Hport.
    - apply run_try_catch_as; [apply run_await | intros s2 Hrejected].
      apply liftW_node in Hrejected.
      rewrite run_bind_getThis, run_bind.
      rewrite (run_successorAddress s2 entry s0)
        by (rewrite ?Hrejected; assumption).
      unfold Async.ret, ret. simpl. now rewrite Hrejected. }
  intros x s2 _.
  apply run_getThis_as.
  apply run_bind_as; [apply run_deref | intros entry2 s3 _].
  apply run_bind_as; [apply run_deref | intros s02 s4 _].
  apply run_bind_as.
  { destruct (isInModuloRange _ _ _ _ _); [apply run_setFingerSuccessor | reflexivity]. }
  intros [] s5 _.
  apply run_getThis_as.
  apply run_bind_as; [apply run_deref | intros entry5 s6 Hentry5].
  apply deref_ok in Hentry5 as [Hentry5 ->].
  apply run_bind_as; [apply run_deref | intros s05 s6 Hs05].
  apply deref_ok in Hs05 as [Hs05 ->].
  apply run_bind_as.
  { destruct (negb (ident_eqb (ChordNode.id (fst s5)) (Node.id s05))); [| reflexivity].
    apply run_bind_as; [apply run_deref | intros client s6 Hclient].
    apply deref_ok in Hclient as [_ ->].
    apply run_try_catch_as; [apply run_await | intros s6 Hrejected].
    apply liftW_node in Hrejected.
    apply (run_successorAddress s6 entry5 s05); rewrite ?Hrejected; assumption. }
  intros [] s6 _.
  apply run_bind_as; [| reflexivity].
  apply run_try_catch_as; [| reflexivity].
  apply run_bind_as; [apply run_updateSuccessorTable | reflexivity].
Qed.

End AloneStabilize.

(** ** A single task in the pool

    When the replies to one task are the only events, the task ends as it
    does when it runs alone. *)

Section SingleTask.

Context {World : Type}.

Lemma interleave_single {A} (t : Async.task A) (s s' : ChordNode * World)
    (o : outcome A) :
  Async.run t s = Some (o, s') ->
  exists (replies : nat) (t' : Async.task A),
    Async.interleave (Async.Start t :: replicate replies (Async.Resume 0)) [] s
    = ([t'], s')
    /\ Async.ended t' = Some o.
Proof.
  revert s. induction t as [a| |code| |f IH|f t IH|R rpc f IH]; intros [this w];
    cbn [Async.run Async.interleave Async.advance fst snd app].
  - intros [= <- <-]. now exists O, (Async.Return a).
  - intros [= <- <-]. now exists O, Async.Raise.
  - intros [= <- <-]. now exists O, (Async.Halt code).
  - discriminate.
  - intros Hrun. destruct (IH this (this, w) Hrun) as (n & t' & Hpool & Hend).
    exists n, t'. split; [exact Hpool | exact Hend].
  - intros Hrun. destruct (IH (f this, w) Hrun) as (n & t' & Hpool & Hend).
    exists n, t'. split; [exact Hpool | exact Hend].
  - destruct (rpc w) as [r w'] eqn:Hrpc. intros Hrun.
    destruct (IH r (this, w') Hrun) as (n & t' & Hpool & Hend).
    exists (S n), t'. split; [| exact Hend].
    cbn [replicate Async.interleave lookup list_lookup Async.resume fst snd].
    rewrite Hrpc.
    cbn [Async.interleave Async.advance fst snd app] in Hpool.
    destruct (Async.advance (f r) this) as [t1 n1]. exact Hpool.
Qed.

End SingleTask.

(** ** Runs that no other task overlaps *)

Section Unoverlapped.

Context {World : Type} `{!Network World}.
Variable HASH_BIT_LENGTH : nat.
Variable isInModuloRange : ident -> ident -> bool -> ident -> bool -> bool.

(** X9. How a run of [stabilize] ends when no other task of the node runs
    while it waits.  It returns [false], having done nothing, when the finger
    table is empty; it ends the process with code -9, having done nothing,
    when finger 0 has lost its successor; in every other state it returns
    [true], whatever the peers answer. *)
Theorem stabilize_ends (this : ChordNode) (w : World) :
  let alone :=
    Async.run (Async.stabilize HASH_BIT_LENGTH isInModuloRange) (this, w) in
  match ChordNode.fingerTable this !! 0%nat with
  | None => alone = Some (Ok false, (this, w))
  | Some entry =>
      match successor entry with
      | None => alone = Some (Exit (-9), (this, w))
      | Some _ => exists s', alone = Some (Ok true, s')
      end
  end.
Proof.
  cbv zeta. rewrite run_stabilize.
  pose proof (stabilize_ends_atomic HASH_BIT_LENGTH isInModuloRange this w) as Hends.
  destruct (ChordNode.fingerTable this !! 0%nat) as [entry|];
    [destruct (successor entry) as [n|] |].
  - destruct Hends as [s' ->]. now exists s'.
  - now rewrite Hends.
  - now rewrite Hends.
Qed.

(** X10. When a call of [updateSuccessorTable] returns, and no other task of
    the node ran while it waited, the successor table holds at most
    [HASH_BIT_LENGTH] entries (at most one when [HASH_BIT_LENGTH] is 0),
    however long it was before and whatever the peers answered. *)
Theorem updateSuccessorTable_length_cap (this : ChordNode) (w : World) (b : bool)
    (s' : ChordNode * World) :
  Async.run (Async.updateSuccessorTable HASH_BIT_LENGTH isInModuloRange) (this, w)
  = Some (Ok b, s') ->
  (length (ChordNode.successorTable (fst s')) <= Nat.max HASH_BIT_LENGTH 1)%nat.
Proof.
  rewrite run_updateSuccessorTable. intros [= Hrun].
  exact (updateSuccessorTable_length_cap_atomic HASH_BIT_LENGTH isInModuloRange
           this w b s' Hrun).
Qed.

(** X17. The successor table follows the successor.  When a call of
    [updateSuccessorTable] returns, and no other task of the node ran while
    it waited, from a state with a non-empty successor table and with
    [HASH_BIT_LENGTH >= 2], slot 0 of the successor table is the successor of
    finger 0, whatever the peers answered. *)
Theorem updateSuccessorTable_mirrors_successor (this : ChordNode) (w : World)
    (b : bool) (s' : ChordNode * World) :
  (1 <= length (ChordNode.successorTable this))%nat ->
  (2 <= HASH_BIT_LENGTH)%nat ->
  Async.run (Async.updateSuccessorTable HASH_BIT_LENGTH isInModuloRange) (this, w)
  = Some (Ok b, s') ->
  exists entry,
    ChordNode.fingerTable (fst s') !! 0%nat = Some entry
    /\ ChordNode.successorTable (fst s') !! 0%nat = Some (successor entry).
Proof.
  intros Hlen Hm. rewrite run_updateSuccessorTable. intros [= Hrun].
  exact (updateSuccessorTable_mirrors_successor_atomic HASH_BIT_LENGTH
           isInModuloRange this w b s' Hlen Hm Hrun).
Qed.

(** X18. Failing over to the next successor, in a call of
    [updateSuccessorTable] that no other task of the node overlaps.  The
    successor does not pass the check, neither at first nor when the pruning
    loop tries it again, and the second entry [n] of the successor table
    does; then the head of the method drops the first entry and makes [n]
    the successor of finger 0, and when the whole method is over [n] is still
    the successor and slot 0 of the successor table. *)
Theorem updateSuccessorTable_fails_over (this : ChordNode) (w w1 w2 w3 : World)
    (entry : FingerTableEntry) (head : option Node) (n : Node)
    (rest : list (option Node)) :
  ChordNode.fingerTable this !! 0%nat = Some entry ->
  ChordNode.successorTable this = head :: Some n :: rest ->
  try_catch (checkSuccessor this) (ret false) w = (Ok false, w1) ->
  try_catch (checkSuccessor this) (ret false) w1 = (Ok false, w2) ->
  let this1 :=
    set_fingerTable
      (<[0%nat := mkFinger (start entry) (Some n)]> (ChordNode.fingerTable this))
      (set_successorTable (Some n :: rest) this) in
  checkSuccessor this1 w2 = (Ok true, w3) ->
  Async.run Async.updateSuccessorTable_head (this, w) = Some (Ok true, (this1, w3))
  /\ exists r s',
       Async.run (Async.updateSuccessorTable HASH_BIT_LENGTH isInModuloRange) (this, w)
       = Some (r, s')
       /\ ChordNode.fingerTable (fst s') = ChordNode.fingerTable this1
       /\ ChordNode.successorTable (fst s') !! 0%nat = Some (Some n).
Proof.
  intros Hentry Htable Hfirst Hagain. cbv zeta. intros Hnext.
  destruct (updateSuccessorTable_fails_over_atomic HASH_BIT_LENGTH isInModuloRange
              this w w1 w2 w3 entry head n rest Hentry Htable Hfirst Hagain Hnext)
    as (Hhead & Hfingers & Hslot).
  split; [now rewrite run_updateSuccessorTable_head, Hhead |].
  rewrite run_updateSuccessorTable.
  destruct (updateSuccessorTable HASH_BIT_LENGTH isInModuloRange (this, w))
    as [r s'].
  now exists r, s'.
Qed.

End Unoverlapped.

(** ** Instances of the further conditional statements *)

Lemma findPredecessor_outcome_witness :
  let orphan :=
    exists entry, ChordNode.fingerTable node1_before_5 !! 0%nat = Some entry
                  /\ successor entry = None in
  (orphan
   /\ findPredecessor (Network0 := scripted unreachable) 3 isInModuloRange_spec
        node1_before_5 (Some 1) [] = (Throw, []))
  \/ (~ orphan
      /\ exists n hops w',
           findPredecessor_hops (Network0 := scripted unreachable) 3
             isInModuloRange_spec node1_before_5 (Some 1) []
           = (Ok (n, hops), w')
           /\ findPredecessor (Network0 := scripted unreachable) 3
                isInModuloRange_spec node1_before_5 (Some 1) [] = (Ok n, w')
           /\ Z.of_nat hops <= 2 ^ Z.of_nat 3 * Z.of_nat 3 + 1).
Proof.
  apply (findPredecessor_outcome (Network0 := scripted unreachable) 3
           isInModuloRange_spec node1_before_5 (Some 1) []).
  unfold small_ring. lia.
Defined.

Lemma closestPrecedingFinger_short_table_witness :
  closestPrecedingFinger (Network0 := scripted unreachable) 3 isInModuloRange_spec
    node1_new (Some 4) (peer 1) [] = (Throw, [])
  /\ closestPrecedingFingerRemoteHelper (Network0 := scripted unreachable) 3
       isInModuloRange_spec node1_new (Some 4) (peer 1) [] = (Ok NULL_NODE, []).
Proof.
  apply (closestPrecedingFinger_short_table (Network0 := scripted unreachable) 3
           isInModuloRange_spec node1_new (Some 4) (peer 1) []).
  - reflexivity.
  - simpl. lia.
Defined.

Lemma stabilizeSelf_kicks_witness :
  stabilizeSelf (Network0 := scripted unreachable) (node1_of_135, [])
  = (Ok false, (set_predecessor NULL_NODE node1_of_135, [GetPredecessor (peer 5)])).
Proof.
  exact (stabilizeSelf_kicks (Network0 := scripted unreachable) node1_of_135 []
           (mkFinger (Some 2) (Some (peer 3))) eq_refl).
Defined.

Lemma maintained_identity_witness :
  let s0 := (node1_of_135, @nil request) in
  let s :=
    snd (checkPredecessor (Network0 := scripted unreachable)
           (snd (stabilize (Network0 := scripted unreachable) 3
                   isInModuloRange_spec s0))) in
  fixed_part (fst s) = fixed_part (fst s0)
  /\ length (ChordNode.fingerTable (fst s)) = length (ChordNode.fingerTable (fst s0)).
Proof.
  apply (maintained_identity (Network0 := scripted unreachable) 3 isInModuloRange_spec).
  apply maintained_checkPredecessor, maintained_stabilize, maintained_start.
Defined.

Lemma updateFingerTable_adopts_and_forwards_witness :
  updateFingerTable (Network0 := scripted unreachable) isInModuloRange_spec (peer 2)
    0 (node1_of_135, [])
  = (Ok tt,
     (set_fingerTable
        (<[0%nat := mkFinger (Some 2) (Some (peer 2))]>
           (ChordNode.fingerTable node1_of_135)) node1_of_135,
      [UpdateFingerTable (peer 5) (peer 2) 0])).
Proof.
  exact (updateFingerTable_adopts_and_forwards (Network0 := scripted unreachable)
           isInModuloRange_spec node1_of_135 [] (peer 2) 0
           (mkFinger (Some 2) (Some (peer 3))) (peer 3) eq_refl eq_refl).
Defined.

Lemma updateSuccessorTable_orphans_node_witness :
  let this' :=
    set_successorTable [Some (encapsulateSelf node1_of_135)]
      (set_fingerTable
         (<[0%nat := mkFinger (Some 2) None]> (ChordNode.fingerTable node1_of_135))
         node1_of_135) in
  exists w',
    updateSuccessorTable (Network0 := scripted unreachable) 3 isInModuloRange_spec
      (node1_of_135, []) = (Throw, (this', w'))
    /\ forall w'',
         stabilize (Network0 := scripted unreachable) 3 isInModuloRange_spec
           (this', w'') = (Exit (-9), (this', w'')).
Proof.
  apply (updateSuccessorTable_orphans_node (Network0 := scripted unreachable) 3
           isInModuloRange_spec node1_of_135 [] (mkFinger (Some 2) (Some (peer 3)))).
  - intros p n w. reflexivity.
  - lia.
  - reflexivity.
  - intros n [= <-]. reflexivity.
  - repeat constructor; intros n [= <-]; reflexivity.
  - simpl. lia.
Defined.

Lemma joinCluster_first_node_witness :
  joinCluster (Network0 := scripted unreachable) 3 isInModuloRange_spec portHash
    (node1_new, []) = (Ok tt, (node1_alone, []))
  /\ (is_Some (Some 1) -> lone node1_alone).
Proof.
  apply (joinCluster_first_node (Network0 := scripted unreachable) 3
           isInModuloRange_spec portHash (Some 1) (Some "localhost"%string)
           (Some 8441) None None None node1_new []).
  - lia.
  - reflexivity.
  - unfold small_ring. lia.
  - unfold on_ring. simpl. lia.
  - reflexivity.
  - reflexivity.
Defined.

Lemma joinCluster_exits_on_collision_witness :
  joinCluster (Network0 := scripted unreachable) 3 isInModuloRange_spec portHash
    (node1_colliding, []) = (Exit (-9), (node1_colliding, [])).
Proof.
  destruct (joinCluster_exits_on_collision (Network0 := scripted unreachable) 3
              isInModuloRange_spec portHash (Some 1) (Some "localhost"%string)
              (Some 8441) (Some 1) (Some "localhost"%string) (Some 8443)
              node1_colliding [] eq_refl) as [[_ Hrun] | [Hno _]].
  - exact Hrun.
  - discriminate Hno.
Defined.

Lemma joinCluster_finger_starts_witness :
  let this' :=
    fst (snd (joinCluster (Network0 := scripted unreachable) 3 isInModuloRange_spec
                portHash (node1_through_3, []))) in
  ChordNode.id this' = Some 1
  /\ length (ChordNode.fingerTable this') = 3%nat
  /\ starts this' = [Some 2; Some 3; Some 5].
Proof.
  apply (joinCluster_finger_starts (Network0 := scripted unreachable) 3
           isInModuloRange_spec portHash (Some 1) (Some "localhost"%string)
           (Some 8441) None (Some "localhost"%string) (Some 8443)
           node1_through_3 []).
  - reflexivity.
  - unfold small_ring. lia.
  - unfold on_ring. simpl. lia.
  - reflexivity.
Defined.

Lemma lone_node_is_stable_witness :
  stabilize (Network0 := scripted unreachable) 3 isInModuloRange_spec
    (node1_alone, []) = (Ok true, (node1_alone, []))
  /\ fixFingers (Network0 := scripted unreachable) 3 isInModuloRange_spec (1 # 2)
       (node1_alone, []) = (Ok tt, (node1_alone, []))
  /\ checkPredecessor (Network0 := scripted unreachable) (node1_alone, [])
     = (Ok true, (node1_alone, []))
  /\ findSuccessor (Network0 := scripted unreachable) 3 isInModuloRange_spec
       node1_alone (Some 4) (Some (encapsulateSelf node1_alone)) []
     = (Ok (Some (encapsulateSelf node1_alone)), []).
Proof.
  apply (lone_node_is_stable (Network0 := scripted unreachable) 3 isInModuloRange_spec
           node1_alone [] (1 # 2) (Some 4)).
  split; [now exists 1 |]. split; [reflexivity |]. split; [reflexivity |].
  split; [discriminate | repeat constructor].
Defined.

Lemma joinCluster_known_peer_down_witness :
  exists w',
    joinCluster (Network0 := scripted unreachable) 3 isInModuloRange_spec portHash
      (node1_through_3, [])
    = (Ok tt,
       (ChordNode.mk (Some 1) (Some "localhost"%string) (Some 8441)
          (Some 3) (Some "localhost"%string) (Some 8443)
          [mkFinger (Some 2) (Some NULL_NODE);
           mkFinger (Some 3) (Some NULL_NODE);
           mkFinger (Some 5) (Some NULL_NODE)]
          [Some NULL_NODE] NULL_NODE, w')).
Proof.
  apply (joinCluster_known_peer_down (Network0 := scripted unreachable) 3
           isInModuloRange_spec portHash (Some 1) (Some "localhost"%string)
           (Some 8441) None (Some "localhost"%string) (Some 8443)
           node1_through_3 []).
  - lia.
  - reflexivity.
  - unfold small_ring. lia.
  - unfold on_ring. simpl. lia.
  - reflexivity.
  - intros k w0. reflexivity.
  - intros w0. reflexivity.
Defined.

Lemma stabilize_asks_adopts_notifies_witness :
  stabilize (Network0 := scripted unreachable) 3 isInModuloRange_spec
    (node1_of_135, [])
  = (Ok true,
     snd (updateSuccessorTable (Network0 := scripted unreachable) 3
            isInModuloRange_spec
            (node1_of_135, [Notify (peer 3) (peer 1); GetPredecessor (peer 3)]))).
Proof.
  exact (stabilize_asks_adopts_notifies (Network0 := scripted unreachable) 3
           isInModuloRange_spec node1_of_135 [] (mkFinger (Some 2) (Some (peer 3)))
           (peer 3) eq_refl eq_refl eq_refl).
Defined.

Lemma fixFingers_index_in_table_witness :
  is_Some (index_Z (ChordNode.fingerTable node1_of_135) (randomId 3 (1 # 2))).
Proof.
  apply (fixFingers_index_in_table 3 node1_of_135 (1 # 2)).
  - discriminate.
  - reflexivity.
  - lia.
  - reflexivity.
Defined.


Lemma joinCluster_asks_itself_witness :
  sent_after [] (FindSuccessorRemoteHelper (peer 2) (Some 2) (peer 2))
    (snd (snd (joinCluster (Network0 := scripted unreachable) 3 isInModuloRange_spec
                 portHash (node1_at_8442, [])))).
Proof.
  apply (joinCluster_asks_itself 3 isInModuloRange_spec portHash unreachable (Some 1)
           (Some "localhost"%string) (Some 8442) node1_at_8442 []).
  - lia.
  - unfold small_ring. lia.
  - unfold on_ring. simpl. lia.
  - reflexivity.
  - reflexivity.
  - reflexivity.
  - reflexivity.
Defined.


Lemma findSuccessor_resolves_locally_witness :
  findPredecessor_hops (Network0 := scripted unreachable) 3 isInModuloRange_spec
    node1_of_135 (Some 2) [] = (Ok (peer 1, O), [])
  /\ findSuccessor (Network0 := scripted unreachable) 3 isInModuloRange_spec
       node1_of_135 (Some 2) (Some (peer 1)) [] = (Ok (Some (peer 3)), []).
Proof.
  apply (findSuccessor_resolves_locally (Network0 := scripted unreachable) 3
           isInModuloRange_spec node1_of_135 (Some 2) 1
           (mkFinger (Some 2) (Some (peer 3))) (peer 3) []).
  - reflexivity.
  - reflexivity.
  - reflexivity.
  - reflexivity.
Defined.

Lemma findSuccessor_one_hop_witness :
  findPredecessor_hops (Network0 := scripted ring_with_6) 3 isInModuloRange_spec
    node1_of_135 (Some 4) []
  = (Ok (peer 3, 1%nat), [GetSuccessorRemoteHelper (peer 3) (peer 3)])
  /\ findSuccessor (Network0 := scripted ring_with_6) 3 isInModuloRange_spec
       node1_of_135 (Some 4) (Some (peer 1)) []
     = (Ok (Some (peer 6)),
        [GetSuccessorRemoteHelper (peer 3) (peer 3);
         GetSuccessorRemoteHelper (peer 3) (peer 3)]).
Proof.
  apply (findSuccessor_one_hop (Network0 := scripted ring_with_6) 3
           isInModuloRange_spec node1_of_135 (Some 4) 1
           (mkFinger (Some 2) (Some (peer 3))) (peer 3) (peer 3) (peer 6) (peer 6)
           [] [GetSuccessorRemoteHelper (peer 3) (peer 3)]
           [GetSuccessorRemoteHelper (peer 3) (peer 3);
            GetSuccessorRemoteHelper (peer 3) (peer 3)]).
  - reflexivity.
  - reflexivity.
  - reflexivity.
  - reflexivity.
  - reflexivity.
  - reflexivity.
  - reflexivity.
  - reflexivity.
  - reflexivity.
  - reflexivity.
Defined.

Lemma updateSuccessorTable_length_cap_witness :
  exists b s',
    Async.run
      (Async.updateSuccessorTable (Network0 := scripted ring_with_6) 3
         isInModuloRange_spec) (node1_of_135, []) = Some (Ok b, s')
    /\ (length (ChordNode.successorTable (fst s')) <= Nat.max 3 1)%nat.
Proof.
  eexists _, _. split; [vm_compute; reflexivity |].
  eapply (updateSuccessorTable_length_cap (Network0 := scripted ring_with_6) 3
            isInModuloRange_spec node1_of_135 []).
  vm_compute. reflexivity.
Defined.

Lemma updateSuccessorTable_mirrors_successor_witness :
  exists b s' entry,
    Async.run
      (Async.updateSuccessorTable (Network0 := scripted ring_with_6) 3
         isInModuloRange_spec) (node1_of_135, []) = Some (Ok b, s')
    /\ ChordNode.fingerTable (fst s') !! 0%nat = Some entry
    /\ ChordNode.successorTable (fst s') !! 0%nat = Some (successor entry).
Proof.
  destruct (updateSuccessorTable_mirrors_successor (Network0 := scripted ring_with_6) 3
              isInModuloRange_spec node1_of_135 [] true
              (snd (updateSuccessorTable (Network0 := scripted ring_with_6) 3
                      isInModuloRange_spec (node1_of_135, []))))
    as (entry & Hentry & Hslot).
  - simpl. lia.
  - lia.
  - vm_compute. reflexivity.
  - eexists _, _, entry. split; [vm_compute; reflexivity |].
    split; [exact Hentry | exact Hslot].
Defined.

Lemma updateSuccessorTable_fails_over_witness :
  let this1 :=
    set_fingerTable
      (<[0%nat := mkFinger (Some 2) (Some (peer 3))]>
         (ChordNode.fingerTable node1_before_7))
      (set_successorTable [Some (peer 3); Some (peer 5)] node1_before_7) in
  Async.run (Async.updateSuccessorTable_head (Network0 := scripted ring_with_6))
    (node1_before_7, [])
  = Some (Ok true,
          (this1,
           [GetSuccessorRemoteHelper (peer 3) (peer 3);
            GetSuccessorRemoteHelper (peer 7) (peer 7);
            GetSuccessorRemoteHelper (peer 7) (peer 7)]))
  /\ exists r s',
       Async.run
         (Async.updateSuccessorTable (Network0 := scripted ring_with_6) 3
            isInModuloRange_spec) (node1_before_7, []) = Some (r, s')
       /\ ChordNode.fingerTable (fst s') = ChordNode.fingerTable this1
       /\ ChordNode.successorTable (fst s') !! 0%nat = Some (Some (peer 3)).
Proof.
  apply (updateSuccessorTable_fails_over (Network0 := scripted ring_with_6) 3
           isInModuloRange_spec node1_before_7 []
           [GetSuccessorRemoteHelper (peer 7) (peer 7)]
           [GetSuccessorRemoteHelper (peer 7) (peer 7);
            GetSuccessorRemoteHelper (peer 7) (peer 7)]
           [GetSuccessorRemoteHelper (peer 3) (peer 3);
            GetSuccessorRemoteHelper (peer 7) (peer 7);
            GetSuccessorRemoteHelper (peer 7) (peer 7)]
           (mkFinger (Some 2) (Some (peer 7))) (Some (peer 7)) (peer 3)
           [Some (peer 5)]).
  - reflexivity.
  - reflexivity.
  - reflexivity.
  - reflexivity.
  - reflexivity.
Defined.

